(** * Batis: a host for stateful agents (hooks without a UI tree)

    A shallow embedding of [src/index.ts] (the [Host] class with the
    [value]/[intermediate] event vocabulary) and of the older variant of the
    same file (the [Host] class with the [rendering]/[interimResults]
    vocabulary and the process-wide [rendering] flag), followed by the
    properties of the render procedure.

    User code (the agent, its effects, clean-ups, value producers and the
    listener) is data: a tree of the calls it makes into the engine.  The
    engine itself, which is what the source files define, is a set of
    functions in a state-and-exception monad over the process state. *)

From stdpp Require Import prelude strings.


Declare Scope host_scope.
Delimit Scope host_scope with host.
Local Open Scope host_scope.

(** Object identity of a host and of a state cell. *)
Definition HostId := nat.
Definition Loc := nat.

Section Engine.

(** [V] is the type of JavaScript values that flow through the engine
    (states, dependencies, agent results, thrown values); its decidable
    equality stands for the identity/value comparison of the source.
    [E] is the event vocabulary of the variant at hand. *)
Context {V : Type} `{!EqDecision V}.
Context {E : Type}.

(** ** User code *)

(** [TState | CreateState<TState>]: what a setter accepts. *)
Inductive Update :=
| Replace (v : V)
| Updater (f : V → V).

(** A callback that user code hands to the engine.  While it runs it may
    call setters it has captured, and it ends by returning or throwing. *)
Inductive Callback (R : Type) :=
| CbReturn (r : R)
| CbThrow (e : V)
| CbSetState (setter : Loc) (u : Update) (k : Callback R).
Global Arguments CbReturn {R} r.
Global Arguments CbThrow {R} e.
Global Arguments CbSetState {R} setter u k.

(** The value a callback ends by throwing, if it throws. *)
Fixpoint thrown {R} (c : Callback R) : option V :=
  match c with
  | CbReturn _ => None
  | CbThrow e => Some e
  | CbSetState _ _ k => thrown k
  end.

(** [DisposeEffect = () => void] and [Effect = () => DisposeEffect | void]. *)
Definition DisposeEffect := Callback unit.
Definition Effect := Callback (option DisposeEffect).

(** [initialState: TState | (() => TState)]; [isFunction] is the test of the
    constructor. *)
Inductive InitialState :=
| InitValue (v : V)
| InitFunction (f : Callback V).

(** The body of an agent for given arguments: the hook calls it makes, in
    order, each continuing with what the hook returned. *)
Inductive Agent :=
| Return (v : V)
| Throw (e : V)
| UseState (initialState : InitialState) (k : V → Loc → Agent)
| UseEffect (effect : Effect) (dependencies : option (list V)) (k : Agent)
| UseMemo (createValue : Callback V) (dependencies : list V) (k : V → Agent)
| SetState (setter : Loc) (u : Update) (k : Agent).

(** ** Data model *)

(** A state cell is an object shared between the memory and the [setState]
    closure created with it; it lives in a store and is named by its
    location, which is also what the closure is. *)
Record StateMemoryCell := mkState {
  state : V;
  stateChanges : list Update
}.

Record EffectMemoryCell := mkEffect {
  outdated : bool;
  effect : Effect;
  dependencies : option (list V);
  dispose : option DisposeEffect
}.

Record MemoMemoryCell := mkMemo {
  value : V;
  memoDependencies : list V
}.

Inductive MemoryCell :=
| MState (l : Loc)
| MEffect (c : EffectMemoryCell)
| MMemo (c : MemoMemoryCell).

Inductive CellType := TState | TEffect | TMemo.

Global Instance CellType_eq_dec : EqDecision CellType.
Proof. solve_decision. Defined.

Definition cellType (c : MemoryCell) : CellType :=
  match c with
  | MState _ => TState
  | MEffect _ => TEffect
  | MMemo _ => TMemo
  end.

Record Memory := mkMemory {
  memoryCells : list MemoryCell;
  pointer : nat
}.

(** What can be thrown: a value thrown by user code, the failure of a hook
    called without an active host, the failure of a read at a slot that
    holds a cell of another type, and the failure of spreading arguments
    that were never stored. *)
Inductive JsError :=
| Thrown (v : V)
| NoActiveHost
| CellMismatch
| NoArgs.

(** History of the engine's calls into the agent and into the callbacks
    handed to the hooks; the engine never reads it.  Slots are positions in
    the memory.  The calls of the listener are the [events] of the process
    state. *)
Inductive Call :=
| CallAgent (args : list V)
| AgentReturned (v : V)
| CallInitialState (slot : nat)
| CallCreateValue (slot : nat)
| CallEffect (slot : nat)
| CallDispose (slot : nat).

(** The process state seen by one host: the module-level variables
    ([activeHost]; [rendering] exists in the older variant only), the store
    of state cells, the host's private fields, the microtask queue (every
    job in it is this host's asynchronous re-render, so a counter), the
    events delivered to the listener (oldest first) and the call history. *)
Record World := mkWorld {
  activeHost : option HostId;
  rendering : bool;
  store : list StateMemoryCell;
  memory : Memory;
  args : option (list V);
  microtasks : nat;
  events : list E;
  calls : list Call
}.

Definition setActiveHost (h : option HostId) (w : World) : World :=
  mkWorld h (rendering w) (store w) (memory w) (args w) (microtasks w)
    (events w) (calls w).
Definition setRendering (b : bool) (w : World) : World :=
  mkWorld (activeHost w) b (store w) (memory w) (args w) (microtasks w)
    (events w) (calls w).
Definition setStore (s : list StateMemoryCell) (w : World) : World :=
  mkWorld (activeHost w) (rendering w) s (memory w) (args w) (microtasks w)
    (events w) (calls w).
Definition setMemory (m : Memory) (w : World) : World :=
  mkWorld (activeHost w) (rendering w) (store w) m (args w) (microtasks w)
    (events w) (calls w).
Definition setArgs (a : list V) (w : World) : World :=
  mkWorld (activeHost w) (rendering w) (store w) (memory w) (Some a)
    (microtasks w) (events w) (calls w).
Definition schedule (w : World) : World :=
  mkWorld (activeHost w) (rendering w) (store w) (memory w) (args w)
    (S (microtasks w)) (events w) (calls w).
Definition deliver (ev : E) (w : World) : World :=
  mkWorld (activeHost w) (rendering w) (store w) (memory w) (args w)
    (microtasks w) (events w ++ [ev]) (calls w).
Definition record (c : Call) (w : World) : World :=
  mkWorld (activeHost w) (rendering w) (store w) (memory w) (args w)
    (microtasks w) (events w) (calls w ++ [c]).

(** ** The monad of the engine

    A computation takes the process state and returns normally, throws, or
    exhausts the fuel of a loop.  A throw keeps the state reached. *)
Inductive Res (A : Type) :=
| Done (a : A) (w : World)
| Raise (e : JsError) (w : World)
| Timeout.
Global Arguments Done {A} a w.
Global Arguments Raise {A} e w.
Global Arguments Timeout {A}.

Definition M (A : Type) := World → Res A.

Definition ret {A} (a : A) : M A := λ w, Done a w.
Definition raise {A} (e : JsError) : M A := λ w, Raise e w.
Definition bind {A B} (m : M A) (k : A → M B) : M B :=
  λ w, match m w with
       | Done a w' => k a w'
       | Raise e w' => Raise e w'
       | Timeout => Timeout
       end.
Definition gets {A} (f : World → A) : M A := λ w, Done (f w) w.
Definition modify (f : World → World) : M unit := λ w, Done tt (f w).

(** [try { m } catch (error) { h error }] *)
Definition tryCatch {A} (m : M A) (h : JsError → M A) : M A :=
  λ w, match m w with
       | Raise e w' => h e w'
       | r => r
       end.

(** [try { m } finally { f }] *)
Definition tryFinally {A} (m : M A) (f : M unit) : M A :=
  λ w, match m w with
       | Done a w' => bind f (λ _, ret a) w'
       | Raise e w' => bind f (λ _, raise e) w'
       | Timeout => Timeout
       end.

End Engine.

Global Arguments Update : clear implicits.
Global Arguments Callback : clear implicits.
Global Arguments DisposeEffect : clear implicits.
Global Arguments Effect : clear implicits.
Global Arguments InitialState : clear implicits.
Global Arguments Agent : clear implicits.
Global Arguments StateMemoryCell : clear implicits.
Global Arguments EffectMemoryCell : clear implicits.
Global Arguments MemoMemoryCell : clear implicits.
Global Arguments MemoryCell : clear implicits.
Global Arguments Memory : clear implicits.
Global Arguments JsError : clear implicits.
Global Arguments Call : clear implicits.
Global Arguments World : clear implicits.
Global Arguments Res : clear implicits.
Global Arguments M : clear implicits.

Notation "'let*' x := m 'in' k" := (bind m (λ x, k))
  (at level 10, x name, m at level 100, k at level 200,
   format "'[' 'let*'  x  :=  m  'in' ']' '//' k") : host_scope.
Notation "'let*' ' p := m 'in' k" := (bind m (λ x, match x with p => k end))
  (at level 10, p pattern, m at level 100, k at level 200,
   format "'[' 'let*'  ' p  :=  m  'in' ']' '//' k") : host_scope.

(** ** Memory, hooks and the callbacks they run *)

Section Hooks.

Context {V : Type} `{!EqDecision V}.
Context {E : Type}.

Local Abbreviation World := (World V E).
Local Abbreviation M := (M V E).

(** The dependency comparator of [are-dependencies-equal.ts], which is not
    among the sources: the engine is parametric in it. *)
Variable areDependenciesEqual : option (list V) → option (list V) → bool.

(** The host whose state the world holds. *)
Variable this : HostId.

(** The test a setter makes before it schedules a re-render:
    [host !== activeHost] in [index.ts], [!rendering] in the older variant. *)
Variable detached : World → bool.

(** *** The setter and the callbacks *)

(** [memoryCell!.stateChanges = [...memoryCell!.stateChanges, state]] on the
    cell the closure captured, then the scheduling of [#renderAsync]. *)
Definition setState (l : Loc) (u : Update V) : M unit :=
  let* _ := modify (λ w, setStore
      (alter (λ c, mkState (state c) (stateChanges c ++ [u])) l (store w)) w) in
  let* free := gets detached in
  if (free : bool) then modify schedule else ret tt.

Fixpoint runCallback {R} (c : Callback V R) : M R :=
  match c with
  | CbReturn r => ret r
  | CbThrow e => raise (Thrown e)
  | CbSetState l u k => let* _ := setState l u in runCallback k
  end.

(** A call of the engine into a callback, noted in the history. *)
Definition invoke {R} (what : Call V) (c : Callback V R) : M R :=
  let* _ := modify (record what) in runCallback c.

(** The state a callback leaves behind: that of its setter calls. *)
Fixpoint afterSetters {R} (c : Callback V R) (w : World) : World :=
  match c with
  | CbSetState l u k =>
      let w1 := setStore
        (alter (λ c, mkState (state c) (stateChanges c ++ [u])) l (store w)) w in
      afterSetters k (if detached w1 then schedule w1 else w1)
  | _ => w
  end.

(** *** Memory *)

Definition setCells (cells : list (MemoryCell V)) (w : World) : World :=
  setMemory (mkMemory cells (pointer (memory w))) w.
Definition setPointer (p : nat) (w : World) : World :=
  setMemory (mkMemory (memoryCells (memory w)) p) w.

(** Modelled from the spec: [Memory.read] of memory.ts, which is not among
   the sources.  It returns the cell at the cursor if one exists there and
   signals its absence otherwise; it does not move the cursor.  The hooks
   pass the type of cell they expect; the spec leaves open what a cell of
   another type at the cursor leads to, and here the call fails. *)
Definition Memory_read (expectedType : CellType) : M (option (MemoryCell V)) :=
  let* m := gets memory in
  match memoryCells m !! pointer m with
  | None => ret None
  | Some c =>
      if decide (cellType c = expectedType) then ret (Some c)
      else raise CellMismatch
  end.

(** Modelled from the spec: [Memory.write] of memory.ts.  It stores the cell
   at the cursor position, which is the tail of the sequence whenever [read]
   signalled absence; a cell already there is replaced, which is how the
   hooks' assignments to the fields of the cell they read are rendered. *)
Definition Memory_write (c : MemoryCell V) : M unit :=
  modify (λ w,
    let m := memory w in
    if decide (pointer m < length (memoryCells m))
    then setCells (<[pointer m := c]> (memoryCells m)) w
    else setCells (memoryCells m ++ [c]) w).

(** Modelled from the spec: [Memory.movePointer] of memory.ts: the cursor
   moves forward by one. *)
Definition Memory_movePointer : M unit :=
  modify (λ w, setPointer (S (pointer (memory w))) w).

(** Modelled from the spec: the clean-ups of the hard reset of memory.ts,
   in slot order: each effect cell that holds a clean-up has it invoked and
   then discarded.  The spec is of two minds about a clean-up that throws
   here: its section on the memory says that the exception is not caught by
   this layer, its section on failures that the hard teardown runs all
   outstanding clean-ups that do not themselves throw and that failures of
   the agent never escape [render], and its open questions leave the fate of
   the remaining clean-ups to the implementer.  Here the teardown is
   best-effort, as the section on failures has it: the exception of a
   clean-up ends that clean-up only, and the teardown goes on. *)
Fixpoint disposeFrom (i : nat) (cells : list (MemoryCell V)) : M unit :=
  match cells with
  | [] => ret tt
  | c :: rest =>
      let* _ :=
        match c with
        | MEffect e =>
            match dispose e with
            | Some d =>
                let* _ := tryCatch (invoke (CallDispose i) d) (λ _, ret tt) in
                modify (λ w, setCells (<[i := MEffect
                  (mkEffect (outdated e) (effect e) (dependencies e) None)]>
                  (memoryCells (memory w))) w)
            | None => ret tt
            end
        | _ => ret tt
        end in
      disposeFrom (S i) rest
  end.

(** Modelled from the spec: [Memory.reset] of memory.ts.  Without [hard] the
   cursor goes back to the start and no cell is discarded.  With [hard], for
   every effect cell a present clean-up is invoked and discarded (see
   [disposeFrom] for one that throws), then the whole sequence is discarded
   and the cursor reset. *)
Definition Memory_reset (hard : bool) : M unit :=
  if hard then
    let* cells := gets (λ w, memoryCells (memory w)) in
    let* _ := disposeFrom 0 cells in
    modify (setMemory (mkMemory [] 0))
  else modify (setPointer 0).

(** Modelled from the spec: the fold of [Memory.applyStateChanges] of
   memory.ts.  The queue of a state cell is folded into its state, left to
   right: each entry replaces the state or is applied to the previous
   state. *)
Definition foldChanges (s : V) (us : list (Update V)) : V :=
  fold_left (λ s u, match u with Replace v => v | Updater f => f s end) us s.

(** Modelled from the spec: what [Memory.applyStateChanges] of memory.ts
   does for one cell, given the store and the answer so far. *)
Definition applyCell (acc : list (StateMemoryCell V) * bool) (c : MemoryCell V)
    : list (StateMemoryCell V) * bool :=
  match c with
  | MState l =>
      match acc.1 !! l with
      | Some sc =>
          let s := foldChanges (state sc) (stateChanges sc) in
          (<[l := mkState s []]> acc.1, acc.2 || bool_decide (s ≠ state sc))
      | None => acc
      end
  | _ => acc
  end.

(** Modelled from the spec: [Memory.applyStateChanges] of memory.ts.  Every
   state cell has its queue folded into its state and cleared; the result
   tells whether the state of any cell differs from what it was. *)
Definition Memory_applyStateChanges : M bool :=
  λ w, let r := fold_left applyCell (memoryCells (memory w)) (store w, false) in
       Done r.2 (setStore r.1 w).

(** Modelled from the spec: the visit of [Memory.triggerEffects] of
   memory.ts, from slot [i] on. *)
Fixpoint triggerFrom (i : nat) (cells : list (MemoryCell V)) : M unit :=
  match cells with
  | [] => ret tt
  | c :: rest =>
      let* _ :=
        match c with
        | MEffect e =>
            if outdated e then
              let* _ := match dispose e with
                        | Some d => invoke (CallDispose i) d
                        | None => ret tt
                        end in
              let* d' := invoke (CallEffect i) (effect e) in
              modify (λ w, setCells (<[i := MEffect
                (mkEffect false (effect e) (dependencies e) d')]>
                (memoryCells (memory w))) w)
            else ret tt
        | _ => ret tt
        end in
      triggerFrom (S i) rest
  end.

(** Modelled from the spec: [Memory.triggerEffects] of memory.ts.  Effect
   cells are visited in ascending slot order; for each one marked outdated a
   prior clean-up is invoked first, then the effect, whose result is stored
   as the new clean-up if it is one, and the mark is cleared. *)
Definition Memory_triggerEffects : M unit :=
  let* cells := gets (λ w, memoryCells (memory w)) in
  triggerFrom 0 cells.

(** *** The hooks of [Host] *)

(** [const host = activeHost!] followed by the first use of [host.#memory]
    ([getActiveHost()] in the older variant): the hook fails unless a host
    is active.  The world holds one host, so the active one is [this]. *)
Definition getActiveHost : M unit :=
  let* a := gets activeHost in
  if decide (a = Some this) then ret tt else raise NoActiveHost.

Definition useState (initialState : InitialState V) : M (V * Loc) :=
  let* _ := getActiveHost in
  let* memoryCell := Memory_read TState in
  let* l :=
    match memoryCell with
    | None =>
        let* slot := gets (λ w, pointer (memory w)) in
        let* s := match initialState with
                  | InitFunction f => invoke (CallInitialState slot) f
                  | InitValue v => ret v
                  end in
        let* l := gets (λ w, length (store w)) in
        let* _ := modify (λ w, setStore (store w ++ [mkState s []]) w) in
        let* _ := Memory_write (MState l) in
        ret l
    | Some (MState l) => ret l
    | Some _ => raise CellMismatch
    end in
  let* _ := Memory_movePointer in
  let* cell := gets (λ w, store w !! l) in
  match cell with
  | Some c => ret (state c, l)
  | None => raise CellMismatch
  end.

Definition useEffect (eff : Effect V) (deps : option (list V)) : M unit :=
  let* _ := getActiveHost in
  let* memoryCell := Memory_read TEffect in
  let* _ :=
    match memoryCell with
    | None => Memory_write (MEffect (mkEffect true eff deps None))
    | Some (MEffect c) =>
        if negb (areDependenciesEqual (dependencies c) deps) || outdated c
        then Memory_write (MEffect (mkEffect true eff deps (dispose c)))
        else ret tt
    | Some _ => raise CellMismatch
    end in
  Memory_movePointer.

Definition useMemo (createValue : Callback V V) (deps : list V) : M V :=
  let* _ := getActiveHost in
  let* memoryCell := Memory_read TMemo in
  let* slot := gets (λ w, pointer (memory w)) in
  let* c :=
    match memoryCell with
    | None =>
        let* v := invoke (CallCreateValue slot) createValue in
        let* _ := Memory_write (MMemo (mkMemo v deps)) in
        ret (mkMemo v deps)
    | Some (MMemo c) =>
        if negb (areDependenciesEqual (Some (memoDependencies c)) (Some deps))
        then
          let* v := invoke (CallCreateValue slot) createValue in
          let* _ := Memory_write (MMemo (mkMemo v deps)) in
          ret (mkMemo v deps)
        else ret c
    | Some _ => raise CellMismatch
    end in
  let* _ := Memory_movePointer in
  ret (value c).

(** [useCallback(callback, dependencies)] is
    [useMemo(() => callback, dependencies)]. *)
Definition useCallback (callback : V) (deps : list V) : M V :=
  useMemo (CbReturn callback) deps.

(** One invocation of the agent's body. *)
Fixpoint runAgent (p : Agent V) : M V :=
  match p with
  | Return v => ret v
  | Throw e => raise (Thrown e)
  | UseState i k => let* ' (s, set) := useState i in runAgent (k s set)
  | UseEffect e d k => let* _ := useEffect e d in runAgent k
  | UseMemo c d k => let* v := useMemo c d in runAgent (k v)
  | SetState l u k => let* _ := setState l u in runAgent k
  end.

End Hooks.

(** ** The dependency comparator *)

Section Comparator.

Context {V : Type} `{!EqDecision V}.

(** Modelled from the spec: the pairwise comparison of
   are-dependencies-equal.ts, by the equality of values. *)
Fixpoint pairwiseEqual (previous next : list V) : bool :=
  match previous, next with
  | [], [] => true
  | p :: previous', n :: next' => bool_decide (p = n) && pairwiseEqual previous' next'
  | _, _ => false
  end.

(** Modelled from the spec: [areDependenciesEqual] of
   are-dependencies-equal.ts, which is not among the sources.  It answers
   false whenever either side is absent, or the lengths differ, or any
   pairwise element differs. *)
Definition areDependenciesEqual (previous next : option (list V)) : bool :=
  match previous, next with
  | Some p, Some n => bool_decide (length p = length n) && pairwiseEqual p n
  | _, _ => false
  end.

End Comparator.

(** ** [Host] of [src/index.ts] *)

Section HostEvents.

Context {V : Type}.

(** [HostEvent = HostValueEvent | HostResetEvent | HostErrorEvent] *)
Inductive HostEvent :=
| HostValueEvent (value : V) (async : bool) (intermediate : bool)
| HostResetEvent
| HostErrorEvent (error : JsError V) (async : bool).

End HostEvents.

Global Arguments HostEvent : clear implicits.

Section Host.

Context {V : Type} `{!EqDecision V}.

Local Abbreviation World := (World V (HostEvent V)).
Local Abbreviation M := (M V (HostEvent V)).

Variable depsEqual : option (list V) → option (list V) → bool.
Variable this : HostId.

(** [this.#agent] and [this.#listener].  The listener is user code like
    the callbacks of the hooks: handed an event, it may call setters it has
    got hold of, and it ends by returning or throwing. *)
Variable agent : list V → Agent V.
Variable listener : HostEvent V → Callback V unit.

(** [host !== activeHost] *)
Definition notActive (w : World) : bool :=
  bool_decide (activeHost w ≠ Some this).

(** [this.#listener(event)] *)
Definition emit (event : HostEvent V) : M unit :=
  let* _ := modify (deliver event) in
  runCallback notActive (listener event).

(** The state in which the listener leaves the process when handed
    [event]. *)
Definition heard (event : HostEvent V) (w : World) : World :=
  afterSetters notActive (listener event) (deliver event w).

(** [try { activeHost = this; ... this.#agent(...this.#args!) ... }
     finally { activeHost = undefined; }] *)
Definition invokeAgent : M V :=
  tryFinally
    (let* _ := modify (setActiveHost (Some this)) in
     let* a := gets args in
     match a with
     | None => raise NoArgs
     | Some a =>
         let* _ := modify (record (CallAgent a)) in
         let* v := runAgent depsEqual this notActive (agent a) in
         let* _ := modify (record (AgentReturned v)) in
         ret v
     end)
    (modify (setActiveHost None)).

(** The two nested [do ... while] loops of [#render], one agent invocation
    per unit of fuel.  [valueEvent] is the local of that name ([None] for
    [undefined]).  When the condition of the inner loop holds the inner body
    runs again; otherwise the effects are triggered and the condition of
    the outer loop decides between one more run of the inner body and the
    final event. *)
Fixpoint renderLoop (fuel : nat) (async : bool) (valueEvent : option V)
    : M unit :=
  match fuel with
  | 0 => λ _, Timeout
  | S fuel =>
      let* _ := match valueEvent with
                | Some v => emit (HostValueEvent v async true)
                | None => ret tt
                end in
      let* v := invokeAgent in
      let* _ := Memory_reset notActive false in
      let* changed := Memory_applyStateChanges in
      if (changed : bool) then renderLoop fuel async (Some v)
      else
        let* _ := Memory_triggerEffects notActive in
        let* changed := Memory_applyStateChanges in
        if (changed : bool) then renderLoop fuel async (Some v)
        else emit (HostValueEvent v async false)
  end.

(** [#render(async)] *)
Definition render' (fuel : nat) (async : bool) : M unit :=
  renderLoop fuel async None.

(** The [catch] block shared by [render] and [#renderAsync]. *)
Definition onError (async : bool) (error : JsError V) : M unit :=
  let* _ := Memory_reset notActive true in
  emit (HostErrorEvent error async).

(** [render(args)] *)
Definition render (fuel : nat) (a : list V) : M unit :=
  let* _ := modify (setArgs a) in
  tryCatch (render' fuel false) (onError false).

(** [reset()] *)
Definition reset : M unit :=
  let* _ := Memory_reset notActive true in
  emit HostResetEvent.

(** [#renderAsync()], the job a detached setter puts in the microtask
    queue. *)
Definition renderAsync (fuel : nat) : M unit :=
  tryCatch
    (let* changed := Memory_applyStateChanges in
     if (changed : bool) then render' fuel true else ret tt)
    (onError true).

(** The event loop taking the next job of the microtask queue. *)
Definition runMicrotask (fuel : nat) : M unit :=
  let* n := gets microtasks in
  match n with
  | 0 => ret tt
  | S n =>
      let* _ := modify (λ w, mkWorld (activeHost w) (rendering w) (store w)
                  (memory w) (args w) n (events w) (calls w)) in
      renderAsync fuel
  end.

(** A host just constructed, in a process where no host is active. *)
Definition newHost : World :=
  mkWorld None false [] (mkMemory [] 0) None 0 [] [].

End Host.

(** ** [Host] of the older variant (hooks, [rendering] events) *)

Module Hook.

Section HostEvents.

Context {V : Type}.

(** [HostEvent = HostRenderingEvent | HostResetEvent | HostErrorEvent] *)
Inductive HostEvent :=
| HostRenderingEvent (result : V) (interimResults : list V)
| HostResetEvent
| HostErrorEvent (reason : JsError V).

End HostEvents.

Global Arguments HostEvent : clear implicits.

Section Host.

Context {V : Type} `{!EqDecision V}.

Local Abbreviation World := (World V (HostEvent V)).
Local Abbreviation M := (M V (HostEvent V)).

Variable depsEqual : option (list V) → option (list V) → bool.
Variable this : HostId.

(** [this.#hook] and [this.#eventListener]; the listener is user code that
    may call setters and ends by returning or throwing. *)
Variable hook : list V → Agent V.
Variable eventListener : HostEvent V → Callback V unit.

(** [!rendering] *)
Definition notRendering (w : World) : bool := negb (rendering w).

(** [this.#eventListener(event)] *)
Definition emit (event : HostEvent V) : M unit :=
  let* _ := modify (deliver event) in
  runCallback notRendering (eventListener event).

(** The state in which the listener leaves the process when handed
    [event]. *)
Definition heard (event : HostEvent V) (w : World) : World :=
  afterSetters notRendering (eventListener event) (deliver event w).

(** [try { activeHost = this; const result = this.#hook(...this.#args!); ... }
     finally { activeHost = undefined; }] *)
Definition invokeHook : M V :=
  tryFinally
    (let* _ := modify (setActiveHost (Some this)) in
     let* a := gets args in
     match a with
     | None => raise NoArgs
     | Some a =>
         let* _ := modify (record (CallAgent a)) in
         let* v := runAgent depsEqual this notRendering (hook a) in
         let* _ := modify (record (AgentReturned v)) in
         ret v
     end)
    (modify (setActiveHost None)).

(** The two nested [do ... while] loops of [#render], one invocation of the
    hook per unit of fuel.  [results] is the local of that name ([[]] for
    [undefined]); [results.unshift(result)] puts the new result in front.
    The event at the end is
    [createRenderingEvent(results[0], ...results.slice(1))]. *)
Fixpoint renderLoop (fuel : nat) (results : list V) : M unit :=
  match fuel with
  | 0 => λ _, Timeout
  | S fuel =>
      let* result := invokeHook in
      let* _ := Memory_reset notRendering false in
      let* changed := Memory_applyStateChanges in
      if (changed : bool) then renderLoop fuel (result :: results)
      else
        let* _ := Memory_triggerEffects notRendering in
        let* changed := Memory_applyStateChanges in
        if (changed : bool) then renderLoop fuel (result :: results)
        else emit (HostRenderingEvent result results)
  end.

(** [#render()]: [try { rendering = true; ... } finally { rendering = false; }] *)
Definition render' (fuel : nat) : M unit :=
  tryFinally
    (let* _ := modify (setRendering true) in renderLoop fuel [])
    (modify (setRendering false)).

(** The [catch] block shared by [render] and [#renderAsynchronously]. *)
Definition onError (reason : JsError V) : M unit :=
  let* _ := Memory_reset notRendering true in
  emit (HostErrorEvent reason).

(** [render(...args)] *)
Definition render (fuel : nat) (a : list V) : M unit :=
  let* _ := modify (setArgs a) in
  tryCatch (render' fuel) onError.

(** [reset()] *)
Definition reset : M unit :=
  let* _ := Memory_reset notRendering true in
  emit HostResetEvent.

(** [#renderAsynchronously()] *)
Definition renderAsynchronously (fuel : nat) : M unit :=
  tryCatch
    (let* changed := Memory_applyStateChanges in
     if (changed : bool) then render' fuel else ret tt)
    onError.

End Host.

End Hook.

(** * Properties *)

(** ** Reasoning in the monad *)

Section Frame.

Context {V E : Type}.

Local Abbreviation World := (World V E).
Local Abbreviation M := (M V E).

(** [always R m]: [m] never exhausts fuel, and however it ends the state it
    leaves is related by [R] to the state it started from. *)
Definition always {A} (R : relation World) (m : M A) : Prop :=
  ∀ w, match m w with
       | Done _ w' | Raise _ w' => R w w'
       | Timeout => False
       end.

Context (R : relation World) `{!PreOrder R}.

Lemma always_ret {A} (a : A) : always R (ret a).
Proof. intros w. simpl. reflexivity. Qed.

Lemma always_raise {A} (e : JsError V) : always R (raise e : M A).
Proof. intros w. simpl. reflexivity. Qed.

Lemma always_gets {A} (f : World → A) : always R (gets f).
Proof. intros w. simpl. reflexivity. Qed.

Lemma always_modify (f : World → World) :
  (∀ w, R w (f w)) → always R (modify f).
Proof. intros H w. simpl. apply H. Qed.

Lemma always_bind {A B} (m : M A) (k : A → M B) :
  always R m → (∀ a, always R (k a)) → always R (bind m k).
Proof.
  intros Hm Hk w. unfold bind. specialize (Hm w).
  destruct (m w) as [a w1|e w1|]; [|done..].
  specialize (Hk a w1). destruct (k a w1); [| |done]; by etrans.
Qed.

Lemma always_tryCatch {A} (m : M A) (h : JsError V → M A) :
  always R m → (∀ e, always R (h e)) → always R (tryCatch m h).
Proof.
  intros Hm Hh w. unfold tryCatch. specialize (Hm w).
  destruct (m w) as [a w1|e w1|]; [done| |done].
  specialize (Hh e w1). destruct (h e w1); [| |done]; by etrans.
Qed.

Lemma always_tryFinally {A} (m : M A) (f : M unit) :
  always R m → always R f → always R (tryFinally m f).
Proof.
  intros Hm Hf w. unfold tryFinally, bind. specialize (Hm w).
  destruct (m w) as [a w1|e w1|]; [| |done];
    specialize (Hf w1); destruct (f w1); simpl; try done; by etrans.
Qed.

End Frame.

Create HintDb always discriminated.

Ltac always_step :=
  lazymatch goal with
  | |- always _ (ret _) => apply always_ret; solve [tc_solve]
  | |- always _ (raise _) => apply always_raise; solve [tc_solve]
  | |- always _ (gets _) => apply always_gets; solve [tc_solve]
  | |- always _ (bind _ _) => apply always_bind; [solve [tc_solve] | | intros ?]
  | |- always _ (tryCatch _ _) =>
      apply always_tryCatch; [solve [tc_solve] | | intros ?]
  | |- always _ (modify _) => apply always_modify; intros ?
  | |- always _ (match ?x with _ => _ end) => destruct x
  end.

(** Equations between concatenations, up to bracketing. *)
Ltac app_norm :=
  repeat (rewrite <-app_assoc || rewrite <-app_comm_cons); reflexivity.

Ltac always_auto := repeat first [ solve [eauto 4 with always] | always_step ].

Lemma always_weaken {V E A} (R R' : relation (World V E)) (m : M V E A) :
  (∀ w w', R w w' → R' w w') → always R m → always R' m.
Proof.
  intros HR Hm w. specialize (Hm w). destruct (m w); auto.
Qed.

(** ** What the memory, the hooks and the callbacks leave alone *)

Section Internal.

Context {V : Type} `{!EqDecision V}.
Context {E : Type}.

Local Abbreviation World := (World V E).
Local Abbreviation M := (M V E).

Variable depsEqual : option (list V) → option (list V) → bool.
Variable this : HostId.
Variable detached : World → bool.

(** History entries other than those of an agent invocation. *)
Definition quietCall (c : Call V) : Prop :=
  match c with
  | CallAgent _ | AgentReturned _ => False
  | _ => True
  end.

(** A step inside the engine: the module-level variables, the stored
    arguments and the delivered events stay as they are, and the history
    grows by calls other than agent invocations. *)
Definition internal (w w' : World) : Prop :=
  activeHost w' = activeHost w ∧ rendering w' = rendering w ∧
  args w' = args w ∧ events w' = events w ∧
  ∃ h, calls w' = calls w ++ h ∧ Forall quietCall h.

(** A step of user code: an internal step that leaves the memory alone. *)
Definition external (w w' : World) : Prop :=
  internal w w' ∧ memory w' = memory w.

Global Instance internal_preorder : PreOrder internal.
Proof.
  split.
  - intros w. repeat split; try done. exists []. by rewrite app_nil_r.
  - intros w1 w2 w3 (Ha & Hr & Hg & He & h & Hc & Hh)
      (Ha' & Hr' & Hg' & He' & h' & Hc' & Hh').
    repeat split; try congruence.
    exists (h ++ h'). split; [|by apply Forall_app].
    by rewrite Hc', Hc, app_assoc.
Qed.

Global Instance external_preorder : PreOrder external.
Proof.
  split.
  - intros w. split; reflexivity.
  - intros w1 w2 w3 [Hi Hm] [Hi' Hm']. split; [by etrans|congruence].
Qed.

Lemma internal_same (w w' : World) :
  activeHost w' = activeHost w → rendering w' = rendering w →
  args w' = args w → events w' = events w → calls w' = calls w →
  internal w w'.
Proof.
  intros. repeat split; try done. exists []. by rewrite app_nil_r.
Qed.

Lemma external_same (w w' : World) :
  activeHost w' = activeHost w → rendering w' = rendering w →
  args w' = args w → events w' = events w → calls w' = calls w →
  memory w' = memory w → external w w'.
Proof. intros. split; [by apply internal_same|done]. Qed.

Lemma external_record (c : Call V) (w : World) :
  quietCall c → external w (record c w).
Proof.
  intros Hc. repeat split; try done. exists [c]. split; [done|]. by constructor.
Qed.

Lemma external_internal {A} (m : M A) : always external m → always internal m.
Proof. apply always_weaken. by intros ?? [? _]. Qed.

Lemma setState_external l u : always external (setState detached l u).
Proof. unfold setState. always_auto; by apply external_same. Qed.

Lemma runCallback_external {R} (c : Callback V R) :
  always external (runCallback detached c).
Proof.
  induction c; simpl; always_auto. apply setState_external.
Qed.

Lemma invoke_external {R} what (c : Callback V R) :
  quietCall what → always external (invoke detached what c).
Proof.
  intros Hq. unfold invoke. always_auto.
  - by apply external_record.
  - apply runCallback_external.
Qed.

Lemma invoke_internal {R} what (c : Callback V R) :
  quietCall what → always internal (invoke detached what c).
Proof. intros. by apply external_internal, invoke_external. Qed.

Lemma setState_internal l u : always internal (setState detached l u).
Proof. apply external_internal, setState_external. Qed.

Hint Resolve invoke_internal setState_internal : always.
Hint Extern 1 (quietCall _) => exact I : always.
Hint Extern 3 (internal _ _) => apply internal_same; reflexivity : always.

Lemma Memory_read_internal t : always internal (Memory_read (E:=E) t).
Proof. unfold Memory_read. always_auto. Qed.

Lemma Memory_write_internal c : always internal (Memory_write (E:=E) c).
Proof. unfold Memory_write. always_auto. case_decide; by apply internal_same. Qed.

Lemma Memory_movePointer_internal :
  always internal (Memory_movePointer (V:=V) (E:=E)).
Proof. unfold Memory_movePointer. always_auto. Qed.

Hint Resolve Memory_read_internal Memory_write_internal
  Memory_movePointer_internal : always.

Lemma disposeFrom_internal cells i :
  always internal (disposeFrom detached i cells).
Proof.
  revert i. induction cells as [|c cells IH]; intros i; simpl; always_auto.
Qed.

Hint Resolve disposeFrom_internal : always.

Lemma Memory_reset_internal hard : always internal (Memory_reset detached hard).
Proof. unfold Memory_reset. always_auto. Qed.

Lemma Memory_applyStateChanges_internal :
  always internal (Memory_applyStateChanges (V:=V) (E:=E)).
Proof. intros w. unfold Memory_applyStateChanges. by apply internal_same. Qed.

Lemma triggerFrom_internal cells i :
  always internal (triggerFrom detached i cells).
Proof.
  revert i. induction cells as [|c cells IH]; intros i; simpl; always_auto.
Qed.

Hint Resolve triggerFrom_internal : always.

Lemma Memory_triggerEffects_internal :
  always internal (Memory_triggerEffects detached).
Proof. unfold Memory_triggerEffects. always_auto. Qed.

Lemma getActiveHost_internal :
  always internal (getActiveHost (V:=V) (E:=E) this).
Proof. unfold getActiveHost. always_auto. Qed.

Hint Resolve getActiveHost_internal : always.

Lemma useState_internal i : always internal (useState this detached i).
Proof. unfold useState. always_auto. Qed.

Lemma useEffect_internal eff deps :
  always internal (useEffect (E:=E) depsEqual this eff deps).
Proof. unfold useEffect. always_auto. Qed.

Lemma useMemo_internal createValue deps :
  always internal (useMemo depsEqual this detached createValue deps).
Proof. unfold useMemo. always_auto. Qed.

Hint Resolve useState_internal useEffect_internal useMemo_internal : always.

Lemma runAgent_internal p :
  always internal (runAgent depsEqual this detached p).
Proof. induction p; simpl; always_auto. Qed.

End Internal.

(** ** Hard reset *)

Section Teardown.

Context {V : Type} `{!EqDecision V}.
Context {E : Type}.

Local Abbreviation World := (World V E).
Local Abbreviation M := (M V E).

Variable detached : World → bool.

(** Whether a callback ends by throwing. *)
Fixpoint throws {R} (c : Callback V R) : bool :=
  match c with
  | CbReturn _ => false
  | CbThrow _ => true
  | CbSetState _ _ k => throws k
  end.

Lemma runCallback_throws {R} (c : Callback V R) (w : World) :
  throws c = true → ∃ e w', runCallback detached c w = Raise (Thrown e) w'.
Proof.
  revert w. induction c as [r|e|l u k IH]; intros w Ht; simpl in *;
    [done|by eauto|].
  unfold bind.
  assert (∃ w1, setState detached l u w = Done tt w1) as [w1 ->].
  { unfold setState, bind, modify, gets. destruct (detached _); eauto. }
  by apply IH.
Qed.

Lemma throws_thrown {R} (c : Callback V R) :
  throws c = true ↔ is_Some (thrown c).
Proof.
  induction c as [r|e|l u k IH]; simpl; [|by eauto|done].
  split; [done|]. by intros [? ?].
Qed.

(** A callback is the setter calls it makes, then its end.  The setter
    calls touch the store and the microtask queue only. *)
Lemma afterSetters_same {R} (c : Callback V R) (w : World) :
  activeHost (afterSetters detached c w) = activeHost w ∧
  rendering (afterSetters detached c w) = rendering w ∧
  args (afterSetters detached c w) = args w ∧
  events (afterSetters detached c w) = events w ∧
  calls (afterSetters detached c w) = calls w ∧
  memory (afterSetters detached c w) = memory w.
Proof.
  revert w. induction c as [r|e|l u k IH]; intros w; simpl; [done..|].
  match goal with |- context [afterSetters _ k ?w1] =>
    destruct (IH w1) as (-> & -> & -> & -> & -> & ->)
  end.
  by destruct (detached _).
Qed.

Lemma runCallback_unit (c : Callback V unit) (w : World) :
  runCallback detached c w
  = match thrown c with
    | None => Done tt (afterSetters detached c w)
    | Some x => Raise (Thrown x) (afterSetters detached c w)
    end.
Proof.
  revert w. induction c as [[]|e|l u k IH]; intros w; simpl; [done..|].
  unfold bind, setState, bind, modify, gets. simpl.
  destruct (detached _); simpl; apply IH.
Qed.

Lemma disposeFrom_returns cells i (w : World) :
  ∃ w', disposeFrom detached i cells w = Done tt w'.
Proof.
  revert i w. induction cells as [|c cells IH]; intros i w; simpl;
    [by eauto|].
  unfold bind at 1.
  destruct c as [l|e|m]; simpl; try by apply IH.
  destruct (dispose e) as [d|] eqn:Hd; simpl; [|by apply IH].
  unfold bind at 1, tryCatch.
  destruct (invoke detached (CallDispose i) d w) as [[] w1|e1 w1|] eqn:Hinv;
    simpl; [by apply IH|by apply IH|].
  pose proof (invoke_internal detached (CallDispose i) d I w) as Hi.
  by rewrite Hinv in Hi.
Qed.

(** A hard reset returns, with the memory empty; the rest is as the
    clean-ups left it. *)
Lemma Memory_reset_hard_returns (w : World) :
  ∃ w', Memory_reset detached true w = Done tt w' ∧
        internal w w' ∧ memory w' = mkMemory [] 0.
Proof.
  pose proof (Memory_reset_internal detached true w) as Hi.
  unfold Memory_reset in *. unfold bind at 1 in Hi. unfold bind at 1.
  unfold gets at 1 in Hi. unfold gets at 1. unfold bind at 1 in Hi.
  unfold bind at 1.
  destruct (disposeFrom_returns (memoryCells (memory w)) 0 w) as (w1 & Hd).
  rewrite Hd in *. simpl in *. eauto.
Qed.

(** Whenever a hard reset returns, the memory is empty. *)
Lemma Memory_reset_hard_empty (w w' : World) :
  Memory_reset detached true w = Done tt w' → memory w' = mkMemory [] 0.
Proof.
  unfold Memory_reset. unfold bind at 1, gets at 1, bind at 1.
  destruct (disposeFrom _ _ _ _); [|done..]. simpl. by intros [= <-].
Qed.

End Teardown.

(** ** Applying the pending state changes *)

Section StateChanges.

Context {V : Type} `{!EqDecision V}.
Context {E : Type}.

Local Abbreviation World := (World V E).

(** Every state cell of the memory has an empty queue of pending updates. *)
Definition drainedAt (st : list (StateMemoryCell V))
    (cells : list (MemoryCell V)) : Prop :=
  ∀ i l c, cells !! i = Some (MState l) → st !! l = Some c →
           stateChanges c = [].

Definition drained (w : World) : Prop :=
  drainedAt (store w) (memoryCells (memory w)).

Lemma applyCell_keeps_empty (acc : list (StateMemoryCell V) * bool)
    (c : MemoryCell V) l sc :
  (∀ sc, acc.1 !! l = Some sc → stateChanges sc = []) →
  (applyCell acc c).1 !! l = Some sc → stateChanges sc = [].
Proof.
  intros Hacc. destruct c as [l'|e|m]; simpl; try apply Hacc.
  destruct (acc.1 !! l') as [sc'|] eqn:Hl'; simpl; [|apply Hacc].
  destruct (decide (l = l')) as [->|Hne].
  - rewrite list_lookup_insert_eq; [|by eapply lookup_lt_Some].
    by intros [= <-].
  - rewrite list_lookup_insert_ne by done. apply Hacc.
Qed.

Lemma applyCell_empties (acc : list (StateMemoryCell V) * bool) l sc :
  (applyCell acc (MState l)).1 !! l = Some sc → stateChanges sc = [].
Proof.
  simpl. destruct (acc.1 !! l) as [sc'|] eqn:Hl; simpl; [|congruence].
  rewrite list_lookup_insert_eq; [|by eapply lookup_lt_Some].
  by intros [= <-].
Qed.

Lemma fold_applyCell_keeps_empty (cells : list (MemoryCell V))
    (acc : list (StateMemoryCell V) * bool) l sc :
  (∀ sc, acc.1 !! l = Some sc → stateChanges sc = []) →
  (fold_left applyCell cells acc).1 !! l = Some sc → stateChanges sc = [].
Proof.
  revert acc. induction cells as [|c cells IH]; intros acc Hacc; simpl;
    [apply Hacc|].
  apply IH. intros sc'. by apply applyCell_keeps_empty.
Qed.

Lemma fold_applyCell_drains (cells : list (MemoryCell V))
    (acc : list (StateMemoryCell V) * bool) :
  drainedAt (fold_left applyCell cells acc).1 cells.
Proof.
  revert acc. induction cells as [|c cells IH]; intros acc i l sc Hi Hl;
    [by rewrite lookup_nil in Hi|].
  simpl in Hl. destruct i as [|i]; simpl in Hi.
  - injection Hi as ->. revert Hl. apply fold_applyCell_keeps_empty.
    intros sc'. apply applyCell_empties.
  - by eapply IH.
Qed.

Lemma Memory_applyStateChanges_Done (w : World) :
  ∃ b st, Memory_applyStateChanges w = Done b (setStore st w).
Proof. unfold Memory_applyStateChanges. eauto. Qed.

(** After [applyStateChanges], whatever it answers, no queue is left. *)
Lemma Memory_applyStateChanges_drains (w w' : World) b :
  Memory_applyStateChanges w = Done b w' → drained w'.
Proof.
  unfold Memory_applyStateChanges. intros [= _ <-].
  unfold drained. simpl. apply fold_applyCell_drains.
Qed.

Lemma fold_applyCell_drained (cells : list (MemoryCell V))
    (st : list (StateMemoryCell V)) :
  drainedAt st cells → fold_left applyCell cells (st, false) = (st, false).
Proof.
  induction cells as [|c cells IH]; intros Hd; [done|]. simpl.
  assert (Hc : applyCell (st, false) c = (st, false)).
  { destruct c as [l|e|m]; simpl; try done.
    destruct (st !! l) as [sc|] eqn:Hl; [|done].
    pose proof (Hd 0 l sc eq_refl Hl) as Hq. destruct sc as [s q].
    simpl in *. subst q. simpl.
    rewrite list_insert_id by done. by rewrite bool_decide_eq_false_2 by auto. }
  rewrite Hc. apply IH. intros i l sc Hi. by apply (Hd (S i)).
Qed.

(** With no queue pending, [applyStateChanges] answers false and changes
    nothing. *)
Lemma Memory_applyStateChanges_drained (w : World) :
  drained w → Memory_applyStateChanges w = Done false w.
Proof.
  intros Hd. unfold Memory_applyStateChanges.
  rewrite (fold_applyCell_drained _ _ Hd). simpl. by destruct w.
Qed.

End StateChanges.

(** ** The history of agent invocations *)

Section History.

Context {V : Type}.

(** The arguments of the agent invocations of a history, and the values
    the invocations that returned have produced, both in order. *)
Definition agentCalls (h : list (Call V)) : list (list V) :=
  omap (λ c, match c with CallAgent a => Some a | _ => None end) h.
Definition agentReturns (h : list (Call V)) : list V :=
  omap (λ c, match c with AgentReturned v => Some v | _ => None end) h.

Lemma agentCalls_app h1 h2 : agentCalls (h1 ++ h2) = agentCalls h1 ++ agentCalls h2.
Proof. apply omap_app. Qed.

Lemma agentReturns_app h1 h2 :
  agentReturns (h1 ++ h2) = agentReturns h1 ++ agentReturns h2.
Proof. apply omap_app. Qed.

Lemma agentCalls_quiet h : Forall quietCall h → agentCalls h = [].
Proof.
  induction 1 as [|c h Hc _ IH]; [done|]. destruct c; try done; exact IH.
Qed.

Lemma agentReturns_quiet h : Forall quietCall h → agentReturns h = [].
Proof.
  induction 1 as [|c h Hc _ IH]; [done|]. destruct c; try done; exact IH.
Qed.

Lemma agentCalls_pass a h0 h :
  agentCalls h0 = [] → agentCalls (CallAgent a :: h0 ++ h) = a :: agentCalls h.
Proof.
  intros H0. change (CallAgent a :: h0 ++ h) with ([CallAgent a] ++ h0 ++ h).
  by rewrite !agentCalls_app, H0.
Qed.

Lemma agentReturns_pass a h0 h vs :
  agentReturns h0 = vs →
  agentReturns (CallAgent a :: h0 ++ h) = vs ++ agentReturns h.
Proof.
  intros H0. change (CallAgent a :: h0 ++ h) with ([CallAgent a] ++ h0 ++ h).
  by rewrite !agentReturns_app, H0.
Qed.

End History.

(** ** Agents that never use the state primitive *)

Section Stateless.

Context {V : Type} `{!EqDecision V}.
Context {E : Type}.

Local Abbreviation World := (World V E).
Local Abbreviation M := (M V E).

Variable depsEqual : option (list V) → option (list V) → bool.
Variable this : HostId.
Variable detached : World → bool.

(** The body makes no call of [useState]. *)
Fixpoint stateless (p : Agent V) : Prop :=
  match p with
  | Return _ | Throw _ => True
  | UseState _ _ => False
  | UseEffect _ _ k => stateless k
  | UseMemo _ _ k => ∀ v, stateless (k v)
  | SetState _ _ k => stateless k
  end.

(** The memory holds no state cell. *)
Definition noStateCells (w : World) : Prop :=
  Forall (λ c, cellType c ≠ TState) (memoryCells (memory w)).

Definition keepsStateless (w w' : World) : Prop :=
  noStateCells w → noStateCells w'.

Global Instance keepsStateless_preorder : PreOrder keepsStateless.
Proof.
  split; [intros w Hw; exact Hw|]. intros w1 w2 w3 H1 H2 H. by apply H2, H1.
Qed.

Lemma external_keepsStateless {A} (m : M A) :
  always external m → always keepsStateless m.
Proof.
  apply always_weaken. intros w w' [_ Hm]. unfold keepsStateless, noStateCells.
  by rewrite Hm.
Qed.

Lemma keepsStateless_same (w w' : World) :
  memoryCells (memory w') = memoryCells (memory w) → keepsStateless w w'.
Proof. intros Hm. unfold keepsStateless, noStateCells. by rewrite Hm. Qed.

Lemma keepsStateless_insert (w : World) i c :
  cellType c ≠ TState →
  keepsStateless w (setCells (<[i := c]> (memoryCells (memory w))) w).
Proof. intros Hc Hw. unfold noStateCells. simpl. by apply Forall_insert. Qed.

Hint Resolve external_keepsStateless invoke_external setState_external
  : always.
Hint Extern 1 (quietCall _) => exact I : always.
Hint Extern 3 (keepsStateless _ _) => apply keepsStateless_same; reflexivity
  : always.
Hint Extern 3 (keepsStateless _ _) => apply keepsStateless_insert; done
  : always.

Lemma Memory_read_keepsStateless t :
  always keepsStateless (Memory_read (V:=V) (E:=E) t).
Proof. unfold Memory_read. always_auto. Qed.

Lemma Memory_write_keepsStateless c :
  cellType c ≠ TState → always keepsStateless (Memory_write (E:=E) c).
Proof.
  intros Hc. unfold Memory_write. always_auto. case_decide.
  - by apply keepsStateless_insert.
  - intros Hw. unfold noStateCells. simpl.
    rewrite Forall_app, Forall_singleton. by split.
Qed.

Lemma Memory_movePointer_keepsStateless :
  always keepsStateless (Memory_movePointer (V:=V) (E:=E)).
Proof. unfold Memory_movePointer. always_auto. Qed.

Hint Resolve Memory_read_keepsStateless Memory_movePointer_keepsStateless
  : always.
Hint Extern 2 (always keepsStateless (Memory_write _)) =>
  apply Memory_write_keepsStateless; done : always.

Lemma getActiveHost_keepsStateless :
  always keepsStateless (getActiveHost (V:=V) (E:=E) this).
Proof. unfold getActiveHost. always_auto. Qed.

Hint Resolve getActiveHost_keepsStateless : always.

Lemma useEffect_keepsStateless eff deps :
  always keepsStateless (useEffect (E:=E) depsEqual this eff deps).
Proof. unfold useEffect. always_auto. Qed.

Lemma useMemo_keepsStateless createValue deps :
  always keepsStateless (useMemo depsEqual this detached createValue deps).
Proof. unfold useMemo. always_auto. Qed.

Hint Resolve useEffect_keepsStateless useMemo_keepsStateless : always.

Lemma runAgent_keepsStateless p :
  stateless p → always keepsStateless (runAgent depsEqual this detached p).
Proof. induction p; simpl; intros Hp; try done; always_auto. Qed.

Lemma triggerFrom_keepsStateless cells i :
  always keepsStateless (triggerFrom detached i cells).
Proof.
  revert i. induction cells as [|c cells IH]; intros i; simpl; always_auto.
Qed.

Lemma Memory_triggerEffects_keepsStateless :
  always keepsStateless (Memory_triggerEffects detached).
Proof.
  unfold Memory_triggerEffects. always_auto. apply triggerFrom_keepsStateless.
Qed.

Lemma noStateCells_drained (w : World) : noStateCells w → drained w.
Proof.
  intros Hw i l c Hi. unfold noStateCells in Hw. rewrite Forall_lookup in Hw.
  by specialize (Hw i _ Hi).
Qed.

End Stateless.

(** ** Hooks under an active host *)

Section Active.

Context {V : Type} `{!EqDecision V}.
Context {E : Type}.

Local Abbreviation World := (World V E).
Local Abbreviation M := (M V E).

Variable depsEqual : option (list V) → option (list V) → bool.
Variable this : HostId.
Variable detached : World → bool.

(** Started while this host is active, [m] leaves it active when it
    returns, and when it throws it is not for want of an active host. *)
Definition hostFound {A} (m : M A) : Prop :=
  ∀ w, activeHost w = Some this →
       match m w with
       | Done _ w' => activeHost w' = Some this
       | Raise e _ => e ≠ NoActiveHost
       | Timeout => False
       end.

Lemma hostFound_ret {A} (a : A) : hostFound (ret a).
Proof. by intros w Hw. Qed.

Lemma hostFound_raise {A} (e : JsError V) :
  e ≠ NoActiveHost → hostFound (raise e : M A).
Proof. by intros He w Hw. Qed.

Lemma hostFound_gets {A} (f : World → A) : hostFound (gets f).
Proof. by intros w Hw. Qed.

Lemma hostFound_bind {A B} (m : M A) (k : A → M B) :
  hostFound m → (∀ a, hostFound (k a)) → hostFound (bind m k).
Proof.
  intros Hm Hk w Hw. unfold bind. specialize (Hm w Hw).
  destruct (m w) as [a w1|e w1|]; [|done..]. by apply Hk.
Qed.

Lemma hostFound_internal {A} (m : M A) :
  always internal m →
  (∀ w e w', m w = Raise e w' → e ≠ NoActiveHost) → hostFound m.
Proof.
  intros Hi Hr w Hw. specialize (Hi w). specialize (Hr w).
  destruct (m w) as [a w1|e w1|]; [| |done].
  - destruct Hi as (Ha & _). congruence.
  - by eapply Hr.
Qed.

Lemma setState_returns l u (w : World) :
  ∃ w', setState detached l u w = Done tt w'.
Proof. unfold setState, bind, modify, gets. destruct (detached _); eauto. Qed.

Lemma runCallback_raises {R} (c : Callback V R) (w w' : World) e :
  runCallback detached c w = Raise e w' → ∃ x, e = Thrown x.
Proof.
  revert w. induction c as [r|x|l u k IH]; intros w; simpl;
    [done|intros [= <- _]; eauto|].
  unfold bind. destruct (setState_returns l u w) as [w1 ->]. apply IH.
Qed.

Lemma hostFound_invoke {R} what (c : Callback V R) :
  quietCall what → hostFound (invoke detached what c).
Proof.
  intros Hq. apply hostFound_internal; [by apply invoke_internal|].
  intros w e w'. unfold invoke, bind, modify. intros Hr.
  by apply runCallback_raises in Hr as [x ->].
Qed.

Lemma hostFound_setState l u : hostFound (setState detached l u).
Proof.
  apply hostFound_internal; [apply setState_internal|].
  intros w e w'. by destruct (setState_returns l u w) as [w1 ->].
Qed.

Lemma hostFound_getActiveHost : hostFound (getActiveHost (V:=V) (E:=E) this).
Proof.
  intros w Hw. unfold getActiveHost, bind, gets. rewrite Hw.
  by rewrite decide_True.
Qed.

Lemma hostFound_Memory_read t : hostFound (Memory_read (V:=V) (E:=E) t).
Proof.
  apply hostFound_internal; [apply Memory_read_internal|].
  intros w e w'. unfold Memory_read, bind, gets.
  destruct (_ !! _); [|done]. case_decide; [done|]. by intros [= <- _].
Qed.

Lemma hostFound_Memory_write c : hostFound (Memory_write (V:=V) (E:=E) c).
Proof. apply hostFound_internal; [apply Memory_write_internal|done]. Qed.

Lemma hostFound_Memory_movePointer :
  hostFound (Memory_movePointer (V:=V) (E:=E)).
Proof. apply hostFound_internal; [apply Memory_movePointer_internal|done]. Qed.

Lemma hostFound_modify (f : World → World) :
  (∀ w, activeHost (f w) = activeHost w) → hostFound (modify f).
Proof. intros Hf w Hw. simpl. by rewrite Hf. Qed.

Ltac hostFound_step :=
  lazymatch goal with
  | |- hostFound (ret _) => apply hostFound_ret
  | |- hostFound (raise _) => apply hostFound_raise; discriminate
  | |- hostFound (gets _) => apply hostFound_gets
  | |- hostFound (bind _ _) => apply hostFound_bind; [|intros ?]
  | |- hostFound (modify _) => apply hostFound_modify; intros ?; reflexivity
  | |- hostFound (getActiveHost _) => apply hostFound_getActiveHost
  | |- hostFound (Memory_read _) => apply hostFound_Memory_read
  | |- hostFound (Memory_write _) => apply hostFound_Memory_write
  | |- hostFound Memory_movePointer => apply hostFound_Memory_movePointer
  | |- hostFound (invoke _ _ _) => apply hostFound_invoke; exact I
  | |- hostFound (setState _ _ _) => apply hostFound_setState
  | |- hostFound (match ?x with _ => _ end) => destruct x
  end.

Lemma hostFound_useState i : hostFound (useState this detached i).
Proof. unfold useState. repeat hostFound_step. Qed.

Lemma hostFound_useEffect eff deps :
  hostFound (useEffect (E:=E) depsEqual this eff deps).
Proof. unfold useEffect. repeat hostFound_step. Qed.

Lemma hostFound_useMemo createValue deps :
  hostFound (useMemo depsEqual this detached createValue deps).
Proof. unfold useMemo. repeat hostFound_step. Qed.

(** The body of an agent, started while the host is active, finds it
    active at every hook it calls. *)
Lemma hostFound_runAgent p :
  hostFound (runAgent depsEqual this detached p).
Proof.
  induction p; simpl; repeat hostFound_step;
    eauto using hostFound_useState, hostFound_useEffect, hostFound_useMemo,
      hostFound_setState.
Qed.

End Active.

(** ** The render procedure of [index.ts] *)

Section Render.

Context {V : Type} `{!EqDecision V}.

Local Abbreviation World := (World V (HostEvent V)).
Local Abbreviation M := (M V (HostEvent V)).

Variable depsEqual : option (list V) → option (list V) → bool.
Variable this : HostId.
Variable agent : list V → Agent V.
Variable listener : HostEvent V → Callback V unit.

Lemma invokeAgent_eq :
  invokeAgent depsEqual this agent =
  tryFinally
    (let* _ := modify (setActiveHost (Some this)) in
     let* a := gets args in
     match a with
     | None => raise NoArgs
     | Some a =>
         let* _ := modify (record (CallAgent a)) in
         let* v := runAgent depsEqual this (notActive this) (agent a) in
         let* _ := modify (record (AgentReturned v)) in
         ret v
     end)
    (modify (setActiveHost None)).
Proof. done. Qed.

Lemma renderLoop_S fuel async valueEvent :
  renderLoop depsEqual this agent listener (S fuel) async valueEvent =
  (let* _ := match valueEvent with
             | Some v => emit this listener (HostValueEvent v async true)
             | None => ret tt
             end in
   let* v := invokeAgent depsEqual this agent in
   let* _ := Memory_reset (notActive this) false in
   let* changed := Memory_applyStateChanges in
   if (changed : bool)
   then renderLoop depsEqual this agent listener fuel async (Some v)
   else
     let* _ := Memory_triggerEffects (notActive this) in
     let* changed := Memory_applyStateChanges in
     if (changed : bool)
     then renderLoop depsEqual this agent listener fuel async (Some v)
     else emit this listener (HostValueEvent v async false)).
Proof. done. Qed.

Lemma render'_eq fuel async :
  render' depsEqual this agent listener fuel async =
  renderLoop depsEqual this agent listener fuel async None.
Proof. done. Qed.

Lemma render_eq fuel a :
  render depsEqual this agent listener fuel a =
  (let* _ := modify (setArgs a) in
   tryCatch (render' depsEqual this agent listener fuel false)
     (onError this listener false)).
Proof. done. Qed.

Lemma renderAsync_eq fuel :
  renderAsync depsEqual this agent listener fuel =
  tryCatch
    (let* changed := Memory_applyStateChanges in
     if (changed : bool) then render' depsEqual this agent listener fuel true
     else ret tt)
    (onError this listener true).
Proof. done. Qed.

Lemma onError_eq async error :
  onError this listener async error =
  (let* _ := Memory_reset (notActive this) true in
   emit this listener (HostErrorEvent error async)).
Proof. done. Qed.

Lemma reset_eq :
  reset this listener =
  (let* _ := Memory_reset (notActive this) true in
   emit this listener HostResetEvent).
Proof. done. Qed.

Local Abbreviation emit := (emit this listener).
Local Abbreviation invokeAgent := (invokeAgent depsEqual this agent).
Local Abbreviation renderLoop := (renderLoop depsEqual this agent listener).
Local Abbreviation render' := (render' depsEqual this agent listener).
Local Abbreviation render := (render depsEqual this agent listener).
Local Abbreviation renderAsync := (renderAsync depsEqual this agent listener).
Local Abbreviation onError := (onError this listener).
Local Abbreviation reset := (reset this listener).
Local Abbreviation notActive := (notActive (V:=V) this).
Local Abbreviation heard := (heard this listener).

Lemma emit_eq ev (w : World) :
  emit ev w = match thrown (listener ev) with
              | None => Done tt (heard ev w)
              | Some x => Raise (Thrown x) (heard ev w)
              end.
Proof. unfold emit, bind, modify. by rewrite runCallback_unit. Qed.

Lemma heard_same ev (w : World) :
  activeHost (heard ev w) = activeHost w ∧
  rendering (heard ev w) = rendering w ∧
  args (heard ev w) = args w ∧
  events (heard ev w) = events w ++ [ev] ∧
  calls (heard ev w) = calls w ∧
  memory (heard ev w) = memory w.
Proof. apply (afterSetters_same notActive (listener ev) (deliver ev w)). Qed.

Lemma heard_activeHost ev (w : World) : activeHost (heard ev w) = activeHost w.
Proof. apply heard_same. Qed.

Lemma heard_args ev (w : World) : args (heard ev w) = args w.
Proof. apply heard_same. Qed.

Lemma heard_events ev (w : World) : events (heard ev w) = events w ++ [ev].
Proof. apply heard_same. Qed.

Lemma heard_calls ev (w : World) : calls (heard ev w) = calls w.
Proof. apply heard_same. Qed.

Lemma heard_memory ev (w : World) : memory (heard ev w) = memory w.
Proof. apply heard_same. Qed.

Lemma Memory_reset_soft (w : World) :
  Memory_reset notActive false w = Done tt (setPointer 0 w).
Proof. done. Qed.

(** One invocation of the agent: the active host is cleared on both exits,
    and the history grows by the invocation, the calls the hooks made and,
    when the agent returned, the value. *)
Lemma invokeAgent_spec (w : World) :
  match invokeAgent w with
  | Done v w' =>
      activeHost w' = None ∧ events w' = events w ∧ args w' = args w ∧
      ∃ a h, args w = Some a ∧ Forall quietCall h ∧
             calls w' = calls w ++ CallAgent a :: h ++ [AgentReturned v]
  | Raise e w' =>
      activeHost w' = None ∧ events w' = events w ∧ args w' = args w ∧
      ((e = NoArgs ∧ args w = None ∧ calls w' = calls w) ∨
       ∃ a h, args w = Some a ∧ Forall quietCall h ∧
              calls w' = calls w ++ CallAgent a :: h)
  | Timeout => False
  end.
Proof.
  rewrite invokeAgent_eq. unfold tryFinally, bind, modify, gets. simpl.
  destruct (args w) as [a|] eqn:Ha; simpl; [|by auto 10].
  pose proof (runAgent_internal depsEqual this notActive (agent a)
    (record (CallAgent a) (setActiveHost (Some this) w))) as Hr.
  destruct (runAgent _ _ _ _ _) as [v w1|e w1|]; [| |done].
  - destruct Hr as (_ & _ & Hg & He & h & Hc & Hh). simpl in *.
    repeat split; try done; try congruence.
    exists a, h. repeat split; try done.
    rewrite Hc. by rewrite <-!app_assoc.
  - destruct Hr as (_ & _ & Hg & He & h & Hc & Hh). simpl in *.
    repeat split; try done; try congruence.
    right. exists a, h. repeat split; try done.
    rewrite Hc. by rewrite <-!app_assoc.
Qed.

(** How a run of the loops of [#render] can end.  [vals] are the values at
    hand in order (a value carried over from before the run, then the
    values the agent returned during it), [ncalls] and [nrets] count the
    agent invocations started and returned, [evs] are the events delivered,
    and the last argument is what was thrown, if anything. *)
Definition quietEvent (ev : HostEvent V) : Prop :=
  thrown (listener ev) = None.

Inductive LoopEnd (async : bool) (vals : list V) (ncalls nrets : nat)
    (evs : list (HostEvent V)) : option (JsError V) → Prop :=
| EndStable vs v :
    ncalls = nrets → vals = vs ++ [v] →
    evs = map (λ v, HostValueEvent v async true) vs
          ++ [HostValueEvent v async false] →
    Forall quietEvent evs →
    LoopEnd async vals ncalls nrets evs None
| EndNoArgs :
    ncalls = nrets →
    evs = map (λ v, HostValueEvent v async true) vals →
    Forall quietEvent evs →
    LoopEnd async vals ncalls nrets evs (Some NoArgs)
| EndAgentThrew e :
    ncalls = S nrets →
    evs = map (λ v, HostValueEvent v async true) vals →
    Forall quietEvent evs →
    LoopEnd async vals ncalls nrets evs (Some e)
| EndListenerThrewIntermediate x vs v :
    ncalls = nrets → vals = vs ++ [v] →
    evs = map (λ v, HostValueEvent v async true) vals →
    Forall quietEvent (map (λ v, HostValueEvent v async true) vs) →
    thrown (listener (HostValueEvent v async true)) = Some x →
    LoopEnd async vals ncalls nrets evs (Some (Thrown x))
| EndEffectThrew e vs v :
    ncalls = nrets → vals = vs ++ [v] →
    evs = map (λ v, HostValueEvent v async true) vs →
    Forall quietEvent evs →
    LoopEnd async vals ncalls nrets evs (Some e)
| EndListenerThrewFinal x vs v :
    ncalls = nrets → vals = vs ++ [v] →
    evs = map (λ v, HostValueEvent v async true) vs
          ++ [HostValueEvent v async false] →
    Forall quietEvent (map (λ v, HostValueEvent v async true) vs) →
    thrown (listener (HostValueEvent v async false)) = Some x →
    LoopEnd async vals ncalls nrets evs (Some (Thrown x)).

Lemma LoopEnd_shift async vals n m evs eo :
  LoopEnd async vals n m evs eo → LoopEnd async vals (S n) (S m) evs eo.
Proof.
  destruct 1; subst;
    [ eapply EndStable | eapply EndNoArgs | eapply EndAgentThrew
    | eapply EndListenerThrewIntermediate | eapply EndEffectThrew
    | eapply EndListenerThrewFinal ]; eauto.
Qed.

Lemma LoopEnd_prepend async v0 vals n m evs eo :
  quietEvent (HostValueEvent v0 async true) →
  LoopEnd async vals n m evs eo →
  LoopEnd async (v0 :: vals) n m (HostValueEvent v0 async true :: evs) eo.
Proof.
  intros Hq. destruct 1; subst;
    [ eapply EndStable with (vs := v0 :: vs)
    | eapply EndNoArgs
    | eapply EndAgentThrew
    | eapply EndListenerThrewIntermediate with (vs := v0 :: vs)
    | eapply EndEffectThrew with (vs := v0 :: vs)
    | eapply EndListenerThrewFinal with (vs := v0 :: vs) ];
    eauto; simpl; by constructor.
Qed.

Lemma LoopEnd_values async vals n m evs eo :
  LoopEnd async vals n m evs eo →
  Forall (λ ev, ∃ v i, ev = HostValueEvent v async i) evs.
Proof.
  assert (Hmap : ∀ vs : list V,
            Forall (λ ev, ∃ v i, ev = HostValueEvent v async i)
              (map (λ v, HostValueEvent v async true) vs)).
  { intros vs. apply Forall_map, Forall_true. simpl. eauto. }
  destruct 1; subst; rewrite ?Forall_app, ?Forall_singleton; eauto.
Qed.

Definition pending (valueEvent : option V) : list V :=
  match valueEvent with Some v => [v] | None => [] end.

Definition loopEnds (async : bool) (p : list V) (w w' : World)
    (eo : option (JsError V)) : Prop :=
  ∃ evs h,
    events w' = events w ++ evs ∧ calls w' = calls w ++ h ∧
    args w' = args w ∧
    LoopEnd async (p ++ agentReturns h) (length (agentCalls h))
      (length (agentReturns h)) evs eo.

Definition loopPost (async : bool) (p : list V) (w : World)
    (r : Res V (HostEvent V) unit) : Prop :=
  match r with
  | Done _ w' => loopEnds async p w w' None
  | Raise e w' => loopEnds async p w w' (Some e)
  | Timeout => True
  end.

Lemma loopEnds_after_pass async (w1 w4 w' : World) a h0 v eo :
  events w4 = events w1 → args w4 = args w1 →
  calls w4 = calls w1 ++ CallAgent a :: h0 → 
  agentCalls h0 = [] → agentReturns h0 = [v] →
  loopEnds async [v] w4 w' eo → loopEnds async [] w1 w' eo.
Proof.
  intros He Hg Hc Hc0 Hr0 (evs & h & He' & Hc' & Hg' & Hend).
  exists evs, (CallAgent a :: h0 ++ h). repeat split.
  - congruence.
  - rewrite Hc', Hc. by rewrite <-app_assoc.
  - congruence.
  - rewrite (agentCalls_pass a h0 h Hc0), (agentReturns_pass a h0 h _ Hr0).
    by apply LoopEnd_shift.
Qed.

(** The part of the loop body after the intermediate event, up to the
    continuation of the loops, which is given. *)
Lemma loopPost_pass async (w1 : World)
    (cont : V → M unit) :
  (∀ v w4, loopPost async [v] w4 (cont v w4)) →
  loopPost async [] w1
    ((let* v := invokeAgent in
      let* _ := Memory_reset notActive false in
      let* changed := Memory_applyStateChanges in
      if (changed : bool) then cont v
      else
        let* _ := Memory_triggerEffects notActive in
        let* changed := Memory_applyStateChanges in
        if (changed : bool) then cont v
        else emit (HostValueEvent v async false)) w1).
Proof.
  intros Hcont. unfold bind at 1.
  pose proof (invokeAgent_spec w1) as Hinv.
  destruct (invokeAgent w1) as [v w2|e w2|]; [| |done].
  2:{ destruct Hinv as (_ & He & Hg & [(-> & Hn & Hc)|(a & h & Ha & Hq & Hc)]).
      - exists [], []. rewrite !app_nil_r. repeat split; auto.
        by eapply EndNoArgs.
      - exists [], (CallAgent a :: h). rewrite app_nil_r.
        repeat split; auto.
        change (CallAgent a :: h) with ([CallAgent a] ++ h).
        rewrite agentCalls_app, agentReturns_app.
        rewrite (agentCalls_quiet h Hq), (agentReturns_quiet h Hq). simpl.
        by eapply EndAgentThrew. }
  destruct Hinv as (_ & He & Hg & a & h & Ha & Hq & Hc).
  unfold bind at 1. rewrite Memory_reset_soft. unfold bind at 1.
  destruct (Memory_applyStateChanges_Done (setPointer 0 w2)) as (b & st & ->).
  pose (w4 := setStore st (setPointer 0 w2)).
  change (setStore st (setPointer 0 w2)) with w4.
  assert (He4 : events w4 = events w1) by (simpl; congruence).
  assert (Hg4 : args w4 = args w1) by (simpl; congruence).
  assert (Hc4 : calls w4 = calls w1 ++ CallAgent a :: h ++ [AgentReturned v])
    by (simpl; congruence).
  clearbody w4.
  assert (Hr0 : agentReturns (h ++ [AgentReturned v]) = [v]).
  { by rewrite agentReturns_app, (agentReturns_quiet h Hq). }
  assert (Hc0 : agentCalls (h ++ [AgentReturned v]) = []).
  { by rewrite agentCalls_app, (agentCalls_quiet h Hq). }
  destruct b.
  { specialize (Hcont v w4). destruct (cont v w4); [| |done];
      (eapply (loopEnds_after_pass async w1 w4 _ a (h ++ [AgentReturned v]) v);
       [done|done|exact Hc4|exact Hc0|exact Hr0|done]). }
  unfold bind at 1.
  pose proof (Memory_triggerEffects_internal notActive w4) as Htr.
  destruct (Memory_triggerEffects notActive w4) as [[] w5|e w5|]; [| |done].
  2:{ destruct Htr as (_ & _ & Hg5 & He5 & h5 & Hc5 & Hq5). simpl in *.
      exists [], (CallAgent a :: (h ++ [AgentReturned v]) ++ h5).
      rewrite app_nil_r. repeat split; [congruence| |congruence|].
      { rewrite Hc5, Hc4. by simplify_list_eq. }
      rewrite (agentCalls_pass a _ h5 Hc0), (agentReturns_pass a _ h5 _ Hr0).
      rewrite (agentCalls_quiet h5 Hq5), (agentReturns_quiet h5 Hq5). simpl.
      by eapply EndEffectThrew with (vs := []). }
  destruct Htr as (_ & _ & Hg5 & He5 & h5 & Hc5 & Hq5). simpl in *.
  unfold bind at 1.
  destruct (Memory_applyStateChanges_Done w5) as (b & st' & ->).
  assert (Hr1 : agentReturns ((h ++ [AgentReturned v]) ++ h5) = [v]).
  { by rewrite agentReturns_app, Hr0, (agentReturns_quiet h5 Hq5). }
  assert (Hc1 : agentCalls ((h ++ [AgentReturned v]) ++ h5) = []).
  { by rewrite agentCalls_app, Hc0, (agentCalls_quiet h5 Hq5). }
  assert (Hc6 : calls (setStore st' w5)
                = calls w1 ++ CallAgent a :: (h ++ [AgentReturned v]) ++ h5).
  { simpl. rewrite Hc5, Hc4. by simplify_list_eq. }
  destruct b.
  { specialize (Hcont v (setStore st' w5)).
    destruct (cont v (setStore st' w5)); [| |done];
      (eapply (loopEnds_after_pass async w1 (setStore st' w5) _ a
                 ((h ++ [AgentReturned v]) ++ h5) v);
       [simpl; congruence|simpl; congruence|exact Hc6|exact Hc1|exact Hr1
       |done]). }
  rewrite emit_eq.
  destruct (thrown (listener (HostValueEvent v async false))) as [x|] eqn:Hl.
  - exists [HostValueEvent v async false],
      (CallAgent a :: (h ++ [AgentReturned v]) ++ h5).
    rewrite heard_events, heard_calls, heard_args.
    repeat split; [simpl; congruence|exact Hc6|simpl; congruence|].
    rewrite (agentCalls_pass a _ h5 Hc0), (agentReturns_pass a _ h5 _ Hr0).
    rewrite (agentCalls_quiet h5 Hq5), (agentReturns_quiet h5 Hq5). simpl.
    by eapply EndListenerThrewFinal with (vs := []).
  - exists [HostValueEvent v async false],
      (CallAgent a :: (h ++ [AgentReturned v]) ++ h5).
    rewrite heard_events, heard_calls, heard_args.
    repeat split; [simpl; congruence|exact Hc6|simpl; congruence|].
    rewrite (agentCalls_pass a _ h5 Hc0), (agentReturns_pass a _ h5 _ Hr0).
    rewrite (agentCalls_quiet h5 Hq5), (agentReturns_quiet h5 Hq5). simpl.
    eapply EndStable with (vs := []); eauto.
Qed.

(** Every way the loops of [#render] end, in terms of the events delivered
    and the agent invocations made. *)
Lemma renderLoop_spec fuel async valueEvent (w : World) :
  loopPost async (pending valueEvent) w (renderLoop fuel async valueEvent w).
Proof.
  revert valueEvent w. induction fuel as [|fuel IH]; intros ve w; [done|].
  simpl. unfold bind at 1.
  pose proof (loopPost_pass async) as Hpass.
  destruct ve as [v0|]; simpl.
  2:{ apply Hpass. intros v w4. apply (IH (Some v)). }
  rewrite emit_eq.
  destruct (thrown (listener (HostValueEvent v0 async true))) as [x|] eqn:Hl.
  { exists [HostValueEvent v0 async true], []. rewrite app_nil_r.
    rewrite heard_events, heard_calls, heard_args.
    repeat split; auto. simpl.
    by eapply EndListenerThrewIntermediate with (vs := []). }
  specialize (Hpass (heard (HostValueEvent v0 async true) w)
    (λ v, renderLoop fuel async (Some v)) (λ v w4, IH (Some v) w4)).
  simpl in Hpass.
  match goal with |- loopPost _ _ _ ?r => destruct r as [[] w'|e w'|] end;
    [| |done];
    destruct Hpass as (evs & h & He & Hc & Hg & Hend);
    rewrite heard_events in He; rewrite heard_calls in Hc;
    rewrite heard_args in Hg;
    exists (HostValueEvent v0 async true :: evs), h;
    (repeat split; [simpl in *; by rewrite He, <-app_assoc|done|done|]);
    by apply LoopEnd_prepend.
Qed.

(** *** Value events of one run of [#render] *)

(** C2 (amended).  When [#render] returns, the values the agent produced
    in its passes are [vs ++ [v]] in the order produced; the events
    delivered by the run are one intermediate value event for each value of
    [vs], in that same order (oldest first), followed by the one event that
    is not intermediate, which carries the value [v] of the last pass. *)
Theorem render_value_events fuel async (w w' : World) :
  render' fuel async w = Done tt w' →
  ∃ h vs v,
    calls w' = calls w ++ h ∧ agentReturns h = vs ++ [v] ∧
    length (agentCalls h) = S (length vs) ∧
    events w' = events w ++ map (λ v, HostValueEvent v async true) vs
                         ++ [HostValueEvent v async false].
Proof.
  intros Hr. pose proof (renderLoop_spec fuel async None w) as Hs.
  rewrite <-render'_eq, Hr in Hs. destruct Hs as (evs & h & He & Hc & _ & Hend).
  simpl in Hend. inversion Hend as [vs v Hn Hv Hevs _| | | | |]; subst.
  exists h, vs, v. rewrite Hn, Hv, length_app. simpl.
  repeat split; [done|lia|done].
Qed.

(** *** The [catch] block of [render] *)

Lemma render_caught fuel a (w w1 : World) e :
  render' fuel false (setArgs a w) = Raise e w1 →
  ∃ w', render fuel a w =
          match thrown (listener (HostErrorEvent e false)) with
          | None => Done tt w'
          | Some x => Raise (Thrown x) w'
          end ∧
        memory w' = mkMemory [] 0 ∧
        events w' = events w1 ++ [HostErrorEvent e false].
Proof.
  intros Hr.
  destruct (Memory_reset_hard_returns notActive w1) as (w2 & Hreset & Hi & Hm).
  exists (heard (HostErrorEvent e false) w2).
  destruct Hi as (_ & _ & _ & He & _).
  rewrite heard_memory, heard_events.
  split; [|split; [done|by rewrite He]].
  rewrite render_eq. unfold bind at 1, modify at 1, tryCatch.
  rewrite Hr, onError_eq. unfold bind at 1. by rewrite Hreset, emit_eq.
Qed.

(** C1.  When the render procedure throws [e] during [render(args)],
    whatever threw inside it (the agent, an effect, a clean-up, the
    listener handed a value event), the exception does not escape: the hard
    reset empties the memory and the listener is called with exactly one
    error event, carrying [e] with [async] false, after the value events of
    the call.  [render] does not re-throw: it ends as that call of the
    listener ends, so it returns when the listener returns. *)
Theorem render_catches fuel a (w w1 : World) e :
  render' fuel false (setArgs a w) = Raise e w1 →
  ∃ w' evs,
    render fuel a w =
      match thrown (listener (HostErrorEvent e false)) with
      | None => Done tt w'
      | Some x => Raise (Thrown x) w'
      end ∧
    memory w' = mkMemory [] 0 ∧
    events w' = events w ++ evs ++ [HostErrorEvent e false] ∧
    Forall (λ ev, ∃ v i, ev = HostValueEvent v false i) evs.
Proof.
  intros Hr.
  destruct (render_caught fuel a w w1 e Hr) as (w' & Hw' & Hm & He').
  pose proof (renderLoop_spec fuel false None (setArgs a w)) as Hs.
  rewrite <-render'_eq, Hr in Hs.
  destruct Hs as (evs & h & He & _ & _ & Hend). simpl in He.
  exists w', evs. repeat split; [done..| |by eapply LoopEnd_values].
  rewrite He', He. by rewrite <-app_assoc.
Qed.

(** C9.  When [#render] throws during [render(args)] and the last event
    delivered is one on which the listener throws [x], then it is the
    listener that threw: the exception is [x] and the event is a value
    event of this call, intermediate or final.  The exception is caught by
    [render]: the memory is emptied and the same listener is called once
    more, with the error event carrying [x] and [async] false, and [render]
    ends as that call ends. *)
Theorem render_listener_throws fuel a (w w1 : World) e evs ev x :
  render' fuel false (setArgs a w) = Raise e w1 →
  events w1 = events w ++ evs ++ [ev] →
  thrown (listener ev) = Some x →
  e = Thrown x ∧ (∃ v i, ev = HostValueEvent v false i) ∧
  ∃ w', render fuel a w =
          match thrown (listener (HostErrorEvent (Thrown x) false)) with
          | None => Done tt w'
          | Some y => Raise (Thrown y) w'
          end ∧
        memory w' = mkMemory [] 0 ∧
        events w' = events w ++ evs ++ [ev; HostErrorEvent (Thrown x) false].
Proof.
  intros Hr Hev Hl.
  pose proof (renderLoop_spec fuel false None (setArgs a w)) as Hs.
  rewrite <-render'_eq, Hr in Hs. destruct Hs as (evs' & h & He & _ & _ & Hend).
  simpl in He, Hend. rewrite Hev in He. apply app_inv_head in He. subst evs'.
  assert (Hnq : ¬ Forall quietEvent (evs ++ [ev])).
  { rewrite Forall_app, Forall_singleton. unfold quietEvent. intros [_ Hq].
    congruence. }
  assert (e = Thrown x ∧ ∃ v i, ev = HostValueEvent v false i) as [-> Hev'].
  { inversion Hend as [|? ? Hq|? ? Hq|y vs v _ Hv Hevs _ Hy
                      |? ? ? ? ? ? Hq|y vs v _ Hv Hevs _ Hy]; subst;
      try done.
    - rewrite Hv, map_app in Hevs. simpl in Hevs.
      apply app_inj_tail in Hevs as [_ ->]. split; [congruence|eauto].
    - apply app_inj_tail in Hevs as [_ ->]. split; [congruence|eauto]. }
  split; [done|]. split; [done|].
  destruct (render_caught fuel a w w1 _ Hr) as (w' & Hw' & Hm & He').
  exists w'. repeat split; [done..|].
  rewrite He', Hev. by simplify_list_eq.
Qed.

(** C10.  When the agent throws in a pass of [render(args)] (the last
    invocation started did not return), the events of the call are one
    intermediate value event for each value the earlier passes produced, in
    order, followed by the error event: the intermediate events are not
    retracted and no value event of the call has [intermediate] false. *)
Theorem render_agent_throws_later fuel a (w w1 : World) e h :
  render' fuel false (setArgs a w) = Raise e w1 →
  calls w1 = calls w ++ h →
  length (agentCalls h) = S (length (agentReturns h)) →
  ∃ w', render fuel a w =
          match thrown (listener (HostErrorEvent e false)) with
          | None => Done tt w'
          | Some x => Raise (Thrown x) w'
          end ∧
        events w' = events w
                    ++ map (λ v, HostValueEvent v false true) (agentReturns h)
                    ++ [HostErrorEvent e false].
Proof.
  intros Hr Hcalls Hn.
  pose proof (renderLoop_spec fuel false None (setArgs a w)) as Hs.
  rewrite <-render'_eq, Hr in Hs. destruct Hs as (evs & h' & He & Hc' & _ & Hend).
  simpl in He, Hc', Hend. rewrite Hcalls in Hc'. apply app_inv_head in Hc'.
  subst h'.
  assert (Hevs : evs = map (λ v, HostValueEvent v false true) (agentReturns h)).
  { inversion Hend; subst; try done; lia. }
  destruct (render_caught fuel a w w1 _ Hr) as (w' & Hw' & Hm & He').
  exists w'. split; [done|]. rewrite He', He, Hevs. by simplify_list_eq.
Qed.

(** *** The state in which the loops of [#render] leave the process *)

Definition settled (r : Res V (HostEvent V) unit) : Prop :=
  match r with
  | Done _ w' => activeHost w' = None ∧ ∃ w0 ev, drained w0 ∧ w' = heard ev w0
  | Raise _ w' => activeHost w' = None
  | Timeout => True
  end.

Lemma settled_pass async (w1 : World) (cont : V → M unit) :
  (∀ v w4, activeHost w4 = None → settled (cont v w4)) →
  settled
    ((let* v := invokeAgent in
      let* _ := Memory_reset notActive false in
      let* changed := Memory_applyStateChanges in
      if (changed : bool) then cont v
      else
        let* _ := Memory_triggerEffects notActive in
        let* changed := Memory_applyStateChanges in
        if (changed : bool) then cont v
        else emit (HostValueEvent v async false)) w1).
Proof.
  intros Hcont. unfold bind at 1.
  pose proof (invokeAgent_spec w1) as Hinv.
  destruct (invokeAgent w1) as [v w2|e w2|]; [|by destruct Hinv|done].
  destruct Hinv as (Ha & _).
  unfold bind at 1. rewrite Memory_reset_soft. unfold bind at 1.
  destruct (Memory_applyStateChanges_Done (setPointer 0 w2)) as (b & st & ->).
  destruct b; [by apply Hcont|].
  unfold bind at 1.
  pose proof (Memory_triggerEffects_internal notActive
                (setStore st (setPointer 0 w2))) as Htr.
  destruct (Memory_triggerEffects notActive _) as [[] w5|e w5|]; [| |done];
    destruct Htr as (Ha5 & _); simpl in Ha5; [|simpl; congruence].
  unfold bind at 1.
  destruct (Memory_applyStateChanges w5) as [b w6|?|] eqn:Happ;
    [|by destruct (Memory_applyStateChanges_Done w5) as (? & ? & ?)..].
  pose proof (Memory_applyStateChanges_drains _ _ _ Happ) as Hd.
  assert (Ha6 : activeHost w6 = None).
  { destruct (Memory_applyStateChanges_Done w5) as (? & ? & Heq).
    rewrite Heq in Happ. injection Happ as _ <-. simpl. congruence. }
  destruct b; [by apply Hcont|].
  rewrite emit_eq. destruct (thrown (listener _)); simpl;
    rewrite heard_activeHost; [done|]. split; [done|]. eauto.
Qed.

Lemma renderLoop_settled fuel async valueEvent (w : World) :
  valueEvent = None ∨ activeHost w = None →
  settled (renderLoop fuel async valueEvent w).
Proof.
  revert valueEvent w. induction fuel as [|fuel IH]; intros ve w Hve; [done|].
  simpl. unfold bind at 1.
  assert (Hcont : ∀ v w4, activeHost w4 = None →
                          settled (renderLoop fuel async (Some v) w4)).
  { intros v w4 H4. apply IH. by right. }
  destruct ve as [v0|]; simpl; [|by apply settled_pass].
  destruct Hve as [|Hw]; [done|]. rewrite emit_eq.
  destruct (thrown (listener _)); [simpl; by rewrite heard_activeHost|].
  by apply settled_pass.
Qed.

(** What [onError] does to the events and to the active host: it adds the
    error event. *)
Lemma onError_events async e (w : World) :
  match onError async e w with
  | Done _ w' =>
      activeHost w' = activeHost w ∧
      events w' = events w ++ [HostErrorEvent e async]
  | Raise _ w' =>
      activeHost w' = activeHost w ∧
      (events w' = events w ∨ events w' = events w ++ [HostErrorEvent e async])
  | Timeout => False
  end.
Proof.
  rewrite onError_eq. unfold bind at 1.
  pose proof (Memory_reset_internal notActive true w) as Hi.
  destruct (Memory_reset notActive true w) as [[] w1|e1 w1|]; [| |done];
    destruct Hi as (Ha & _ & _ & He & _); [|by auto].
  rewrite emit_eq. destruct (thrown (listener _)); simpl;
    rewrite heard_activeHost, heard_events, He; auto.
Qed.

Lemma render_settled fuel a (w : World) :
  match render fuel a w with
  | Done _ w' | Raise _ w' => activeHost w' = None
  | Timeout => True
  end.
Proof.
  rewrite render_eq. unfold bind at 1, modify at 1, tryCatch.
  pose proof (renderLoop_settled fuel false None (setArgs a w) (or_introl eq_refl))
    as Hs.
  rewrite <-render'_eq in Hs.
  destruct (render' fuel false (setArgs a w)) as [[] w1|e w1|];
    [by destruct Hs| |done].
  simpl in Hs. pose proof (onError_events false e w1) as Hi.
  destruct (onError false e w1); [| |done]; destruct Hi as (Ha & _); congruence.
Qed.

Lemma renderAsync_settled fuel (w : World) :
  match renderAsync fuel w with
  | Done _ w' | Raise _ w' =>
      activeHost w' = None ∨ (activeHost w' = activeHost w ∧ calls w' = calls w)
  | Timeout => True
  end.
Proof.
  rewrite renderAsync_eq. unfold tryCatch, bind at 1.
  destruct (Memory_applyStateChanges_Done w) as (b & st & ->).
  destruct b; [|by right].
  pose proof (renderLoop_settled fuel true None (setStore st w)
                (or_introl eq_refl)) as Hs.
  rewrite <-render'_eq in Hs.
  destruct (render' fuel true (setStore st w)) as [[] w1|e w1|];
    [left; by destruct Hs| |done].
  simpl in Hs. pose proof (onError_events true e w1) as Hi.
  destruct (onError true e w1); [| |done]; destruct Hi as (Ha & _); left;
    congruence.
Qed.

(** C8.  The reference to the active host is set to this host immediately
    before each invocation of the agent and cleared immediately after it,
    on every exit.  The body of the agent starts with this host active and
    cannot change that, so no hook it calls fails for want of an active
    host; one invocation ends with no host active, whether the body returns
    or throws.  Hence the reference is never left set: it is cleared
    whenever [render] returns or throws, and [#renderAsync] leaves it
    cleared or, when it invokes nothing, as it found it. *)
Theorem activeHost_never_left_set :
  (∀ fuel a (w : World),
     match render fuel a w with
     | Done _ w' | Raise _ w' => activeHost w' = None
     | Timeout => True
     end) ∧
  (∀ fuel (w : World),
     match renderAsync fuel w with
     | Done _ w' | Raise _ w' =>
         activeHost w' = None ∨
         (activeHost w' = activeHost w ∧ calls w' = calls w)
     | Timeout => True
     end) ∧
  (∀ w : World,
     match invokeAgent w with
     | Done _ w' | Raise _ w' => activeHost w' = None
     | Timeout => False
     end) ∧
  (∀ w : World,
     invokeAgent w =
     match args w with
     | None => Raise NoArgs (setActiveHost None w)
     | Some a =>
         match runAgent depsEqual this notActive (agent a)
                 (record (CallAgent a) (setActiveHost (Some this) w)) with
         | Done v w' => Done v (setActiveHost None (record (AgentReturned v) w'))
         | Raise e w' => Raise e (setActiveHost None w')
         | Timeout => Timeout
         end
     end) ∧
  (∀ (w : World) a,
     args w = Some a →
     ∃ w0 : World,
       activeHost w0 = Some this ∧ calls w0 = calls w ++ [CallAgent a] ∧
       store w0 = store w ∧ memory w0 = memory w ∧
       match runAgent depsEqual this notActive (agent a) w0 with
       | Done v w' =>
           activeHost w' = Some this ∧
           ∃ w'', invokeAgent w = Done v w'' ∧ activeHost w'' = None
       | Raise e w' =>
           activeHost w' = Some this ∧ e ≠ NoActiveHost ∧
           ∃ w'', invokeAgent w = Raise e w'' ∧ activeHost w'' = None
       | Timeout => False
       end) ∧
  (∀ w w' : World, invokeAgent w ≠ Raise NoActiveHost w').
Proof.
  assert (Hbody : ∀ (w : World) a,
    args w = Some a →
    ∃ w0 : World,
       activeHost w0 = Some this ∧ calls w0 = calls w ++ [CallAgent a] ∧
       store w0 = store w ∧ memory w0 = memory w ∧
       match runAgent depsEqual this notActive (agent a) w0 with
       | Done v w' =>
           activeHost w' = Some this ∧
           ∃ w'', invokeAgent w = Done v w'' ∧ activeHost w'' = None
       | Raise e w' =>
           activeHost w' = Some this ∧ e ≠ NoActiveHost ∧
           ∃ w'', invokeAgent w = Raise e w'' ∧ activeHost w'' = None
       | Timeout => False
       end).
  { intros w a Hg.
    exists (record (CallAgent a) (setActiveHost (Some this) w)).
    do 4 (split; [reflexivity|]).
    pose proof (hostFound_runAgent depsEqual this notActive (agent a)
      (record (CallAgent a) (setActiveHost (Some this) w)) eq_refl) as Hf.
    pose proof (runAgent_internal depsEqual this notActive (agent a)
      (record (CallAgent a) (setActiveHost (Some this) w))) as Hi.
    rewrite invokeAgent_eq. unfold tryFinally, bind, modify, gets. simpl.
    rewrite Hg. simpl.
    destruct (runAgent _ _ _ _ _) as [v w1|e w1|]; [| |done].
    - split; [done|]. eauto.
    - destruct Hi as (Ha & _). split; [exact Ha|]. split; [done|]. eauto. }
  split; [exact render_settled|]. split; [exact renderAsync_settled|]. split.
  { intros w. pose proof (invokeAgent_spec w) as Hi.
    destruct (invokeAgent w); by destruct Hi. }
  split.
  { intros w. rewrite invokeAgent_eq.
    unfold tryFinally, bind, modify, gets, ret, raise. simpl.
    destruct (args w) as [a|]; [|done].
    by destruct (runAgent _ _ _ _ _). }
  split; [exact Hbody|].
  intros w w' Hr. destruct (args w) as [a|] eqn:Hg.
  - destruct (Hbody w a Hg) as (w0 & _ & _ & _ & _ & Hb).
    destruct (runAgent _ _ _ _ _) as [v w1|e w1|]; [| |done].
    + destruct Hb as (_ & w'' & Heq & _). congruence.
    + destruct Hb as (_ & Hne & w'' & Heq & _). congruence.
  - revert Hr. rewrite invokeAgent_eq.
    unfold tryFinally, bind, modify, gets. simpl. by rewrite Hg.
Qed.

(** *** The asynchronous re-render *)

(** Events that carry the flag of an asynchronous render. *)
Definition asyncEvent (ev : HostEvent V) : Prop :=
  match ev with
  | HostValueEvent _ a _ => a = true
  | HostErrorEvent _ a => a = true
  | HostResetEvent => False
  end.

(** C4.  [#renderAsync] first applies the pending state changes.  If that
    reports no change it returns at once: no event is delivered and no call
    into user code is made.  If it reports a change, the render procedure
    runs with [async] true under the [catch] of [#renderAsync], and every
    event delivered carries [async] true. *)
Theorem renderAsync_spec fuel (w : World) :
  ∃ changed w1,
    Memory_applyStateChanges w = Done changed w1 ∧
    events w1 = events w ∧ calls w1 = calls w ∧
    if (changed : bool) then
      renderAsync fuel w = tryCatch (render' fuel true) (onError true) w1 ∧
      match renderAsync fuel w with
      | Done _ w' | Raise _ w' =>
          ∃ evs, events w' = events w ++ evs ∧ Forall asyncEvent evs
      | Timeout => True
      end
    else renderAsync fuel w = Done tt w1.
Proof.
  destruct (Memory_applyStateChanges_Done w) as (b & st & Happ).
  exists b, (setStore st w). repeat split; [done|].
  assert (Heq : renderAsync fuel w =
    if b then tryCatch (render' fuel true) (onError true) (setStore st w)
    else Done tt (setStore st w)).
  { rewrite renderAsync_eq. unfold tryCatch at 1, bind at 1. rewrite Happ.
    by destruct b. }
  destruct b; [|done]. split; [done|]. rewrite Heq. unfold tryCatch.
  pose proof (renderLoop_spec fuel true None (setStore st w)) as Hs.
  rewrite <-render'_eq in Hs.
  destruct (render' fuel true (setStore st w)) as [[] w1|e w1|]; [| |done];
    destruct Hs as (evs & h & He & _ & _ & Hend);
    apply LoopEnd_values in Hend; simpl in He.
  - exists evs. split; [done|].
    eapply Forall_impl; [done|]. by intros ? (? & ? & ->).
  - assert (Hevs : Forall asyncEvent evs).
    { eapply Forall_impl; [done|]. by intros ? (? & ? & ->). }
    pose proof (onError_events true e w1) as Ho.
    destruct (onError true e w1) as [[] w2|e2 w2|]; [| |done].
    + destruct Ho as [_ Ho]. exists (evs ++ [HostErrorEvent e true]).
      split; [by rewrite Ho, He, app_assoc|].
      rewrite Forall_app, Forall_singleton. by split.
    + destruct Ho as [_ [Ho|Ho]].
      * exists evs. split; [congruence|done].
      * exists (evs ++ [HostErrorEvent e true]).
        split; [by rewrite Ho, He, app_assoc|].
        rewrite Forall_app, Forall_singleton. by split.
Qed.

(** A re-render that finds no update pending does nothing at all. *)
Lemma renderAsync_idle fuel (w : World) :
  drained w → renderAsync fuel w = Done tt w.
Proof.
  intros Hd. rewrite renderAsync_eq. unfold tryCatch, bind at 1.
  by rewrite (Memory_applyStateChanges_drained w Hd).
Qed.

(** When [#renderAsync] returns, the updates left pending are those the
    listener queued while it handled the last event, if it was handed one
    at all. *)
Lemma renderAsync_pending fuel (w w1 : World) :
  renderAsync fuel w = Done tt w1 →
  ∃ w0, drained w0 ∧ (w1 = w0 ∨ ∃ ev, w1 = heard ev w0).
Proof.
  rewrite renderAsync_eq. unfold tryCatch, bind at 1.
  destruct (Memory_applyStateChanges w) as [b w0|?|] eqn:Happ; [|done..].
  pose proof (Memory_applyStateChanges_drains _ _ _ Happ) as Hd.
  destruct b; [|intros [= <-]; eauto].
  pose proof (renderLoop_settled fuel true None w0 (or_introl eq_refl)) as Hs.
  rewrite <-render'_eq in Hs.
  destruct (render' fuel true w0) as [[] w2|e w2|]; [| |done].
  - intros [= <-]. destruct Hs as (_ & w3 & ev & Hd3 & ->). eauto.
  - rewrite onError_eq. unfold bind at 1.
    destruct (Memory_reset notActive true w2) as [[] w3|?|] eqn:Hreset;
      [|done..].
    apply Memory_reset_hard_empty in Hreset. rewrite emit_eq.
    destruct (thrown (listener _)); [done|]. intros [= <-].
    exists w3. split; [|eauto].
    intros i l c. rewrite Hreset. simpl. by rewrite lookup_nil.
Qed.

(** *** Render calls on a host whose agent uses no state *)

Lemma invokeAgent_keepsStateless :
  (∀ a, stateless (agent a)) → always keepsStateless invokeAgent.
Proof.
  intros Hs. rewrite invokeAgent_eq.
  apply always_tryFinally; [tc_solve| |].
  - always_step; [always_step; by apply keepsStateless_same|].
    always_step; [always_step|]. always_step; [|always_step].
    always_step; [always_step; by apply keepsStateless_same|].
    always_step; [by apply runAgent_keepsStateless|].
    always_step; [always_step; by apply keepsStateless_same|always_step].
  - always_step. by apply keepsStateless_same.
Qed.

(** With no state cell in the memory, the loops of [#render] make one pass:
    the run cannot exhaust one unit of fuel, and when it returns it has
    delivered exactly the final event. *)
Lemma renderLoop_stateless fuel async (w : World) :
  (∀ a, stateless (agent a)) → noStateCells w →
  match renderLoop (S fuel) async None w with
  | Done _ w' =>
      noStateCells w' ∧
      ∃ v, events w' = events w ++ [HostValueEvent v async false]
  | Raise _ w' => noStateCells w'
  | Timeout => False
  end.
Proof.
  intros Hs Hw. rewrite renderLoop_S. unfold bind at 1, ret at 1.
  unfold bind at 1.
  pose proof (invokeAgent_spec w) as Hinv.
  pose proof (invokeAgent_keepsStateless Hs w) as Hk.
  destruct (invokeAgent w) as [v w2|e w2|]; [|by apply Hk|done].
  destruct Hinv as (_ & He & _). specialize (Hk Hw).
  unfold bind at 1. rewrite Memory_reset_soft. unfold bind at 1.
  assert (Hk2 : noStateCells (setPointer 0 w2)) by done.
  rewrite (Memory_applyStateChanges_drained _ (noStateCells_drained _ Hk2)).
  unfold bind at 1.
  pose proof (Memory_triggerEffects_internal notActive (setPointer 0 w2)) as Hi.
  pose proof (Memory_triggerEffects_keepsStateless notActive (setPointer 0 w2))
    as Hk5.
  destruct (Memory_triggerEffects notActive _) as [[] w5|e w5|];
    [|by apply Hk5|done].
  destruct Hi as (_ & _ & _ & He5 & _). specialize (Hk5 Hk2). simpl in He5.
  unfold bind at 1.
  rewrite (Memory_applyStateChanges_drained _ (noStateCells_drained _ Hk5)).
  rewrite emit_eq. unfold noStateCells.
  destruct (thrown (listener _)); rewrite heard_memory; [done|].
  split; [done|]. exists v. rewrite heard_events. congruence.
Qed.

(** A caller making render calls one after the other. *)
Fixpoint renderAll (fuel : nat) (argss : list (list V)) : M unit :=
  match argss with
  | [] => ret tt
  | a :: rest => let* _ := render fuel a in renderAll fuel rest
  end.

(** In none of the calls does the render procedure throw: neither the
    agent, nor an effect or a clean-up, nor the listener. *)
Fixpoint noThrow (fuel : nat) (argss : list (list V)) (w : World) : Prop :=
  match argss with
  | [] => True
  | a :: rest =>
      match render' fuel false (setArgs a w) with
      | Done _ w1 => noThrow fuel rest w1
      | Raise _ _ => False
      | Timeout => True
      end
  end.

(** C7.  On a host whose agent never calls [useState], a sequence of render
    calls in which nothing throws returns (one unit of fuel per call is
    enough) and delivers exactly one event per call, each a value event
    with [async] false and [intermediate] false. *)
Theorem stateless_one_event_per_render fuel argss (w : World) :
  (∀ a, stateless (agent a)) → noStateCells w →
  noThrow (S fuel) argss w →
  ∃ w' vs,
    renderAll (S fuel) argss w = Done tt w' ∧
    length vs = length argss ∧
    events w' = events w ++ map (λ v, HostValueEvent v false false) vs.
Proof.
  intros Hs. revert w. induction argss as [|a rest IH]; intros w Hw Hn.
  { exists w, []. by rewrite app_nil_r. }
  simpl in Hn. simpl renderAll. unfold bind at 1.
  rewrite render_eq. unfold bind at 1, modify at 1, tryCatch.
  pose proof (renderLoop_stateless fuel false (setArgs a w) Hs Hw) as Hl.
  rewrite <-render'_eq in Hl.
  destruct (render' (S fuel) false (setArgs a w)) as [[] w1|e w1|];
    [|done..].
  destruct Hl as (Hw1 & v & He).
  destruct (IH w1 Hw1 Hn) as (w' & vs & Hr & Hlen & He').
  exists w', (v :: vs). split; [done|]. split; [simpl; by rewrite Hlen|].
  rewrite He', He. simpl. by rewrite <-app_assoc.
Qed.

End Render.

(** ** The laws of the hooks *)

Section HookLaws.

Context {V : Type} `{!EqDecision V}.
Context {E : Type}.

Local Abbreviation World := (World V E).
Local Abbreviation M := (M V E).

Variable depsEqual : option (list V) → option (list V) → bool.
Variable this : HostId.
Variable detached : World → bool.

(** What a setter does: the update joins the queue of the cell the setter
    belongs to, and a re-render is scheduled when the test says so. *)
Lemma setState_spec l u (w : World) :
  setState detached l u w =
  Done tt
    (let w1 := setStore (alter (λ c, mkState (state c) (stateChanges c ++ [u]))
                           l (store w)) w in
     if detached w1 then schedule w1 else w1).
Proof.
  unfold setState, bind, modify, gets. simpl. by destruct (detached _).
Qed.

Definition sameCalls (w w' : World) : Prop := calls w' = calls w.

Global Instance sameCalls_preorder : PreOrder sameCalls.
Proof. split; [done|]. intros w1 w2 w3 H1 H2. unfold sameCalls in *. congruence. Qed.

Lemma runCallback_sameCalls {R} (c : Callback V R) :
  always sameCalls (runCallback detached c).
Proof.
  induction c as [r|e|l u k IH]; simpl; always_auto.
  intros w. by rewrite setState_spec; simpl; destruct (detached _).
Qed.

(** A call into a callback adds exactly its own entry to the history. *)
Lemma invoke_calls {R} what (c : Callback V R) (w : World) :
  match invoke detached what c w with
  | Done _ w' | Raise _ w' => calls w' = calls w ++ [what]
  | Timeout => False
  end.
Proof.
  unfold invoke, bind, modify.
  pose proof (runCallback_sameCalls c (record what w)) as Hc.
  by destruct (runCallback _ _ _).
Qed.

Lemma getActiveHost_active (w : World) :
  activeHost w = Some this → getActiveHost this w = Done tt w.
Proof.
  intros Ha. unfold getActiveHost, bind, gets. rewrite Ha.
  by rewrite decide_True.
Qed.

(** C6.  [useMemo] at a slot that holds a memo cell whose stored list is
    equal, by the comparator, to the list supplied returns the stored value
    and only moves the cursor: the producer is not invoked.  At a slot not
    yet written, and at a memo cell whose stored list differs, the producer
    is invoked exactly once, and its value is stored with the new list and
    returned. *)
Theorem useMemo_stability createValue deps (w : World) :
  activeHost w = Some this →
  let p := pointer (memory w) in
  let produce : M V :=
    (let* v := invoke detached (CallCreateValue p) createValue in
     let* _ := Memory_write (MMemo (mkMemo v deps)) in
     let* _ := Memory_movePointer in
     ret v) in
  let invokedOnce :=
    match useMemo depsEqual this detached createValue deps w with
    | Done _ w' | Raise _ w' => calls w' = calls w ++ [CallCreateValue p]
    | Timeout => False
    end in
  match memoryCells (memory w) !! p with
  | Some (MMemo c) =>
      if depsEqual (Some (memoDependencies c)) (Some deps)
      then useMemo depsEqual this detached createValue deps w
           = Done (value c) (setPointer (S p) w)
      else useMemo depsEqual this detached createValue deps w = produce w
           ∧ invokedOnce
  | None =>
      useMemo depsEqual this detached createValue deps w = produce w
      ∧ invokedOnce
  | Some _ => True
  end.
Proof.
  intros Ha p produce invokedOnce.
  assert (Hp : ∀ w0 : World,
            match produce w0 with
            | Done _ w' | Raise _ w' =>
                calls w' = calls w0 ++ [CallCreateValue p]
            | Timeout => False
            end).
  { intros w0. unfold produce, bind at 1.
    pose proof (invoke_calls (CallCreateValue p) createValue w0) as Hc.
    destruct (invoke _ _ _ _) as [v w1|e w1|]; [|done..].
    unfold bind, Memory_write, Memory_movePointer, modify, ret. simpl.
    by case_decide. }
  assert (Heq :
    useMemo depsEqual this detached createValue deps w =
    match memoryCells (memory w) !! p with
    | Some (MMemo c) =>
        if depsEqual (Some (memoDependencies c)) (Some deps)
        then Done (value c) (setPointer (S p) w)
        else produce w
    | None => produce w
    | Some _ => Raise CellMismatch w
    end).
  { unfold useMemo. unfold bind at 1.
    rewrite (getActiveHost_active w Ha).
    unfold bind at 1, Memory_read, bind at 1, gets at 1. fold p.
    destruct (memoryCells (memory w) !! p) as [[l|e|c]|] eqn:Hcell; simpl;
      try done.
    - unfold bind at 1, gets at 1. simpl.
      destruct (depsEqual _ _); simpl; [done|].
      unfold produce, bind. by destruct (invoke _ _ _ _).
    - unfold bind at 1, gets at 1.
      unfold produce, bind. by destruct (invoke _ _ _ _). }
  subst invokedOnce. rewrite Heq.
  destruct (memoryCells (memory w) !! p) as [[l|e|c]|]; try done;
    [|split; [done|apply Hp]].
  destruct (depsEqual _ _); [done|]. split; [done|apply Hp].
Qed.

(** [useEffect] at a slot that holds an effect cell: the cell is marked
    outdated, and takes the effect and the list supplied, when the
    comparator finds the lists unequal or the cell is still marked; else it
    is left as it is.  The cursor moves by one in both cases. *)
Lemma useEffect_marks eff deps (w : World) c :
  activeHost w = Some this →
  memoryCells (memory w) !! pointer (memory w) = Some (MEffect c) →
  useEffect depsEqual this eff deps w =
  Done tt
    (setPointer (S (pointer (memory w)))
       (if negb (depsEqual (dependencies c) deps) || outdated c
        then setCells (<[pointer (memory w) :=
                         MEffect (mkEffect true eff deps (dispose c))]>
                        (memoryCells (memory w))) w
        else w)).
Proof.
  intros Ha Hc. unfold useEffect. unfold bind at 1.
  rewrite (getActiveHost_active w Ha).
  unfold bind at 1, Memory_read, bind at 1, gets at 1. rewrite Hc. simpl.
  unfold bind at 1.
  destruct (negb _ || _); simpl; [|done].
  unfold Memory_write, modify, Memory_movePointer. simpl.
  rewrite decide_True; [done|]. by eapply lookup_lt_Some.
Qed.

(** *** Which effects run *)

(** The slots whose effect a history shows invoked, in order. *)
Definition effectCalls (h : list (Call V)) : list nat :=
  omap (λ c, match c with CallEffect i => Some i | _ => None end) h.

(** The slots, from [i] on, of the effect cells marked outdated. *)
Fixpoint outdatedSlots (i : nat) (cells : list (MemoryCell V)) : list nat :=
  match cells with
  | [] => []
  | c :: rest =>
      match c with
      | MEffect e => if outdated e then [i] else []
      | _ => []
      end ++ outdatedSlots (S i) rest
  end.

Lemma elem_of_outdatedSlots i cells j :
  j ∈ outdatedSlots i cells ↔
  ∃ k e, j = i + k ∧ cells !! k = Some (MEffect e) ∧ outdated e = true.
Proof.
  revert i. induction cells as [|c cells IH]; intros i; simpl.
  { split; [by intros ?%elem_of_nil|]. intros (k & e & _ & Hk & _).
    by rewrite lookup_nil in Hk. }
  rewrite elem_of_app, IH. split.
  - intros [Hj|(k & e & -> & Hk & He)].
    + destruct c as [|e|]; try by apply elem_of_nil in Hj.
      destruct (outdated e) eqn:He; [|by apply elem_of_nil in Hj].
      apply list_elem_of_singleton in Hj as ->. exists 0, e.
      split; [lia|done].
    + exists (S k), e. split; [lia|done].
  - intros (k & e & -> & Hk & He). destruct k as [|k]; simpl in Hk.
    + injection Hk as ->. left. rewrite He, Nat.add_0_r.
      by apply list_elem_of_singleton.
    + right. exists k, e. split; [lia|done].
Qed.

(** When [triggerEffects] returns, the effects it has invoked are exactly
    those of the cells that were marked outdated, in ascending slot
    order. *)
Lemma triggerFrom_effects cells i (w w' : World) :
  triggerFrom detached i cells w = Done tt w' →
  ∃ h, calls w' = calls w ++ h ∧ effectCalls h = outdatedSlots i cells.
Proof.
  revert i w. induction cells as [|c cells IH]; intros i w; simpl.
  { intros [= <-]. exists []. by rewrite app_nil_r. }
  unfold bind at 1.
  destruct c as [l|e|m]; simpl.
  1,3: intros Hr; destruct (IH _ _ Hr) as (h & Hc & Hh); by exists h.
  destruct (outdated e); simpl;
    [|intros Hr; destruct (IH _ _ Hr) as (h & Hc & Hh); by exists h].
  unfold bind at 1.
  destruct (match dispose e with
            | Some d => invoke detached (CallDispose i) d
            | None => ret tt
            end w) as [[] w1|?|] eqn:Hd; [|done..].
  assert (Hc1 : ∃ hd, calls w1 = calls w ++ hd ∧ effectCalls hd = []).
  { destruct (dispose e) as [d|].
    - pose proof (invoke_calls (CallDispose i) d w) as Hi.
      rewrite Hd in Hi. by exists [CallDispose i].
    - injection Hd as <-. exists []. by rewrite app_nil_r. }
  destruct Hc1 as (hd & Hc1 & Hhd).
  unfold bind at 1.
  pose proof (invoke_calls (CallEffect i) (effect e) w1) as Hi.
  destruct (invoke detached (CallEffect i) (effect e) w1) as [d' w2|?|];
    [|done..].
  unfold modify at 1. intros Hr.
  destruct (IH _ _ Hr) as (h & Hc & Hh). simpl in Hc.
  exists (hd ++ [CallEffect i] ++ h). split.
  - rewrite Hc, Hi, Hc1. app_norm.
  - unfold effectCalls in *. rewrite !omap_app, Hhd, Hh. done.
Qed.

Lemma Memory_triggerEffects_effects (w w' : World) :
  Memory_triggerEffects detached w = Done tt w' →
  ∃ h, calls w' = calls w ++ h ∧
       ∀ i, i ∈ effectCalls h ↔
            ∃ e, memoryCells (memory w) !! i = Some (MEffect e) ∧
                 outdated e = true.
Proof.
  unfold Memory_triggerEffects, bind, gets. intros Hr.
  destruct (triggerFrom_effects _ _ _ _ Hr) as (h & Hc & Hh).
  exists h. split; [done|]. intros i. rewrite Hh, elem_of_outdatedSlots.
  split; [intros (k & e & -> & ?); eauto|intros (e & ?); exists i, e; eauto].
Qed.

End HookLaws.

(** ** The render procedure of the older variant *)

Section HookRender.

Context {V : Type} `{!EqDecision V}.

Local Abbreviation World := (World V (Hook.HostEvent V)).
Local Abbreviation M := (M V (Hook.HostEvent V)).

Variable depsEqual : option (list V) → option (list V) → bool.
Variable this : HostId.
Variable hook : list V → Agent V.
Variable eventListener : Hook.HostEvent V → Callback V unit.

Lemma Hook_emit_eq ev (w : World) :
  Hook.emit eventListener ev w
  = match thrown (eventListener ev) with
    | None => Done tt (Hook.heard eventListener ev w)
    | Some x => Raise (Thrown x) (Hook.heard eventListener ev w)
    end.
Proof. unfold Hook.emit, bind, modify. by rewrite runCallback_unit. Qed.

Lemma Hook_heard_same ev (w : World) :
  activeHost (Hook.heard eventListener ev w) = activeHost w ∧
  rendering (Hook.heard eventListener ev w) = rendering w ∧
  args (Hook.heard eventListener ev w) = args w ∧
  events (Hook.heard eventListener ev w) = events w ++ [ev] ∧
  calls (Hook.heard eventListener ev w) = calls w ∧
  memory (Hook.heard eventListener ev w) = memory w.
Proof.
  apply (afterSetters_same Hook.notRendering (eventListener ev) (deliver ev w)).
Qed.

Lemma Hook_renderLoop_S fuel results :
  Hook.renderLoop depsEqual this hook eventListener (S fuel) results =
  (let* result := Hook.invokeHook depsEqual this hook in
   let* _ := Memory_reset Hook.notRendering false in
   let* changed := Memory_applyStateChanges in
   if (changed : bool)
   then Hook.renderLoop depsEqual this hook eventListener fuel
          (result :: results)
   else
     let* _ := Memory_triggerEffects Hook.notRendering in
     let* changed := Memory_applyStateChanges in
     if (changed : bool)
     then Hook.renderLoop depsEqual this hook eventListener fuel
            (result :: results)
     else Hook.emit eventListener (Hook.HostRenderingEvent result results)).
Proof. done. Qed.

Lemma Hook_invokeHook_returns (w w' : World) v :
  Hook.invokeHook depsEqual this hook w = Done v w' →
  events w' = events w ∧
  ∃ a h, Forall quietCall h ∧
         calls w' = calls w ++ CallAgent a :: h ++ [AgentReturned v].
Proof.
  unfold Hook.invokeHook, tryFinally, bind, modify, gets. simpl.
  destruct (args w) as [a|] eqn:Ha; simpl; [|done].
  pose proof (runAgent_internal depsEqual this Hook.notRendering (hook a)
    (record (CallAgent a) (setActiveHost (Some this) w))) as Hr.
  destruct (runAgent _ _ _ _ _) as [v' w1|e w1|]; [|done..].
  destruct Hr as (_ & _ & _ & He & h & Hc & Hh). simpl in *.
  intros [= -> <-]. simpl. split; [done|].
  exists a, h. split; [done|]. rewrite Hc. app_norm.
Qed.

(** When the loops of the older [#render] return, one event has been
    delivered: its result is the value of the last pass and its interim
    results are the values of the earlier passes, most recent first. *)
Lemma Hook_renderLoop_returns fuel results (w w' : World) :
  Hook.renderLoop depsEqual this hook eventListener fuel results w
    = Done tt w' →
  ∃ h vs v,
    calls w' = calls w ++ h ∧ agentReturns h = vs ++ [v] ∧
    events w' = events w ++ [Hook.HostRenderingEvent v (rev vs ++ results)].
Proof.
  revert results w. induction fuel as [|fuel IH]; intros results w; [done|].
  rewrite Hook_renderLoop_S. unfold bind at 1.
  destruct (Hook.invokeHook depsEqual this hook w) as [v w2|?|] eqn:Hinv;
    [|done..].
  apply Hook_invokeHook_returns in Hinv as (He2 & a & h2 & Hq2 & Hc2).
  unfold bind at 1. simpl Memory_reset. unfold modify at 1. unfold bind at 1.
  destruct (Memory_applyStateChanges_Done (setPointer 0 w2)) as (b & st & ->).
  assert (Hcont : ∀ w4 hq,
            events w4 = events w → Forall quietCall hq →
            calls w4 = calls w ++ CallAgent a :: (h2 ++ [AgentReturned v]) ++ hq →
            Hook.renderLoop depsEqual this hook eventListener fuel
              (v :: results) w4 = Done tt w' →
            ∃ h vs v0,
              calls w' = calls w ++ h ∧ agentReturns h = vs ++ [v0] ∧
              events w' = events w
                ++ [Hook.HostRenderingEvent v0 (rev vs ++ results)]).
  { intros w4 hq He4 Hq Hc4 Hloop.
    destruct (IH _ _ Hloop) as (h & vs & v0 & Hc & Hr & He).
    exists (CallAgent a :: ((h2 ++ [AgentReturned v]) ++ hq) ++ h), (v :: vs), v0.
    split; [rewrite Hc, Hc4; app_norm|]. split.
    - rewrite (agentReturns_pass a _ h [v]); [by rewrite Hr|].
      by rewrite !agentReturns_app, (agentReturns_quiet h2 Hq2),
        (agentReturns_quiet hq Hq).
    - rewrite He, He4. simpl. by rewrite <-app_assoc. }
  destruct b.
  { apply (Hcont _ []); [simpl; congruence|done|].
    simpl. rewrite Hc2. app_norm. }
  unfold bind at 1.
  pose proof (Memory_triggerEffects_internal Hook.notRendering
                (setStore st (setPointer 0 w2))) as Htr.
  destruct (Memory_triggerEffects _ _) as [[] w5|?|]; [|done..].
  destruct Htr as (_ & _ & _ & He5 & h5 & Hc5 & Hq5). simpl in He5, Hc5.
  unfold bind at 1.
  destruct (Memory_applyStateChanges_Done w5) as (b & st' & ->).
  destruct b.
  { apply (Hcont _ h5); [simpl; congruence|done|].
    simpl. rewrite Hc5, Hc2. app_norm. }
  rewrite Hook_emit_eq. destruct (thrown (eventListener _)); [done|].
  intros [= <-].
  destruct (Hook_heard_same (Hook.HostRenderingEvent v results)
              (setStore st' w5)) as (_ & _ & _ & -> & -> & _).
  simpl.
  exists (CallAgent a :: (h2 ++ [AgentReturned v]) ++ h5), [], v.
  split; [rewrite Hc5, Hc2; app_norm|]. split.
  - rewrite (agentReturns_pass a _ h5 [v]);
      [by rewrite (agentReturns_quiet h5 Hq5)|].
    by rewrite agentReturns_app, (agentReturns_quiet h2 Hq2).
  - simpl. by rewrite He5, He2.
Qed.

Lemma Hook_render'_returns fuel (w w' : World) :
  Hook.render' depsEqual this hook eventListener fuel w = Done tt w' →
  ∃ h vs v,
    calls w' = calls w ++ h ∧ agentReturns h = vs ++ [v] ∧
    events w' = events w ++ [Hook.HostRenderingEvent v (rev vs)].
Proof.
  unfold Hook.render', tryFinally, bind at 1, modify at 1.
  destruct (Hook.renderLoop _ _ _ _ _ _ _) as [[] w1|?|] eqn:Hloop; [|done..].
  apply Hook_renderLoop_returns in Hloop as (h & vs & v & Hc & Hr & He).
  intros [= <-]. exists h, vs, v. simpl in *. by rewrite app_nil_r in He.
Qed.

End HookRender.

(** ** The dependency comparator and the effect re-run law *)

Section EffectLaw.

Context {V : Type} `{!EqDecision V}.
Context {E : Type}.

Local Abbreviation World := (World V E).

Variable this : HostId.
Variable detached : World → bool.

Lemma pairwiseEqual_true (p n : list V) : pairwiseEqual p n = true ↔ p = n.
Proof.
  revert n. induction p as [|x p IH]; intros [|y n]; simpl; try done.
  rewrite andb_true_iff, bool_decide_eq_true, IH. split.
  - by intros [-> ->].
  - by intros [= -> ->].
Qed.

(** The comparator answers true exactly when both lists are present and
    equal element by element. *)
Lemma areDependenciesEqual_true (previous next : option (list V)) :
  areDependenciesEqual previous next = true ↔
  ∃ l, previous = Some l ∧ next = Some l.
Proof.
  destruct previous as [p|], next as [n|]; simpl;
    try (split; [done|by intros (? & ? & ?)]).
  rewrite andb_true_iff, bool_decide_eq_true, pairwiseEqual_true. split.
  - intros [_ ->]. eauto.
  - intros (l & [= ->] & [= ->]). done.
Qed.

(** C5 (amended).  At a slot that holds an effect cell, [useEffect] marks
    the cell outdated, and stores the effect and the list supplied, if and
    only if the list supplied is undefined, or no list was stored, or the
    two lists differ, or the cell is still marked outdated (its effect has
    not run since it was marked); otherwise the cell is left untouched.
    When the effects are then triggered, the effects invoked are exactly
    those of the cells marked outdated. *)
Theorem useEffect_rerun_law eff deps (w : World) c :
  activeHost w = Some this →
  memoryCells (memory w) !! pointer (memory w) = Some (MEffect c) →
  let p := pointer (memory w) in
  let marked := deps = None ∨ dependencies c = None ∨
                dependencies c ≠ deps ∨ outdated c = true in
  (marked →
   useEffect areDependenciesEqual this eff deps w =
   Done tt (setPointer (S p)
              (setCells (<[p := MEffect (mkEffect true eff deps (dispose c))]>
                           (memoryCells (memory w))) w))) ∧
  (¬ marked →
   useEffect areDependenciesEqual this eff deps w =
   Done tt (setPointer (S p) w)) ∧
  (∀ w2 w3 : World,
     Memory_triggerEffects detached w2 = Done tt w3 →
     ∃ h, calls w3 = calls w2 ++ h ∧
          ∀ i, i ∈ effectCalls h ↔
               ∃ e, memoryCells (memory w2) !! i = Some (MEffect e) ∧
                    outdated e = true).
Proof.
  intros Ha Hc p marked.
  assert (Hm : negb (areDependenciesEqual (dependencies c) deps) || outdated c
               = true ↔ marked).
  { rewrite orb_true_iff, negb_true_iff, <-not_true_iff_false,
      areDependenciesEqual_true. unfold marked. split.
    - intros [Hne|Ho]; [|by auto].
      destruct deps as [d|]; [|by auto].
      destruct (dependencies c) as [d'|]; [|by auto].
      right. right. left. intros [= ->]. apply Hne. eauto.
    - intros [->|[Hn|[Hne|Ho]]]; [left|left|left|by right].
      + by intros (? & ? & ?).
      + rewrite Hn. by intros (? & ? & ?).
      + intros (l & H1 & H2). congruence. }
  rewrite (useEffect_marks areDependenciesEqual this eff deps w c Ha Hc).
  fold p. repeat split.
  - intros Hmk. apply Hm in Hmk. by rewrite Hmk.
  - intros Hmk. rewrite <-Hm in Hmk. apply not_true_is_false in Hmk.
    by rewrite Hmk.
  - apply Memory_triggerEffects_effects.
Qed.

End EffectLaw.

(** ** Setters called by a callback *)

Section SetterCalls.

Context {V : Type} `{!EqDecision V}.

(** The updates a callback hands to the setter [l], in the order of the
    calls, and the number of setter calls it makes before it ends. *)
Fixpoint updatesTo {R} (l : Loc) (c : Callback V R) : list (Update V) :=
  match c with
  | CbSetState l' u k =>
      if decide (l' = l) then u :: updatesTo l k else updatesTo l k
  | _ => []
  end.

Fixpoint setterCalls {R} (c : Callback V R) : nat :=
  match c with
  | CbSetState _ _ k => S (setterCalls k)
  | _ => 0
  end.

(** The store after the setter calls of [c]: every cell keeps its state and
    has its queue extended by the updates [c] handed to its setter. *)
Definition queued {R} (c : Callback V R) (st : list (StateMemoryCell V))
    : list (StateMemoryCell V) :=
  imap (λ l sc, mkState (state sc) (stateChanges sc ++ updatesTo l c)) st.

Lemma queued_no_calls {R} (c : Callback V R) st :
  (∀ l, updatesTo l c = []) → queued c st = st.
Proof.
  intros Hc. apply list_eq. intros i. unfold queued.
  rewrite list_lookup_imap. destruct (st !! i) as [[s q]|]; [|done].
  simpl. by rewrite Hc, app_nil_r.
Qed.

Lemma queued_alter {R} l u (k : Callback V R) st :
  queued k (alter (λ c, mkState (state c) (stateChanges c ++ [u])) l st)
  = queued (CbSetState l u k) st.
Proof.
  apply list_eq. intros i. unfold queued.
  rewrite !list_lookup_imap, list_lookup_alter. simpl.
  repeat case_decide; subst; try done;
    destruct (st !! i) as [[s q]|]; simpl; try done.
  by rewrite <-app_assoc.
Qed.

Section Generic.

Context {E : Type}.

Local Abbreviation World := (World V E).

Variable detached : World → bool.

Hypothesis detached_stable : ∀ w w' : World,
  activeHost w' = activeHost w → rendering w' = rendering w →
  detached w' = detached w.

Lemma runCallback_queues {R} (c : Callback V R) (w : World) :
  match runCallback detached c w with
  | Done _ w' | Raise _ w' =>
      store w' = queued c (store w) ∧
      microtasks w' = microtasks w + (if detached w then setterCalls c else 0) ∧
      memory w' = memory w ∧ activeHost w' = activeHost w ∧
      rendering w' = rendering w ∧ events w' = events w ∧
      calls w' = calls w ∧ args w' = args w
  | Timeout => False
  end.
Proof.
  revert w. induction c as [r|e|l u k IH]; intros w; simpl.
  - rewrite queued_no_calls by done. repeat split; try done.
    destruct (detached w); lia.
  - rewrite queued_no_calls by done. repeat split; try done.
    destruct (detached w); lia.
  - unfold bind. rewrite setState_spec. simpl.
    match goal with |- context [runCallback _ _ ?w1] =>
      pose proof (IH w1) as Hk;
      assert (Hd : detached w1 = detached w)
        by (destruct (detached _); by apply detached_stable);
      assert (Hs : store w1 = alter (λ c, mkState (state c)
                     (stateChanges c ++ [u])) l (store w))
        by (by destruct (detached _));
      assert (Hmt : microtasks w1 = microtasks w
                    + (if detached w then 1 else 0))
        by (rewrite <-(detached_stable w (setStore (alter (λ c, mkState (state c)
               (stateChanges c ++ [u])) l (store w)) w)) by done;
            destruct (detached _); simpl; lia);
      assert (Hrest : memory w1 = memory w ∧ activeHost w1 = activeHost w ∧
                rendering w1 = rendering w ∧ events w1 = events w ∧
                calls w1 = calls w ∧ args w1 = args w)
        by (by destruct (detached _));
      destruct (runCallback detached k w1) as [r w'|e w'|]; [| |done]
    end;
    destruct Hk as (Hst & Hm & Hmem & Ha & Hr & He & Hc & Hg);
    destruct Hrest as (Hmem1 & Ha1 & Hr1 & He1 & Hc1 & Hg1);
    rewrite Hst, Hs, queued_alter, Hm, Hmt, Hd;
    (repeat split; try congruence); destruct (detached w); lia.
Qed.

Lemma runCallback_world {R} (c : Callback V R) (w : World) :
  match runCallback detached c w with
  | Done _ w' | Raise _ w' => w' = afterSetters detached c w
  | Timeout => False
  end.
Proof.
  revert w. induction c as [r|e|l u k IH]; intros w; simpl; [done..|].
  unfold bind. rewrite setState_spec. apply IH.
Qed.

Lemma afterSetters_queued {R} (c : Callback V R) (w : World) :
  store (afterSetters detached c w) = queued c (store w).
Proof.
  pose proof (runCallback_queues c w) as Hq.
  pose proof (runCallback_world c w) as Hw.
  destruct (runCallback detached c w); [| |done]; subst; by destruct Hq.
Qed.

End Generic.

Variable this : HostId.

Lemma notActive_stable (w w' : World V (HostEvent V)) :
  activeHost w' = activeHost w → rendering w' = rendering w →
  notActive this w' = notActive this w.
Proof. intros Ha _. unfold notActive. by rewrite Ha. Qed.

(** A listener that calls no setter leaves nothing but the event. *)
Lemma heard_no_setters (listener : HostEvent V → Callback V unit) ev
    (w : World V (HostEvent V)) :
  setterCalls (listener ev) = 0 → heard this listener ev w = deliver ev w.
Proof. unfold heard. by destruct (listener ev). Qed.

Lemma notRendering_stable (w w' : World V (Hook.HostEvent V)) :
  activeHost w' = activeHost w → rendering w' = rendering w →
  Hook.notRendering w' = Hook.notRendering w.
Proof. intros _ Hr. unfold Hook.notRendering. by rewrite Hr. Qed.

(** X7.  Whatever a callback of user code does (an effect, a clean-up, an
    initialiser or a producer), when it ends, by returning or by throwing,
    every update it handed to a setter has joined the queue of that
    setter's cell, after the updates already there and in the order of the
    calls, and no state has changed yet.  In [index.ts] every one of these
    calls has scheduled a re-render of its own unless the host is active; in
    the older variant unless the [rendering] flag is set.  Nothing else is
    touched. *)
Theorem callback_setters_queue {R} (c : Callback V R)
    (w : World V (HostEvent V)) (wh : World V (Hook.HostEvent V)) :
  match runCallback (notActive this) c w with
  | Done _ w' | Raise _ w' =>
      store w' = queued c (store w) ∧
      microtasks w' = microtasks w + (if decide (activeHost w = Some this)
                                      then 0 else setterCalls c) ∧
      memory w' = memory w ∧ activeHost w' = activeHost w ∧
      rendering w' = rendering w ∧
      events w' = events w ∧ calls w' = calls w ∧ args w' = args w
  | Timeout => False
  end ∧
  match runCallback Hook.notRendering c wh with
  | Done _ w' | Raise _ w' =>
      store w' = queued c (store wh) ∧
      microtasks w' = microtasks wh + (if rendering wh
                                       then 0 else setterCalls c) ∧
      memory w' = memory wh ∧ activeHost w' = activeHost wh ∧
      rendering w' = rendering wh ∧
      events w' = events wh ∧ calls w' = calls wh ∧ args w' = args wh
  | Timeout => False
  end.
Proof.
  split.
  - pose proof (runCallback_queues (notActive this) notActive_stable c w)
      as Hq.
    destruct (runCallback _ c w); [| |done];
      destruct Hq as (? & Hm & ? & ? & ? & ? & ? & ?);
      (repeat split; try done); rewrite Hm; unfold notActive;
      case_decide;
      [by rewrite bool_decide_eq_false_2 by (by intros ?)
      |by rewrite bool_decide_eq_true_2
      |by rewrite bool_decide_eq_false_2 by (by intros ?)
      |by rewrite bool_decide_eq_true_2].
  - pose proof (runCallback_queues Hook.notRendering notRendering_stable c wh)
      as Hq.
    destruct (runCallback _ c wh); [| |done];
      destruct Hq as (? & Hm & ? & ? & ? & ? & ? & ?);
      (repeat split; try done); rewrite Hm; unfold Hook.notRendering;
      by destruct (rendering wh).
Qed.

End SetterCalls.

(** ** Setters and the scheduling of re-renders *)

Section Setters.

Context {V : Type} `{!EqDecision V}.

Variable depsEqual : option (list V) → option (list V) → bool.
Variable this : HostId.
Variable agent : list V → Agent V.
Variable listener : HostEvent V → Callback V unit.

(** A listener that queues nothing leaves a drained memory drained. *)
Lemma heard_drained ev (w0 : World V (HostEvent V)) :
  drained w0 → (∀ l, updatesTo l (listener ev) = []) →
  drained (heard this listener ev w0).
Proof.
  intros Hd Hno. unfold drained.
  rewrite (heard_memory this listener).
  replace (store (heard this listener ev w0)) with (store w0); [done|].
  unfold heard.
  rewrite (afterSetters_queued (notActive this) (notActive_stable this)).
  simpl. by rewrite queued_no_calls.
Qed.

(** C3 (amended).  Each call of a setter appends the value or updater to
    the queue of the setter's cell.  In [index.ts] it schedules an
    asynchronous re-render if and only if the owning host is not the active
    host at that moment, that is, whenever the call is not made from inside
    an invocation of the agent; in the older variant if and only if the
    [rendering] flag is not set.  Setter calls made before a scheduled
    re-render runs are coalesced into one re-render: a re-render that finds
    no update pending does nothing at all, and when a re-render returns the
    only updates left pending are those the listener itself queued while it
    handled the last event delivered; with a listener that calls no setter,
    a re-render that follows one that returned does nothing. *)
Theorem setState_queues_and_schedules l u fuel fuel'
    (w : World V (HostEvent V)) (wh : World V (Hook.HostEvent V)) :
  (∃ w', setState (notActive this) l u w = Done tt w' ∧
         store w' = alter (λ c, mkState (state c) (stateChanges c ++ [u]))
                      l (store w) ∧
         microtasks w' = (if decide (activeHost w = Some this)
                          then microtasks w else S (microtasks w)) ∧
         memory w' = memory w ∧ events w' = events w ∧
         activeHost w' = activeHost w) ∧
  (∃ w', setState Hook.notRendering l u wh = Done tt w' ∧
         store w' = alter (λ c, mkState (state c) (stateChanges c ++ [u]))
                      l (store wh) ∧
         microtasks w' = (if rendering wh
                          then microtasks wh else S (microtasks wh))) ∧
  (∀ w0 : World V (HostEvent V),
     drained w0 →
     renderAsync depsEqual this agent listener fuel' w0 = Done tt w0) ∧
  match renderAsync depsEqual this agent listener fuel w with
  | Done _ w1 =>
      ∃ w0 : World V (HostEvent V),
        drained w0 ∧ memory w1 = memory w0 ∧
        (store w1 = store w0 ∨
         ∃ ev, last (events w1) = Some ev ∧
               store w1 = queued (listener ev) (store w0))
  | _ => True
  end ∧
  ((∀ ev l, updatesTo l (listener ev) = []) →
   match renderAsync depsEqual this agent listener fuel w with
   | Done _ w1 =>
       renderAsync depsEqual this agent listener fuel' w1 = Done tt w1
   | _ => True
   end).
Proof.
  repeat split.
  - eexists. split; [apply setState_spec|]. simpl. unfold notActive. simpl.
    case_decide as Ha.
    + rewrite bool_decide_eq_false_2 by (by intros ?). done.
    + by rewrite bool_decide_eq_true_2.
  - eexists. split; [apply setState_spec|]. simpl.
    unfold Hook.notRendering. simpl. by destruct (rendering wh).
  - intros w0. apply renderAsync_idle.
  - destruct (renderAsync _ _ _ _ _ w) as [[] w1|?|] eqn:Hr; [|done..].
    apply renderAsync_pending in Hr as (w0 & Hd & [->|[ev ->]]).
    + exists w0. auto.
    + exists w0. split; [done|]. rewrite heard_memory. split; [done|].
      right. exists ev. rewrite heard_events, last_snoc. split; [done|].
      unfold heard.
      by rewrite (afterSetters_queued (notActive this) (notActive_stable this)).
  - intros Hno.
    destruct (renderAsync _ _ _ _ _ w) as [[] w1|?|] eqn:Hr; [|done..].
    apply renderAsync_pending in Hr as (w0 & Hd & [->|[ev ->]]);
      apply renderAsync_idle; [done|]. by apply heard_drained.
Qed.

End Setters.

(** * Scenarios *)

(** The state a computation leaves behind ([d] when it exhausts fuel). *)
Definition finalWorld {V E A} (r : Res V E A) (d : World V E) : World V E :=
  match r with
  | Done _ w | Raise _ w => w
  | Timeout => d
  end.

(** ** The usage examples of the two README files *)

Section Readme.

Local Open Scope string_scope.

(** The agent of the README of [index.ts]; the timer it starts is played by
    a later call of the setter from outside. *)
Definition useGreeting (a : list string) : Agent string :=
  let salutation := default "" (head a) in
  UseState (InitValue "John Doe") (λ name setName,
  UseEffect
    (if decide (name = "John Doe")
     then CbSetState setName (Replace "Jane Doe") (CbReturn (Some (CbReturn tt)))
     else CbReturn (Some (CbReturn tt)))
    (Some [name])
  (UseMemo (CbReturn (salutation ++ ", " ++ name ++ "!")) [salutation; name]
     (λ v, Return v))).

Definition greeting : list string → M string (HostEvent string) unit :=
  render areDependenciesEqual 0 useGreeting (λ _, CbReturn tt) 10.

Example readme_events :
  let w1 := finalWorld (greeting ["Hello"] newHost) newHost in
  let w2 := finalWorld (greeting ["Welcome"] w1) newHost in
  let w3 := finalWorld (reset 0 (λ _, CbReturn tt) w2) newHost in
  let w4 := finalWorld (greeting ["Hi"] w3) newHost in
  let w5 := finalWorld (greeting ["Hey"] w4) newHost in
  let w6 := finalWorld (setState (notActive 0) 1 (Replace "Johnny Doe") w5)
              newHost in
  let w7 := finalWorld
              (renderAsync areDependenciesEqual 0 useGreeting (λ _, CbReturn tt) 10 w6)
              newHost in
  events w7 =
  [ HostValueEvent "Hello, John Doe!" false true;
    HostValueEvent "Hello, Jane Doe!" false false;
    HostValueEvent "Welcome, Jane Doe!" false false;
    HostResetEvent;
    HostValueEvent "Hi, John Doe!" false true;
    HostValueEvent "Hi, Jane Doe!" false false;
    HostValueEvent "Hey, Jane Doe!" false false;
    HostValueEvent "Hey, Johnny Doe!" true false ].
Proof. vm_compute. reflexivity. Qed.

(** The Hook of the README of the older variant. *)
Definition useGreetingHook (a : list string) : Agent string :=
  let salutation := default "" (head a) in
  UseState (InitValue "John") (λ name setName,
  UseEffect (CbSetState setName (Replace "Jane") (CbReturn None)) (Some [])
  (UseMemo (CbReturn (salutation ++ " " ++ name)) [salutation; name]
     (λ v, Return v))).

Definition newHookHost : World string (Hook.HostEvent string) :=
  mkWorld None false [] (mkMemory [] 0) None 0 [] [].

Definition greetingHook
    : list string → M string (Hook.HostEvent string) unit :=
  Hook.render areDependenciesEqual 0 useGreetingHook (λ _, CbReturn tt) 10.

Example readme_hook_events :
  let w1 := finalWorld (greetingHook ["Hello"] newHookHost) newHookHost in
  let w2 := finalWorld (greetingHook ["Hi"] w1) newHookHost in
  let w3 := finalWorld (Hook.reset (λ _, CbReturn tt) w2) newHookHost in
  let w4 := finalWorld (greetingHook ["Hey"] w3) newHookHost in
  let w5 := finalWorld (greetingHook ["Yo"] w4) newHookHost in
  let w6 := finalWorld (setState Hook.notRendering 1 (Replace "Janie") w5)
              newHookHost in
  let w7 := finalWorld
              (setState Hook.notRendering 1
                 (Updater (λ p, p ++ " and Johnny")) w6) newHookHost in
  let w8 := finalWorld
              (Hook.renderAsynchronously areDependenciesEqual 0
                 useGreetingHook (λ _, CbReturn tt) 10 w7) newHookHost in
  microtasks w5 = 0 ∧
  events w8 =
  [ Hook.HostRenderingEvent "Hello Jane" ["Hello John"];
    Hook.HostRenderingEvent "Hi Jane" [];
    Hook.HostResetEvent;
    Hook.HostRenderingEvent "Hey Jane" ["Hey John"];
    Hook.HostRenderingEvent "Yo Jane" [];
    Hook.HostRenderingEvent "Yo Janie and Johnny" [] ].
Proof. vm_compute. split; reflexivity. Qed.

End Readme.

(** ** Concrete runs *)

Section Runs.

Local Abbreviation World := (World nat (HostEvent nat)).

(** A listener that only returns. *)
Definition quiet : HostEvent nat → Callback nat unit := λ _, CbReturn tt.

(** A listener that throws on every value event. *)
Definition throwOnValue (ev : HostEvent nat) : Callback nat unit :=
  match ev with
  | HostValueEvent _ _ _ => CbThrow 7
  | _ => CbReturn tt
  end.

(** An agent whose effect returns a clean-up that throws, and which itself
    throws when given an argument. *)
Definition agentBadCleanup (a : list nat) : Agent nat :=
  UseEffect (CbReturn (Some (CbThrow 2))) (Some [])
    (match a with [] => Return 0 | _ => Throw 1 end).

(** An agent that counts up to two by setting its state in the body. *)
Definition agentCount (a : list nat) : Agent nat :=
  UseState (InitValue 0) (λ s set,
    if s <? 2 then SetState set (Replace (S s)) (Return s) else Return s).

(** An agent whose effect sets the state once. *)
Definition agentEffectSets (a : list nat) : Agent nat :=
  UseState (InitValue 0) (λ s set,
    UseEffect (CbSetState set (Replace 1) (CbReturn None)) (Some [])
      (Return s)).

(** An agent with an effect that depends on the first argument and on the
    state, and a state that the body moves to the second argument. *)
Definition agentMoves (a : list nat) : Agent nat :=
  let d := nth 0 a 0 in
  let t := nth 1 a 0 in
  UseState (InitValue 0) (λ s set,
    UseEffect (CbReturn (if s =? 0 then None else Some (CbReturn tt)))
      (Some [d])
      (if s =? t then Return s else SetState set (Replace t) (Return s))).

(** An agent whose effect, run on every pass, returns a clean-up that
    throws. *)
Definition agentBadCleanupAlways (a : list nat) : Agent nat :=
  UseEffect (CbReturn (Some (CbThrow 2))) None (Return 0).

(** An agent whose effect sets the state and returns a clean-up that
    throws, and whose body throws once the state is set. *)
Definition agentThrowsLater (a : list nat) : Agent nat :=
  UseState (InitValue 0) (λ s set,
    UseEffect (CbSetState set (Replace 1) (CbReturn (Some (CbThrow 2))))
      (Some [])
      (if s =? 0 then Return 0 else Throw 1)).

(** C2, counterexample.  A render of three passes, which produce 0, 1 and
    2: the intermediate events carry 0 and then 1, oldest first, and not 1
    and then 0. *)
Lemma render_value_events_counterexample :
  ∃ w' : World,
    render' areDependenciesEqual 0 agentCount quiet 5 false
      (setArgs [] newHost) = Done tt w' ∧
    agentReturns (calls w') = [0; 1; 2] ∧
    events w' = [HostValueEvent 0 false true; HostValueEvent 1 false true;
                 HostValueEvent 2 false false] ∧
    events w' ≠ map (λ v, HostValueEvent v false true) (rev [0; 1])
                ++ [HostValueEvent 2 false false].
Proof.
  eexists. split; [vm_compute; reflexivity|].
  split; [reflexivity|]. split; [reflexivity|]. discriminate.
Qed.

(** C3, counterexample.  One render call on a fresh host, with no setter
    called from outside: the only call of the setter is made by the effect,
    while the host is in its render procedure, and it schedules a
    re-render, because the host is not the active host while effects run.
    [wm] is the state of that call when the effects are triggered, after
    the first invocation of the agent and the rewinding of the cursor. *)
Lemma setState_schedules_counterexample :
  let wm : World :=
    setPointer 0
      (finalWorld (invokeAgent areDependenciesEqual 0 agentEffectSets
                     (setArgs [] newHost)) newHost) in
  (activeHost wm = None ∧ microtasks wm = 0 ∧
   ∃ w5, Memory_triggerEffects (notActive 0) wm = Done tt w5 ∧
         microtasks w5 = 1) ∧
  ∃ w' : World,
    render areDependenciesEqual 0 agentEffectSets quiet 5 [] newHost
      = Done tt w' ∧
    calls w' = [CallAgent []; AgentReturned 0; CallEffect 1;
                CallAgent []; AgentReturned 1] ∧
    microtasks (newHost : World) = 0 ∧ microtasks w' = 1.
Proof.
  intros wm. split.
  - split; [reflexivity|]. split; [reflexivity|].
    eexists. split; [vm_compute; reflexivity|reflexivity].
  - eexists. split; [vm_compute; reflexivity|]. by repeat split.
Qed.

(** C5, counterexample.  After a first render in which the effect ran, a
    second render makes two passes.  The first pass supplies a list that
    differs from the stored one; the body sets the state, so the agent runs
    again before the effects do.  The second pass supplies the list now
    stored: the lists are equal, yet the cell is not left untouched (it
    takes the effect of the second pass) and that effect runs after the
    pass. *)
Lemma useEffect_rerun_law_counterexample :
  let e0 : Effect nat := CbReturn None in
  let e1 : Effect nat := CbReturn (Some (CbReturn tt)) in
  let pass2 : World :=
    mkWorld (Some 0) false [mkState 1 []]
      (mkMemory [MState 0; MEffect (mkEffect true e0 (Some [8]) None)] 1)
      (Some [8; 1]) 0 [] [] in
  areDependenciesEqual (Some [8]) (Some [8]) = true ∧
  (∃ w', useEffect areDependenciesEqual 0 e1 (Some [8]) pass2 = Done tt w' ∧
         memoryCells (memory w') !! 1
         = Some (MEffect (mkEffect true e1 (Some [8]) None)) ∧
         memoryCells (memory w') ≠ memoryCells (memory pass2)) ∧
  ∃ w1 w2 : World,
    render areDependenciesEqual 0 agentMoves quiet 5 [7; 0] newHost
      = Done tt w1 ∧
    render areDependenciesEqual 0 agentMoves quiet 5 [8; 1] w1
      = Done tt w2 ∧
    calls w2 = [CallAgent [7; 0]; AgentReturned 0; CallEffect 1;
                CallAgent [8; 1]; AgentReturned 0;
                CallAgent [8; 1]; AgentReturned 1; CallEffect 1] ∧
    memoryCells (memory w2) !! 1
    = Some (MEffect (mkEffect false e1 (Some [8]) (Some (CbReturn tt)))).
Proof.
  intros e0 e1 pass2. split; [reflexivity|]. split.
  - eexists. split; [vm_compute; reflexivity|]. split; [reflexivity|].
    discriminate.
  - eexists _, _. split; [vm_compute; reflexivity|].
    split; [vm_compute; reflexivity|]. by split.
Qed.

(** *** Instances of the theorems *)

(** An agent that sets its state in the first pass and throws in the
    second. *)
Definition agentSetsThenThrows (a : list nat) : Agent nat :=
  UseState (InitValue 0) (λ s set,
    if s =? 0 then SetState set (Replace 1) (Return 0) else Throw 1).

(** An agent without state: it memoises the sum of its arguments. *)
Definition agentSum (a : list nat) : Agent nat :=
  UseMemo (CbReturn (foldr plus 0 a)) a (λ v, Return v).

(** After a first render of [agentBadCleanup]: the effect has run and the
    clean-up it returned, which throws, is held by its cell. *)
Definition cleanupHeldWorld : World :=
  Eval vm_compute in
    finalWorld (render areDependenciesEqual 0 agentBadCleanup quiet 2 []
                  newHost) newHost.

(** The render procedure of a second render, in which the agent throws. *)
Definition thrownWorld : World :=
  Eval vm_compute in
    finalWorld (render' areDependenciesEqual 0 agentBadCleanup quiet 2 false
                  (setArgs [1] cleanupHeldWorld)) newHost.


Definition countedWorld : World :=
  Eval vm_compute in
    finalWorld (render' areDependenciesEqual 0 agentCount quiet 5 false
                  (setArgs [] newHost)) newHost.

Definition listenerThrewWorld : World :=
  Eval vm_compute in
    finalWorld (render' areDependenciesEqual 0 agentBadCleanupAlways
                  throwOnValue 3 false (setArgs [] newHost)) newHost.

Definition threwLaterWorld : World :=
  Eval vm_compute in
    finalWorld (render' areDependenciesEqual 0 agentThrowsLater quiet 3
                  false (setArgs [] newHost)) newHost.

(** A world in the middle of an agent invocation, the cursor at an effect
    cell that is not marked outdated. *)
Definition atEffectCell : World :=
  mkWorld (Some 0) false []
    (mkMemory [MEffect (mkEffect false (CbReturn None) (Some [7]) None)] 0)
    (Some []) 0 [] [].

(** A world in the middle of an agent invocation, the cursor at a memo
    cell. *)
Definition atMemoCell : World :=
  mkWorld (Some 0) false [] (mkMemory [MMemo (mkMemo 5 [7])] 0)
    (Some []) 0 [] [].

Lemma render_catches_witness :
  render' areDependenciesEqual 0 agentBadCleanup quiet 2 false
    (setArgs [1] cleanupHeldWorld) = Raise (Thrown 1) thrownWorld ∧
  memoryCells (memory thrownWorld)
  = [MEffect (mkEffect false (CbReturn (Some (CbThrow 2))) (Some [])
                (Some (CbThrow 2)))] ∧
  ∃ w' evs,
    render areDependenciesEqual 0 agentBadCleanup quiet 2 [1]
      cleanupHeldWorld = Done tt w' ∧
    memory w' = mkMemory [] 0 ∧
    events w' = events cleanupHeldWorld ++ evs
                ++ [HostErrorEvent (Thrown 1) false] ∧
    Forall (λ ev, ∃ v i, ev = HostValueEvent v false i) evs.
Proof.
  split; [reflexivity|]. split; [reflexivity|].
  exact (render_catches areDependenciesEqual 0 agentBadCleanup quiet 2 [1]
           cleanupHeldWorld thrownWorld (Thrown 1) eq_refl).
Defined.

Lemma render_value_events_witness :
  render' areDependenciesEqual 0 agentCount quiet 5 false
    (setArgs [] newHost) = Done tt countedWorld ∧
  ∃ h vs v,
    calls countedWorld = calls (setArgs [] newHost) ++ h ∧
    agentReturns h = vs ++ [v] ∧
    length (agentCalls h) = S (length vs) ∧
    events countedWorld
    = events (setArgs [] newHost)
      ++ map (λ v, HostValueEvent v false true) vs
      ++ [HostValueEvent v false false].
Proof.
  split; [reflexivity|].
  apply (render_value_events areDependenciesEqual 0 agentCount quiet 5 false
           (setArgs [] newHost) countedWorld).
  reflexivity.
Defined.

Lemma render_listener_throws_witness :
  render' areDependenciesEqual 0 agentBadCleanupAlways throwOnValue 3 false
    (setArgs [] newHost) = Raise (Thrown 7) listenerThrewWorld ∧
  events listenerThrewWorld
  = events (newHost : World) ++ [] ++ [HostValueEvent 0 false false] ∧
  thrown (throwOnValue (HostValueEvent 0 false false)) = Some 7 ∧
  memoryCells (memory listenerThrewWorld)
  = [MEffect (mkEffect false (CbReturn (Some (CbThrow 2))) None
                (Some (CbThrow 2)))] ∧
  Thrown 7 = Thrown 7 ∧
  (∃ v i, HostValueEvent 0 false false = HostValueEvent v false i) ∧
  ∃ w', render areDependenciesEqual 0 agentBadCleanupAlways throwOnValue 3 []
          newHost = Done tt w' ∧
        memory w' = mkMemory [] 0 ∧
        events w' = events (newHost : World) ++ []
                    ++ [HostValueEvent 0 false false;
                        HostErrorEvent (Thrown 7) false].
Proof.
  split; [reflexivity|]. split; [reflexivity|]. split; [reflexivity|].
  split; [reflexivity|].
  exact (render_listener_throws areDependenciesEqual 0 agentBadCleanupAlways
           throwOnValue 3 [] newHost listenerThrewWorld (Thrown 7) []
           (HostValueEvent 0 false false) 7 eq_refl eq_refl eq_refl).
Defined.

Lemma render_agent_throws_later_witness :
  render' areDependenciesEqual 0 agentThrowsLater quiet 3 false
    (setArgs [] newHost) = Raise (Thrown 1) threwLaterWorld ∧
  agentReturns (calls threwLaterWorld) = [0] ∧
  length (agentCalls (calls threwLaterWorld))
  = S (length (agentReturns (calls threwLaterWorld))) ∧
  ∃ w', render areDependenciesEqual 0 agentThrowsLater quiet 3 [] newHost
        = Done tt w' ∧
        events w' = events (newHost : World)
                    ++ map (λ v, HostValueEvent v false true)
                         (agentReturns (calls threwLaterWorld))
                    ++ [HostErrorEvent (Thrown 1) false].
Proof.
  split; [reflexivity|]. split; [reflexivity|]. split; [reflexivity|].
  exact (render_agent_throws_later areDependenciesEqual 0 agentThrowsLater
           quiet 3 [] newHost threwLaterWorld (Thrown 1)
           (calls threwLaterWorld) eq_refl eq_refl eq_refl).
Defined.

Lemma useEffect_rerun_law_witness :
  activeHost atEffectCell = Some 0 ∧
  memoryCells (memory atEffectCell) !! pointer (memory atEffectCell)
  = Some (MEffect (mkEffect false (CbReturn None) (Some [7]) None)) ∧
  useEffect areDependenciesEqual 0 (CbReturn None) (Some [8]) atEffectCell
  = Done tt
      (setPointer 1
         (setCells [MEffect (mkEffect true (CbReturn None) (Some [8]) None)]
            atEffectCell)) ∧
  useEffect areDependenciesEqual 0 (CbReturn (Some (CbReturn tt))) (Some [7])
    atEffectCell
  = Done tt (setPointer 1 atEffectCell).
Proof.
  split; [reflexivity|]. split; [reflexivity|]. split.
  - apply (useEffect_rerun_law 0 (notActive 0) (CbReturn None) (Some [8])
             atEffectCell _ eq_refl eq_refl).
    right. right. left. discriminate.
  - apply (useEffect_rerun_law 0 (notActive 0) (CbReturn (Some (CbReturn tt)))
             (Some [7]) atEffectCell _ eq_refl eq_refl).
    intros [H|[H|[H|H]]]; try discriminate H. by apply H.
Defined.

Lemma useMemo_stability_witness :
  activeHost atMemoCell = Some 0 ∧
  useMemo areDependenciesEqual 0 (notActive 0) (CbThrow 9) [7] atMemoCell
  = Done 5 (setPointer 1 atMemoCell).
Proof.
  split; [reflexivity|].
  exact (useMemo_stability areDependenciesEqual 0 (notActive 0) (CbThrow 9)
           [7] atMemoCell eq_refl).
Defined.

Lemma stateless_one_event_per_render_witness :
  (∀ a, stateless (agentSum a)) ∧
  noStateCells (newHost : World) ∧
  noThrow areDependenciesEqual 0 agentSum quiet 1 [[1]; [1]; [2; 3]] newHost ∧
  ∃ w' vs,
    renderAll areDependenciesEqual 0 agentSum quiet 1 [[1]; [1]; [2; 3]]
      newHost = Done tt w' ∧
    length vs = 3 ∧
    events w' = events (newHost : World)
                ++ map (λ v, HostValueEvent v false false) vs.
Proof.
  assert (Hs : ∀ a, stateless (agentSum a)) by (intros a v; exact I).
  assert (Hw : noStateCells (newHost : World)) by constructor.
  assert (Hn : noThrow areDependenciesEqual 0 agentSum quiet 1
                 [[1]; [1]; [2; 3]] newHost) by exact I.
  split; [exact Hs|]. split; [exact Hw|]. split; [exact Hn|].
  exact (stateless_one_event_per_render areDependenciesEqual 0 agentSum quiet
           0 [[1]; [1]; [2; 3]] newHost Hs Hw Hn).
Defined.

End Runs.

(** * Further properties of the hooks *)

Section HookProperties.

Context {V : Type} `{!EqDecision V}.
Context {E : Type}.

Local Abbreviation World := (World V E).
Local Abbreviation M := (M V E).

Variable depsEqual : option (list V) → option (list V) → bool.
Variable this : HostId.
Variable detached : World → bool.

(** X1.  A hook called while no host is active fails at once and leaves
    the process as it was: the memory is not read, nothing is written and
    no user code is invoked. *)
Theorem hooks_need_active_host initialState eff effDeps createValue deps
    callback (w : World) :
  activeHost w = None →
  useState this detached initialState w = Raise NoActiveHost w ∧
  useEffect depsEqual this eff effDeps w = Raise NoActiveHost w ∧
  useMemo depsEqual this detached createValue deps w = Raise NoActiveHost w ∧
  useCallback depsEqual this detached callback deps w = Raise NoActiveHost w.
Proof.
  intros Ha.
  assert (Hg : getActiveHost this w = Raise NoActiveHost w).
  { unfold getActiveHost, bind, gets. rewrite Ha. by rewrite decide_False. }
  unfold useCallback, useState, useEffect, useMemo.
  repeat split; unfold bind at 1; by rewrite Hg.
Qed.

(** X2.  [useState] at a slot that holds a state cell returns the state of
    that cell and the setter created with it, and only moves the cursor:
    the initial state supplied is ignored and an initialiser is not
    invoked. *)
Theorem useState_keeps_cell initialState (w : World) l c :
  activeHost w = Some this →
  memoryCells (memory w) !! pointer (memory w) = Some (MState l) →
  store w !! l = Some c →
  useState this detached initialState w
  = Done (state c, l) (setPointer (S (pointer (memory w))) w).
Proof.
  intros Ha Hcell Hl. unfold useState. unfold bind at 1.
  rewrite (getActiveHost_active this w Ha).
  unfold bind at 1, Memory_read, bind at 1, gets at 1. rewrite Hcell. simpl.
  unfold bind, ret, Memory_movePointer, modify, gets. simpl.
  by rewrite Hl.
Qed.

(** X3.  [useState] at a slot not yet written takes the initial state
    supplied: a value as it is, an initialiser by invoking it, once.  A new
    cell with that state and an empty queue is created, its setter is the
    one returned, and it is appended to the memory before the cursor moves.
    If the initialiser throws, the exception leaves [useState] and the
    memory is as it was. *)
Theorem useState_first_call (w : World) :
  activeHost w = Some this →
  memoryCells (memory w) !! pointer (memory w) = None →
  let p := pointer (memory w) in
  let created s (w1 : World) :=
    setPointer (S p)
      (setCells (memoryCells (memory w) ++ [MState (length (store w1))])
         (setStore (store w1 ++ [mkState s []]) w1)) in
  (∀ v, useState this detached (InitValue v) w
        = Done (v, length (store w)) (created v w)) ∧
  (∀ f, match invoke detached (CallInitialState p) f w with
        | Done s w1 =>
            useState this detached (InitFunction f) w
            = Done (s, length (store w1)) (created s w1) ∧
            calls w1 = calls w ++ [CallInitialState p]
        | Raise e w1 =>
            useState this detached (InitFunction f) w = Raise e w1 ∧
            memory w1 = memory w
        | Timeout => False
        end).
Proof.
  intros Ha Hcell p created.
  assert (Hstart : ∀ i, useState this detached i w =
    (let* l :=
       (let* s := match i with
                  | InitFunction f => invoke detached (CallInitialState p) f
                  | InitValue v => ret v
                  end in
        let* l := gets (λ w, length (store w)) in
        let* _ := modify (λ w, setStore (store w ++ [mkState s []]) w) in
        let* _ := Memory_write (MState l) in
        ret l) in
     let* _ := Memory_movePointer in
     let* cell := gets (λ w, store w !! l) in
     match cell with
     | Some c => ret (state c, l)
     | None => raise CellMismatch
     end) w).
  { intros i. unfold useState. unfold bind at 1.
    rewrite (getActiveHost_active this w Ha).
    unfold bind at 1, Memory_read, bind at 1, gets at 1. rewrite Hcell.
    simpl. unfold bind at 1. by unfold bind at 1, gets at 1. }
  assert (Hend : ∀ s (w1 : World), memory w1 = memory w →
    (let* l :=
       (let* l := gets (λ w, length (store w)) in
        let* _ := modify (λ w, setStore (store w ++ [mkState s []]) w) in
        let* _ := Memory_write (MState l) in
        ret l) in
     let* _ := Memory_movePointer in
     let* cell := gets (λ w, store w !! l) in
     match cell with
     | Some c => ret (state c, l)
     | None => raise CellMismatch
     end) w1 = Done (s, length (store w1)) (created s w1)).
  { intros s w1 Hm.
    unfold bind, ret, Memory_movePointer, Memory_write, modify, gets. simpl.
    rewrite Hm. fold p.
    rewrite decide_False by (apply lookup_ge_None in Hcell; lia).
    simpl. rewrite lookup_app_r by done. rewrite Nat.sub_diag. simpl.
    unfold created, setCells, setPointer, setMemory. simpl. by rewrite Hm. }
  split.
  - intros v. rewrite Hstart. unfold bind at 1. unfold bind at 1, ret at 1.
    exact (Hend v w eq_refl).
  - intros f.
    pose proof (invoke_external detached (CallInitialState p) f I w) as Hext.
    pose proof (invoke_calls detached (CallInitialState p) f w) as Hcalls.
    destruct (invoke detached (CallInitialState p) f w) as [s w1|e w1|]
      eqn:Hinv; [| |done]; rewrite Hstart; unfold bind at 1; unfold bind at 1;
      rewrite Hinv; destruct Hext as [_ Hm].
    + split; [exact (Hend s w1 Hm)|done].
    + split; [reflexivity|exact Hm].
Qed.

(** X4.  [useEffect] only registers: whatever the slot holds and however
    the call ends, no user code is invoked (neither the effect nor a
    clean-up), no state cell is touched, nothing is scheduled and nothing is
    delivered.  When it returns, the cursor has moved by one; a slot that
    held an effect cell holds one with the same clean-up, no other slot
    having changed, and at a slot not yet written a cell marked to run, with
    no clean-up, has been appended.  When it throws, nothing has changed. *)
Theorem useEffect_defers eff deps (w : World) :
  match useEffect depsEqual this eff deps w with
  | Done _ w' =>
      calls w' = calls w ∧ store w' = store w ∧
      microtasks w' = microtasks w ∧ events w' = events w ∧
      activeHost w' = activeHost w ∧
      pointer (memory w') = S (pointer (memory w)) ∧
      match memoryCells (memory w) !! pointer (memory w) with
      | Some (MEffect c) =>
          ∃ c', memoryCells (memory w')
                = <[pointer (memory w) := MEffect c']> (memoryCells (memory w)) ∧
                dispose c' = dispose c
      | None =>
          memoryCells (memory w')
          = memoryCells (memory w) ++ [MEffect (mkEffect true eff deps None)]
      | Some _ => False
      end
  | Raise _ w' => w' = w
  | Timeout => False
  end.
Proof.
  unfold useEffect, getActiveHost. unfold bind at 1, bind at 1, gets at 1.
  case_decide; [|done]. simpl.
  unfold bind at 1, Memory_read, bind at 1, gets at 1.
  destruct (memoryCells (memory w) !! pointer (memory w)) as [[l|c|c]|]
    eqn:Hcell; simpl; try done.
  - pose proof (lookup_lt_Some _ _ _ Hcell) as Hlt.
    destruct (negb _ || outdated c); simpl.
    + unfold bind, Memory_write, Memory_movePointer, modify. simpl.
      rewrite decide_True by done. simpl. repeat split; try done.
      by eexists.
    + unfold bind, ret, Memory_movePointer, modify. simpl.
      repeat split; try done. exists c. by rewrite list_insert_id.
  - pose proof (lookup_ge_None_1 _ _ Hcell) as Hge.
    unfold bind, Memory_write, Memory_movePointer, modify. simpl.
    rewrite decide_False by lia. by simpl.
Qed.

(** X5.  When the producer handed to [useMemo] throws, at a slot not yet
    written or at a memo cell whose stored list differs from the one
    supplied, the exception leaves [useMemo] after that one invocation and
    the memory is as it was: no cell is written, the stored value and list
    stay, and the cursor has not moved. *)
Theorem useMemo_producer_throws createValue deps (w : World) :
  activeHost w = Some this →
  throws createValue = true →
  match memoryCells (memory w) !! pointer (memory w) with
  | None => True
  | Some (MMemo c) => depsEqual (Some (memoDependencies c)) (Some deps) = false
  | Some _ => False
  end →
  ∃ x w', useMemo depsEqual this detached createValue deps w
          = Raise (Thrown x) w' ∧
          memory w' = memory w ∧
          calls w' = calls w ++ [CallCreateValue (pointer (memory w))].
Proof.
  intros Ha Ht Hcell.
  pose proof (invoke_external detached
    (CallCreateValue (pointer (memory w))) createValue I w) as Hext.
  pose proof (invoke_calls detached
    (CallCreateValue (pointer (memory w))) createValue w) as Hcalls.
  destruct (runCallback_throws detached createValue
    (record (CallCreateValue (pointer (memory w))) w) Ht) as (x & w' & Hrun).
  assert (Hinv : invoke detached (CallCreateValue (pointer (memory w)))
                   createValue w = Raise (Thrown x) w').
  { unfold invoke, bind, modify. by rewrite Hrun. }
  rewrite Hinv in Hext, Hcalls. destruct Hext as [_ Hm].
  exists x, w'. split; [|done].
  unfold useMemo. unfold bind at 1.
  rewrite (getActiveHost_active this w Ha).
  unfold bind at 1, Memory_read, bind at 1, gets at 1.
  destruct (memoryCells (memory w) !! pointer (memory w)) as [[l|c|c]|];
    try done; simpl.
  - rewrite Hcell. simpl. unfold bind at 1, gets at 1. unfold bind at 1.
    unfold bind at 1. by rewrite Hinv.
  - unfold bind at 1, gets at 1. unfold bind at 1.
    unfold bind at 1. by rewrite Hinv.
Qed.

(** X6.  [useCallback] never fails under an active host at a slot that is
    unwritten or holds a memo cell: it returns the callback stored in the
    cell when the stored list is equal to the one supplied, and the callback
    supplied otherwise, which it stores with the supplied list.  It touches
    no state cell and schedules nothing, and moves the cursor by one. *)
Theorem useCallback_returns callback deps (w : World) :
  activeHost w = Some this →
  match memoryCells (memory w) !! pointer (memory w) with
  | Some (MState _) | Some (MEffect _) => True
  | cell =>
      let kept := match cell with
                  | Some (MMemo c) =>
                      if depsEqual (Some (memoDependencies c)) (Some deps)
                      then Some c else None
                  | _ => None
                  end in
      ∃ w', useCallback depsEqual this detached callback deps w
            = Done (match kept with Some c => value c | None => callback end) w' ∧
            store w' = store w ∧ microtasks w' = microtasks w ∧
            pointer (memory w') = S (pointer (memory w)) ∧
            match kept with
            | Some c => memoryCells (memory w') = memoryCells (memory w)
            | None =>
                memoryCells (memory w')
                = match cell with
                  | Some _ => <[pointer (memory w) := MMemo (mkMemo callback deps)]>
                                (memoryCells (memory w))
                  | None => memoryCells (memory w) ++ [MMemo (mkMemo callback deps)]
                  end
            end
  end.
Proof.
  intros Ha.
  destruct (memoryCells (memory w) !! pointer (memory w)) as [[l|c|c]|]
    eqn:Hcell; try done; simpl;
    unfold useCallback, useMemo; unfold bind at 1;
    rewrite (getActiveHost_active this w Ha);
    unfold bind at 1, Memory_read, bind at 1, gets at 1; rewrite Hcell; simpl.
  - pose proof (lookup_lt_Some _ _ _ Hcell) as Hlt.
    destruct (depsEqual _ _); simpl.
    + eexists. split; [reflexivity|]. by simpl.
    + unfold bind, invoke, Memory_write, Memory_movePointer, modify, gets, ret.
      simpl.
      destruct (decide (pointer (memory w) < length (memoryCells (memory w))))
        as [?|?]; [|lia].
      eexists. split; [reflexivity|]. by simpl.
  - pose proof (lookup_ge_None_1 _ _ Hcell) as Hge.
    unfold bind, invoke, Memory_write, Memory_movePointer, modify, gets, ret.
    simpl.
    destruct (decide (pointer (memory w) < length (memoryCells (memory w))))
      as [?|?]; [lia|].
    eexists. split; [reflexivity|]. by simpl.
Qed.

End HookProperties.

(** * What is never scheduled *)

Section Unscheduled.

Context {V : Type} `{!EqDecision V}.
Context {E : Type}.

Local Abbreviation World := (World V E).
Local Abbreviation M := (M V E).

Variable depsEqual : option (list V) → option (list V) → bool.
Variable this : HostId.
Variable detached : World → bool.

Hypothesis detached_stable : ∀ w w' : World,
  activeHost w' = activeHost w → rendering w' = rendering w →
  detached w' = detached w.

(** A step that, taken while the test of the setters answers no, leaves
    that answer and the microtask queue as they were. *)
Definition unscheduled (w w' : World) : Prop :=
  detached w = false → detached w' = false ∧ microtasks w' = microtasks w.

Global Instance unscheduled_preorder : PreOrder unscheduled.
Proof.
  split; [by intros w|].
  intros w1 w2 w3 H1 H2 Hd. destruct (H1 Hd) as [Hd2 Hm2].
  destruct (H2 Hd2) as [Hd3 Hm3]. split; [done|congruence].
Qed.

Lemma unscheduled_same (w w' : World) :
  activeHost w' = activeHost w → rendering w' = rendering w →
  microtasks w' = microtasks w → unscheduled w w'.
Proof.
  intros Ha Hr Hm Hd. split; [|done]. by rewrite (detached_stable w w').
Qed.

Hint Extern 3 (unscheduled _ _) => apply unscheduled_same; reflexivity : always.

Lemma setState_unscheduled l u : always unscheduled (setState detached l u).
Proof.
  intros w. rewrite setState_spec. simpl. intros Hd.
  rewrite (detached_stable w (setStore _ w)), Hd by done.
  split; [|done]. by rewrite (detached_stable w (setStore _ w)).
Qed.

Lemma runCallback_unscheduled {R} (c : Callback V R) :
  always unscheduled (runCallback detached c).
Proof. induction c; simpl; always_auto. apply setState_unscheduled. Qed.

Lemma invoke_unscheduled {R} what (c : Callback V R) :
  always unscheduled (invoke detached what c).
Proof. unfold invoke. always_auto. apply runCallback_unscheduled. Qed.

Hint Resolve setState_unscheduled invoke_unscheduled : always.

Lemma Memory_read_unscheduled t : always unscheduled (Memory_read (E:=E) t).
Proof. unfold Memory_read. always_auto. Qed.

Lemma Memory_write_unscheduled c : always unscheduled (Memory_write (E:=E) c).
Proof.
  unfold Memory_write. always_auto. case_decide; by apply unscheduled_same.
Qed.

Lemma Memory_movePointer_unscheduled :
  always unscheduled (Memory_movePointer (V:=V) (E:=E)).
Proof. unfold Memory_movePointer. always_auto. Qed.

Hint Resolve Memory_read_unscheduled Memory_write_unscheduled
  Memory_movePointer_unscheduled : always.

Lemma disposeFrom_unscheduled cells i :
  always unscheduled (disposeFrom detached i cells).
Proof.
  revert i. induction cells as [|c cells IH]; intros i; simpl; always_auto.
Qed.

Hint Resolve disposeFrom_unscheduled : always.

Lemma Memory_reset_unscheduled hard :
  always unscheduled (Memory_reset detached hard).
Proof. unfold Memory_reset. always_auto. Qed.

Lemma Memory_applyStateChanges_unscheduled :
  always unscheduled (Memory_applyStateChanges (V:=V) (E:=E)).
Proof.
  intros w. unfold Memory_applyStateChanges. by apply unscheduled_same.
Qed.

Lemma triggerFrom_unscheduled cells i :
  always unscheduled (triggerFrom detached i cells).
Proof.
  revert i. induction cells as [|c cells IH]; intros i; simpl; always_auto.
Qed.

Hint Resolve triggerFrom_unscheduled : always.

Lemma Memory_triggerEffects_unscheduled :
  always unscheduled (Memory_triggerEffects detached).
Proof. unfold Memory_triggerEffects. always_auto. Qed.

Lemma getActiveHost_unscheduled :
  always unscheduled (getActiveHost (V:=V) (E:=E) this).
Proof. unfold getActiveHost. always_auto. Qed.

Hint Resolve getActiveHost_unscheduled : always.

Lemma useState_unscheduled i : always unscheduled (useState this detached i).
Proof. unfold useState. always_auto. Qed.

Lemma useEffect_unscheduled eff deps :
  always unscheduled (useEffect (E:=E) depsEqual this eff deps).
Proof. unfold useEffect. always_auto. Qed.

Lemma useMemo_unscheduled createValue deps :
  always unscheduled (useMemo depsEqual this detached createValue deps).
Proof. unfold useMemo. always_auto. Qed.

Hint Resolve useState_unscheduled useEffect_unscheduled useMemo_unscheduled
  : always.

Lemma runAgent_unscheduled p :
  always unscheduled (runAgent depsEqual this detached p).
Proof. induction p; simpl; always_auto. Qed.

End Unscheduled.

(** * What keeps the cursor *)

Section Pointer.

Context {V : Type} `{!EqDecision V}.
Context {E : Type}.

Local Abbreviation World := (World V E).
Local Abbreviation M := (M V E).

Variable detached : World → bool.

Definition samePointer (w w' : World) : Prop :=
  pointer (memory w') = pointer (memory w).

Global Instance samePointer_preorder : PreOrder samePointer.
Proof.
  split; [done|]. intros w1 w2 w3 H1 H2. unfold samePointer in *. congruence.
Qed.

Lemma invoke_samePointer {R} what (c : Callback V R) :
  quietCall what → always samePointer (invoke detached what c).
Proof.
  intros Hq. eapply always_weaken; [|by apply invoke_external].
  intros w w' [_ Hm]. unfold samePointer. by rewrite Hm.
Qed.

Hint Resolve invoke_samePointer : always.
Hint Extern 1 (quietCall _) => exact I : always.
Hint Extern 3 (samePointer _ _) => reflexivity : always.

Lemma triggerFrom_samePointer cells i :
  always samePointer (triggerFrom detached i cells).
Proof.
  revert i. induction cells as [|c cells IH]; intros i; simpl; always_auto.
Qed.

Hint Resolve triggerFrom_samePointer : always.

Lemma Memory_triggerEffects_samePointer :
  always samePointer (Memory_triggerEffects detached).
Proof. unfold Memory_triggerEffects. always_auto. Qed.

End Pointer.

(** * Further properties of [Host] of [src/index.ts] *)

Section Whenever.

Context {V E : Type}.

Local Abbreviation World := (World V E).
Local Abbreviation M := (M V E).

(** [whenever R m]: however [m] ends, if it ends, the state it leaves is
    related by [R] to the state it started from. *)
Definition whenever {A} (R : relation World) (m : M A) : Prop :=
  ∀ w, match m w with
       | Done _ w' | Raise _ w' => R w w'
       | Timeout => True
       end.

Context (R : relation World) `{!PreOrder R}.

Lemma always_whenever {A} (m : M A) : always R m → whenever R m.
Proof. intros Hm w. specialize (Hm w). by destruct (m w). Qed.

Lemma whenever_bind {A B} (m : M A) (k : A → M B) :
  whenever R m → (∀ a, whenever R (k a)) → whenever R (bind m k).
Proof.
  intros Hm Hk w. unfold bind. specialize (Hm w).
  destruct (m w) as [a w1|e w1|]; [|done..].
  specialize (Hk a w1). destruct (k a w1); [| |done]; by etrans.
Qed.

Lemma whenever_tryCatch {A} (m : M A) (h : JsError V → M A) :
  whenever R m → (∀ e, whenever R (h e)) → whenever R (tryCatch m h).
Proof.
  intros Hm Hh w. unfold tryCatch. specialize (Hm w).
  destruct (m w) as [a w1|e w1|]; [done| |done].
  specialize (Hh e w1). destruct (h e w1); [| |done]; by etrans.
Qed.

Lemma whenever_tryFinally {A} (m : M A) (f : M unit) :
  whenever R m → always R f → whenever R (tryFinally m f).
Proof.
  intros Hm Hf w. unfold tryFinally, bind. specialize (Hm w).
  destruct (m w) as [a w1|e w1|]; [| |done];
    specialize (Hf w1); destruct (f w1); simpl; try done; by etrans.
Qed.

End Whenever.

Section RenderProperties.

Context {V : Type} `{!EqDecision V}.

Local Abbreviation World := (World V (HostEvent V)).
Local Abbreviation M := (M V (HostEvent V)).

Variable depsEqual : option (list V) → option (list V) → bool.
Variable this : HostId.
Variable agent : list V → Agent V.
Variable listener : HostEvent V → Callback V unit.

Local Abbreviation emit := (emit this listener).
Local Abbreviation heard := (heard this listener).
Local Abbreviation invokeAgent := (invokeAgent depsEqual this agent).
Local Abbreviation renderLoop := (renderLoop depsEqual this agent listener).
Local Abbreviation render' := (render' depsEqual this agent listener).
Local Abbreviation render := (render depsEqual this agent listener).
Local Abbreviation renderAsync := (renderAsync depsEqual this agent listener).
Local Abbreviation onError := (onError this listener).
Local Abbreviation reset := (reset this listener).
Local Abbreviation notActive := (notActive (V:=V) this).

(** A relation kept by the steps of the render procedure is kept by the
    procedure. *)
Section Loop.

Context (R : relation World) `{!PreOrder R}.

Hypothesis R_heard : ∀ ev w, R w (heard ev w).
Hypothesis R_invokeAgent : always R invokeAgent.
Hypothesis R_reset : ∀ hard, always R (Memory_reset notActive hard).
Hypothesis R_apply : always R (Memory_applyStateChanges (V:=V)).
Hypothesis R_trigger : always R (Memory_triggerEffects notActive).

Lemma emit_always ev : always R (emit ev).
Proof. intros w. rewrite emit_eq. by destruct (thrown (listener ev)). Qed.

Lemma renderLoop_whenever fuel async valueEvent :
  whenever R (renderLoop fuel async valueEvent).
Proof.
  revert valueEvent. induction fuel as [|fuel IH]; intros ve; [done|].
  rewrite renderLoop_S.
  apply whenever_bind; [tc_solve| |intros _].
  { apply always_whenever. destruct ve; [apply emit_always|].
    by apply always_ret. }
  apply whenever_bind; [tc_solve|by apply always_whenever|intros v].
  apply whenever_bind; [tc_solve|by apply always_whenever|intros _].
  apply whenever_bind; [tc_solve|by apply always_whenever|intros b].
  destruct b; [apply IH|].
  apply whenever_bind; [tc_solve|by apply always_whenever|intros _].
  apply whenever_bind; [tc_solve|by apply always_whenever|intros b].
  destruct b; [apply IH|]. apply always_whenever, emit_always.
Qed.

Lemma onError_always async e : always R (onError async e).
Proof.
  rewrite onError_eq. apply always_bind; [tc_solve|apply R_reset|intros _].
  apply emit_always.
Qed.

Lemma render_whenever fuel a (w : World) :
  match render fuel a w with
  | Done _ w' | Raise _ w' => R (setArgs a w) w'
  | Timeout => True
  end.
Proof.
  rewrite render_eq. unfold bind at 1, modify at 1.
  apply (whenever_tryCatch R); [|intros e; apply always_whenever, onError_always].
  rewrite render'_eq. apply renderLoop_whenever.
Qed.

Lemma renderAsync_whenever fuel : whenever R (renderAsync fuel).
Proof.
  rewrite renderAsync_eq.
  apply whenever_tryCatch;
    [tc_solve| |intros e; apply always_whenever, onError_always].
  apply whenever_bind; [tc_solve|by apply always_whenever|intros b].
  destruct b; [|apply always_whenever; by apply always_ret].
  rewrite render'_eq. apply renderLoop_whenever.
Qed.

End Loop.

(** ** The arguments the agent is invoked with *)

(** The stored arguments stay, and every agent invocation made is given
    them. *)
Definition argsPassed (w w' : World) : Prop :=
  args w' = args w ∧
  ∃ h, calls w' = calls w ++ h ∧ Forall (λ x, args w = Some x) (agentCalls h).

Global Instance argsPassed_preorder : PreOrder argsPassed.
Proof.
  split.
  - intros w. split; [done|]. exists []. by rewrite app_nil_r.
  - intros w1 w2 w3 (Hg & h & Hc & Hh) (Hg' & h' & Hc' & Hh').
    split; [congruence|]. exists (h ++ h').
    split; [by rewrite Hc', Hc, app_assoc|].
    rewrite agentCalls_app. apply Forall_app. split; [done|].
    by rewrite <-Hg.
Qed.

Lemma internal_argsPassed {A} (m : M A) :
  always internal m → always argsPassed m.
Proof.
  apply always_weaken. intros w w' (_ & _ & Hg & _ & h & Hc & Hq).
  split; [done|]. exists h. split; [done|].
  by rewrite (agentCalls_quiet h Hq).
Qed.

Lemma invokeAgent_argsPassed : always argsPassed invokeAgent.
Proof.
  intros w. pose proof (invokeAgent_spec depsEqual this agent w) as Hi.
  destruct (invokeAgent w) as [v w'|e w'|]; [| |done].
  - destruct Hi as (_ & _ & Hg & a & h & Ha & Hq & Hc).
    split; [done|]. eexists. split; [exact Hc|].
    rewrite (agentCalls_pass a h _ (agentCalls_quiet h Hq)). simpl.
    by constructor.
  - destruct Hi as (_ & _ & Hg & [(_ & _ & Hc)|(a & h & Ha & Hq & Hc)]);
      (split; [done|]).
    + exists []. by rewrite app_nil_r.
    + eexists. split; [exact Hc|].
      rewrite <-(app_nil_r h),
        (agentCalls_pass a h _ (agentCalls_quiet h Hq)). simpl.
      by constructor.
Qed.

(** X8.  [render(args)] stores the arguments, and every invocation of the
    agent it makes, in whichever pass, is given exactly these arguments;
    they are still stored when [render] ends, however it ends.  The
    invocations [#renderAsync] makes are given the arguments stored by the
    last [render] call, which it leaves stored. *)
Theorem agent_gets_stored_args :
  (∀ fuel a (w : World),
     match render fuel a w with
     | Done _ w' | Raise _ w' =>
         args w' = Some a ∧
         ∃ h, calls w' = calls w ++ h ∧ Forall (λ x, x = a) (agentCalls h)
     | Timeout => True
     end) ∧
  (∀ fuel (w : World),
     match renderAsync fuel w with
     | Done _ w' | Raise _ w' =>
         args w' = args w ∧
         ∃ h, calls w' = calls w ++ h ∧
              Forall (λ x, args w = Some x) (agentCalls h)
     | Timeout => True
     end).
Proof.
  assert (Hdel : ∀ ev (w : World), argsPassed w (heard ev w)).
  { intros ev w. split; [apply heard_args|].
    exists []. by rewrite heard_calls, app_nil_r. }
  assert (Hreset : ∀ hard, always argsPassed (Memory_reset notActive hard)).
  { intros hard. apply internal_argsPassed, Memory_reset_internal. }
  assert (Happ : always argsPassed (Memory_applyStateChanges (V:=V)
                                      (E:=HostEvent V))).
  { apply internal_argsPassed, Memory_applyStateChanges_internal. }
  assert (Htr : always argsPassed (Memory_triggerEffects notActive)).
  { apply internal_argsPassed, Memory_triggerEffects_internal. }
  split.
  - intros fuel a w.
    pose proof (render_whenever argsPassed Hdel invokeAgent_argsPassed
                  Hreset Happ Htr fuel a w) as Hr.
    destruct (render fuel a w) as [[] w'|e w'|]; [| |done];
      destruct Hr as (Hg & h & Hc & Hh); simpl in *;
      (split; [done|]); exists h; (split; [done|]);
      eapply Forall_impl; [exact Hh|by intros x [= ->]
                          |exact Hh|by intros x [= ->]].
  - intros fuel w.
    exact (renderAsync_whenever argsPassed Hdel invokeAgent_argsPassed
             Hreset Happ Htr fuel w).
Qed.

(** ** The events of one call *)

(** The events one run of the render procedure and its [catch] block can
    deliver: intermediate value events, then at most one value event that
    is not intermediate, then at most one error event, all with the flag of
    the run. *)
Definition renderEvents (async : bool) (evs : list (HostEvent V)) : Prop :=
  ∃ vs fin err,
    evs = map (λ v, HostValueEvent v async true) vs ++ fin ++ err ∧
    (fin = [] ∨ ∃ v, fin = [HostValueEvent v async false]) ∧
    (err = [] ∨ ∃ e, err = [HostErrorEvent e async]).

Lemma LoopEnd_grammar async vals n m evs eo :
  LoopEnd listener async vals n m evs eo →
  ∃ vs fin,
    evs = map (λ v, HostValueEvent v async true) vs ++ fin ∧
    (fin = [] ∨ ∃ v, fin = [HostValueEvent v async false]) ∧
    (eo = None → fin ≠ []).
Proof.
  destruct 1; subst.
  - exists vs, [HostValueEvent v async false]. eauto.
  - exists vals, []. rewrite app_nil_r. auto.
  - exists vals, []. rewrite app_nil_r. auto.
  - exists (vs ++ [v]), []. rewrite app_nil_r. auto.
  - exists vs, []. rewrite app_nil_r. auto.
  - exists vs, [HostValueEvent v async false]. eauto.
Qed.

Lemma caught_grammar fuel async (w : World) :
  match tryCatch (render' fuel async) (onError async) w with
  | Done _ w' =>
      ∃ evs, events w' = events w ++ evs ∧ renderEvents async evs ∧ evs ≠ []
  | Raise _ w' => ∃ evs, events w' = events w ++ evs ∧ renderEvents async evs
  | Timeout => True
  end.
Proof.
  unfold tryCatch.
  pose proof (renderLoop_spec depsEqual this agent listener fuel async None w)
    as Hs.
  rewrite <-render'_eq in Hs.
  destruct (render' fuel async w) as [[] w1|e w1|]; [| |done].
  - destruct Hs as (evs & h & He & _ & _ & Hend).
    apply LoopEnd_grammar in Hend as (vs & fin & -> & Hfin & Hne).
    eexists. split; [exact He|]. split.
    + exists vs, fin, []. rewrite app_nil_r. auto.
    + intros [_ ?]%app_eq_nil. by apply Hne.
  - destruct Hs as (evs & h & He & _ & _ & Hend).
    apply LoopEnd_grammar in Hend as (vs & fin & -> & Hfin & _).
    pose proof (onError_events this listener async e w1) as Ho.
    destruct (onError async e w1) as [[] w2|e2 w2|]; [| |done].
    + destruct Ho as (_ & He2). eexists. split.
      * rewrite He2, He, <-app_assoc. reflexivity.
      * split; [|by intros [_ ?]%app_eq_nil].
        exists vs, fin, [HostErrorEvent e async]. rewrite <-app_assoc. eauto.
    + destruct Ho as (_ & [He2|He2]).
      * eexists. split; [rewrite He2; exact He|].
        exists vs, fin, []. rewrite app_nil_r. auto.
      * eexists. split; [rewrite He2, He, <-app_assoc; reflexivity|].
        exists vs, fin, [HostErrorEvent e async]. rewrite <-app_assoc. eauto.
Qed.

(** X9.  The events one call of [render] delivers are, in this order:
    intermediate value events, at most one value event that is not
    intermediate, and at most one error event, all of them with [async]
    false; a reset event is never among them.  When [render] returns, at
    least one event has been delivered.  The same holds of one run of
    [#renderAsync] with [async] true, except that it may return having
    delivered nothing. *)
Theorem render_event_grammar :
  (∀ fuel a (w : World),
     match render fuel a w with
     | Done _ w' =>
         ∃ evs, events w' = events w ++ evs ∧ renderEvents false evs ∧ evs ≠ []
     | Raise _ w' => ∃ evs, events w' = events w ++ evs ∧ renderEvents false evs
     | Timeout => True
     end) ∧
  (∀ fuel (w : World),
     match renderAsync fuel w with
     | Done _ w' | Raise _ w' =>
         ∃ evs, events w' = events w ++ evs ∧ renderEvents true evs
     | Timeout => True
     end).
Proof.
  split.
  - intros fuel a w. rewrite render_eq. unfold bind at 1, modify at 1.
    exact (caught_grammar fuel false (setArgs a w)).
  - intros fuel w. rewrite renderAsync_eq. unfold tryCatch, bind at 1.
    destruct (Memory_applyStateChanges_Done w) as (b & st & ->).
    destruct b.
    + pose proof (caught_grammar fuel true (setStore st w)) as Hc.
      unfold tryCatch in Hc.
      destruct (render' fuel true (setStore st w)) as [[] w1|e w1|];
        [| |done].
      * destruct Hc as (evs & He & Hg & _). eauto.
      * destruct (onError true e w1) as [[] w2|e2 w2|]; [| |done].
        -- destruct Hc as (evs & He & Hg & _). eauto.
        -- exact Hc.
    + exists []. rewrite app_nil_r. split; [done|].
      exists [], [], []. auto.
Qed.

(** ** The state a call of [render] leaves *)

Lemma renderLoop_rewound fuel async valueEvent (w : World) :
  match renderLoop fuel async valueEvent w with
  | Done _ w' => pointer (memory w') = 0
  | _ => True
  end.
Proof.
  revert valueEvent w. induction fuel as [|fuel IH]; intros ve w; [done|].
  rewrite renderLoop_S. unfold bind at 1.
  assert (Hpass : ∀ w1 : World,
    match (let* v := invokeAgent in
           let* _ := Memory_reset notActive false in
           let* changed := Memory_applyStateChanges in
           if (changed : bool) then renderLoop fuel async (Some v)
           else
             let* _ := Memory_triggerEffects notActive in
             let* changed := Memory_applyStateChanges in
             if (changed : bool) then renderLoop fuel async (Some v)
             else emit (HostValueEvent v async false)) w1 with
    | Done _ w' => pointer (memory w') = 0
    | _ => True
    end).
  { intros w1. unfold bind at 1.
    destruct (invokeAgent w1) as [v w2|e w2|]; [|done..].
    unfold bind at 1. rewrite Memory_reset_soft. unfold bind at 1.
    destruct (Memory_applyStateChanges_Done (setPointer 0 w2))
      as (b & st & ->).
    destruct b; [apply IH|]. unfold bind at 1.
    pose proof (Memory_triggerEffects_samePointer notActive
                  (setStore st (setPointer 0 w2))) as Htr.
    destruct (Memory_triggerEffects notActive _) as [[] w5|e w5|]; [|done..].
    unfold samePointer in Htr. simpl in Htr. unfold bind at 1.
    destruct (Memory_applyStateChanges_Done w5) as (b & st' & ->).
    destruct b; [apply IH|]. rewrite emit_eq.
    destruct (thrown (listener _)); [done|]. by rewrite heard_memory. }
  destruct ve as [v0|]; simpl; [|apply Hpass].
  rewrite emit_eq. destruct (thrown (listener _)); [done|]. apply Hpass.
Qed.

(** X10.  When [render] returns, the cursor of the memory is back at the
    first slot, and the only updates pending in the state cells of the
    memory are those the listener itself queued while it handled the last
    event of the call: before that event was delivered no state cell had an
    update pending.  With a listener that calls no setter the host is left
    with nothing pending. *)
Theorem render_leaves_rewound fuel a (w w' : World) :
  render fuel a w = Done tt w' →
  pointer (memory w') = 0 ∧
  ∃ (w0 : World) ev,
    drained w0 ∧ memory w' = memory w0 ∧
    last (events w') = Some ev ∧
    store w' = queued (listener ev) (store w0) ∧
    ((∀ l, updatesTo l (listener ev) = []) → drained w').
Proof.
  assert (Hheard : ∀ (w0 : World) ev, drained w0 →
    ∃ (w1 : World) ev',
      drained w1 ∧ memory (heard ev w0) = memory w1 ∧
      last (events (heard ev w0)) = Some ev' ∧
      store (heard ev w0) = queued (listener ev') (store w1) ∧
      ((∀ l, updatesTo l (listener ev') = []) → drained (heard ev w0))).
  { intros w0 ev Hd. exists w0, ev. split; [done|].
    assert (Hst : store (heard ev w0) = queued (listener ev) (store w0)).
    { exact (afterSetters_queued notActive (notActive_stable this)
               (listener ev) (deliver ev w0)). }
    rewrite heard_memory, heard_events, last_snoc. repeat split; try done.
    intros Hno. unfold drained. rewrite heard_memory, Hst.
    by rewrite queued_no_calls. }
  rewrite render_eq. unfold bind at 1, modify at 1, tryCatch.
  pose proof (renderLoop_rewound fuel false None (setArgs a w)) as Hp.
  pose proof (renderLoop_settled depsEqual this agent listener fuel false None
                (setArgs a w) (or_introl eq_refl)) as Hs.
  rewrite <-render'_eq in Hp, Hs.
  destruct (render' fuel false (setArgs a w)) as [[] w1|e w1|]; [| |done].
  - intros [= <-]. split; [done|].
    destruct Hs as (_ & w0 & ev & Hd & ->). by apply Hheard.
  - rewrite onError_eq. unfold bind at 1.
    destruct (Memory_reset notActive true w1) as [[] w2|?|] eqn:Hreset;
      [|done..].
    apply Memory_reset_hard_empty in Hreset. rewrite emit_eq.
    destruct (thrown (listener _)); [done|]. intros [= <-].
    split; [by rewrite heard_memory, Hreset|].
    apply Hheard. intros i l c. rewrite Hreset. simpl. by rewrite lookup_nil.
Qed.

(** ** Setters called while the agent runs *)

(** X11.  An invocation of the agent never schedules a re-render,
    whatever setters are called while it runs, by the agent's body, by an
    initialiser of [useState] or by a producer of [useMemo]: the host is the
    active host for all of the invocation, on both exits. *)
Theorem invokeAgent_never_schedules (w : World) :
  match invokeAgent w with
  | Done _ w' | Raise _ w' => microtasks w' = microtasks w
  | Timeout => False
  end.
Proof.
  rewrite invokeAgent_eq. unfold tryFinally, bind, modify, gets. simpl.
  destruct (args w) as [a|]; simpl; [|done].
  pose proof (runAgent_unscheduled depsEqual this notActive
    (notActive_stable this) (agent a)
    (record (CallAgent a) (setActiveHost (Some this) w))) as Hr.
  assert (Hd : notActive (record (CallAgent a) (setActiveHost (Some this) w))
               = false).
  { apply bool_decide_eq_false_2. by intros ?. }
  destruct (runAgent _ _ _ _ _) as [v w1|e w1|]; [| |done];
    by destruct (Hr Hd) as [_ Hm].
Qed.

(** ** [reset] and what remains afterwards *)

(** X12.  [reset()] invokes no agent and leaves the stored arguments and
    the active host alone.  When it returns, the memory is empty, with the
    cursor at the first slot, and exactly one event has been delivered, the
    reset event.  It throws only when the listener throws on the reset
    event, the memory being empty by then: a clean-up that throws does not
    stop the teardown. *)
Theorem reset_spec (w : World) :
  match reset w with
  | Done _ w' =>
      memory w' = mkMemory [] 0 ∧
      events w' = events w ++ [HostResetEvent] ∧
      args w' = args w ∧ activeHost w' = activeHost w ∧
      agentCalls (calls w') = agentCalls (calls w)
  | Raise e w' =>
      args w' = args w ∧ activeHost w' = activeHost w ∧
      agentCalls (calls w') = agentCalls (calls w) ∧
      memory w' = mkMemory [] 0 ∧
      events w' = events w ++ [HostResetEvent] ∧
      ∃ x, thrown (listener HostResetEvent) = Some x ∧ e = Thrown x
  | Timeout => False
  end.
Proof.
  rewrite reset_eq. unfold bind at 1.
  pose proof (Memory_reset_internal notActive true w) as Hi.
  pose proof (Memory_reset_hard_returns notActive w) as Hret.
  destruct (Memory_reset notActive true w) as [[] w1|e1 w1|] eqn:Hreset;
    [| |done];
    destruct Hi as (Ha & _ & Hg & He & h & Hc & Hq);
    assert (Hcalls : agentCalls (calls w1) = agentCalls (calls w))
      by (by rewrite Hc, agentCalls_app, (agentCalls_quiet h Hq), app_nil_r).
  - apply Memory_reset_hard_empty in Hreset. rewrite emit_eq.
    destruct (thrown (listener HostResetEvent)) as [x|] eqn:Hl; simpl;
      rewrite heard_memory, heard_events, heard_args, heard_activeHost,
        heard_calls, He; [|done].
    repeat split; try done. eauto.
  - by destruct Hret as (w2 & [=] & _).
Qed.

(** X13.  A second [reset()] right after one that returned finds nothing to
    clean up: it invokes no clean-up and changes nothing but what the
    listener does when it is handed one more reset event; the memory stays
    empty. *)
Theorem reset_twice (w w' : World) :
  reset w = Done tt w' →
  reset w' = Done tt (heard HostResetEvent w') ∧
  memory (heard HostResetEvent w') = mkMemory [] 0 ∧
  calls (heard HostResetEvent w') = calls w' ∧
  events (heard HostResetEvent w') = events w' ++ [HostResetEvent] ∧
  store (heard HostResetEvent w')
  = queued (listener HostResetEvent) (store w') ∧
  (setterCalls (listener HostResetEvent) = 0 →
   heard HostResetEvent w' = deliver HostResetEvent w').
Proof.
  rewrite reset_eq. unfold bind at 1.
  destruct (Memory_reset notActive true w) as [[] w1|?|] eqn:Hreset;
    [|done..].
  apply Memory_reset_hard_empty in Hreset. rewrite emit_eq.
  destruct (thrown (listener HostResetEvent)) as [x|] eqn:Hl; [done|].
  intros [= <-].
  assert (Hm : memory (heard HostResetEvent w1) = mkMemory [] 0)
    by (by rewrite heard_memory).
  rewrite !heard_memory, !heard_calls, !heard_events, Hreset.
  repeat split;
    [|exact (afterSetters_queued notActive (notActive_stable this)
               (listener HostResetEvent)
               (deliver HostResetEvent (heard HostResetEvent w1)))
     |intros Hno; by apply heard_no_setters].
  set (w2 := heard HostResetEvent w1) in *. clearbody w2.
  unfold bind at 1, Memory_reset, bind at 1, gets at 1. simpl.
  rewrite Hm. simpl. rewrite emit_eq, Hl. do 2 f_equal.
  destruct w2 as [? ? ? m ? ? ? ?]. simpl in Hm. by subst m.
Qed.

(** X14.  Once the memory is empty, as [reset()] and the [catch] blocks of
    [render] and [#renderAsync] leave it, a setter obtained before is
    without effect: its call still succeeds, but the re-render it schedules
    finds no state cell, reports no change and returns at once, having
    invoked nothing and delivered nothing. *)
Theorem stale_setter_is_inert fuel l u (w : World) :
  memoryCells (memory w) = [] →
  ∃ w1, setState notActive l u w = Done tt w1 ∧
        renderAsync fuel w1 = Done tt w1 ∧
        memory w1 = memory w ∧ events w1 = events w ∧ calls w1 = calls w.
Proof.
  intros Hm. rewrite setState_spec. eexists. split; [reflexivity|].
  simpl.
  match goal with |- renderAsync _ ?w1 = _ ∧ _ =>
    assert (Hm1 : memoryCells (memory w1) = [])
      by (by destruct (notActive _));
    split; [|by destruct (notActive _)];
    generalize dependent w1
  end.
  intros w1 Hm1. rewrite renderAsync_eq.
  unfold tryCatch, bind at 1, Memory_applyStateChanges. rewrite Hm1. simpl.
  by destruct w1.
Qed.

End RenderProperties.

(** * Further properties of [Host] of the older variant *)

Section HookVariantProperties.

Context {V : Type} `{!EqDecision V}.

Local Abbreviation World := (World V (Hook.HostEvent V)).
Local Abbreviation M := (M V (Hook.HostEvent V)).

Variable depsEqual : option (list V) → option (list V) → bool.
Variable this : HostId.
Variable hook : list V → Agent V.
Variable eventListener : Hook.HostEvent V → Callback V unit.

Local Abbreviation heard := (Hook.heard eventListener).

(** A relation kept by the steps of the render procedure is kept by its
    loops. *)
Lemma Hook_renderLoop_whenever (R : relation World) `{!PreOrder R} :
  (∀ ev w, R w (heard ev w)) →
  always R (Hook.invokeHook depsEqual this hook) →
  always R (Memory_reset Hook.notRendering false) →
  always R (Memory_applyStateChanges (V:=V)) →
  always R (Memory_triggerEffects Hook.notRendering) →
  ∀ fuel results,
    whenever R (Hook.renderLoop depsEqual this hook eventListener fuel results).
Proof.
  intros Hdel Hinv Hreset Happ Htr fuel.
  induction fuel as [|fuel IH]; intros results; [done|].
  rewrite Hook_renderLoop_S.
  apply whenever_bind; [tc_solve|by apply always_whenever|intros v].
  apply whenever_bind; [tc_solve|by apply always_whenever|intros _].
  apply whenever_bind; [tc_solve|by apply always_whenever|intros b].
  destruct b; [apply IH|].
  apply whenever_bind; [tc_solve|by apply always_whenever|intros _].
  apply whenever_bind; [tc_solve|by apply always_whenever|intros b].
  destruct b; [apply IH|]. apply always_whenever.
  intros w. rewrite Hook_emit_eq. by destruct (thrown (eventListener _)).
Qed.

(** ** The two module-level variables *)

Lemma Hook_invokeHook_settled (w : World) :
  match Hook.invokeHook depsEqual this hook w with
  | Done _ w' | Raise _ w' => activeHost w' = None ∧ rendering w' = rendering w
  | Timeout => False
  end.
Proof.
  unfold Hook.invokeHook, tryFinally, bind, modify, gets. simpl.
  destruct (args w) as [a|]; simpl; [|done].
  pose proof (runAgent_internal depsEqual this Hook.notRendering (hook a)
    (record (CallAgent a) (setActiveHost (Some this) w))) as Hr.
  destruct (runAgent _ _ _ _ _) as [v w1|e w1|]; [| |done];
    by destruct Hr as (_ & Hr & _).
Qed.

(** The active host and the flag, once cleared and set, stay so. *)
Definition flagsKept (w w' : World) : Prop :=
  activeHost w = None → rendering w = true →
  activeHost w' = None ∧ rendering w' = true.

Global Instance flagsKept_preorder : PreOrder flagsKept.
Proof.
  split; [by intros w|].
  intros w1 w2 w3 H1 H2 Ha Hr. destruct (H1 Ha Hr) as [Ha2 Hr2].
  by apply H2.
Qed.

Lemma internal_flagsKept {A} (m : M A) :
  always internal m → always flagsKept m.
Proof.
  apply always_weaken. intros w w' (Ha & Hr & _) Ha0 Hr0.
  split; congruence.
Qed.

Lemma Hook_renderLoop_settled fuel results (w : World) :
  rendering w = true →
  match Hook.renderLoop depsEqual this hook eventListener fuel results w with
  | Done _ w' | Raise _ w' => activeHost w' = None ∧ rendering w' = true
  | Timeout => True
  end.
Proof.
  intros Hrw. destruct fuel as [|fuel]; [done|].
  rewrite Hook_renderLoop_S. unfold bind at 1.
  pose proof (Hook_invokeHook_settled w) as Hinv.
  destruct (Hook.invokeHook depsEqual this hook w) as [v w1|e w1|];
    [|destruct Hinv; split; congruence|done].
  destruct Hinv as [Ha1 Hr1]. rewrite Hrw in Hr1.
  assert (Hrest : whenever flagsKept
    (let* _ := Memory_reset Hook.notRendering false in
     let* changed := Memory_applyStateChanges in
     if (changed : bool)
     then Hook.renderLoop depsEqual this hook eventListener fuel
            (v :: results)
     else
       let* _ := Memory_triggerEffects Hook.notRendering in
       let* changed := Memory_applyStateChanges in
       if (changed : bool)
       then Hook.renderLoop depsEqual this hook eventListener fuel
              (v :: results)
       else Hook.emit eventListener (Hook.HostRenderingEvent v results))).
  { assert (Hloop : ∀ fuel results, whenever flagsKept
      (Hook.renderLoop depsEqual this hook eventListener fuel results)).
    { apply Hook_renderLoop_whenever; [tc_solve| | | | |].
      - intros ev w0 Ha0 Hr0.
        destruct (Hook_heard_same eventListener ev w0) as (-> & -> & _).
        done.
      - intros w0. pose proof (Hook_invokeHook_settled w0) as H0.
        destruct (Hook.invokeHook _ _ _ w0); [| |done];
          intros _ Hr0; destruct H0; split; congruence.
      - apply internal_flagsKept, Memory_reset_internal.
      - apply internal_flagsKept, Memory_applyStateChanges_internal.
      - apply internal_flagsKept, Memory_triggerEffects_internal. }
    apply whenever_bind; [tc_solve| |intros _].
    { apply always_whenever, internal_flagsKept, Memory_reset_internal. }
    apply whenever_bind; [tc_solve| |intros b].
    { apply always_whenever, internal_flagsKept,
        Memory_applyStateChanges_internal. }
    destruct b; [apply Hloop|].
    apply whenever_bind; [tc_solve| |intros _].
    { apply always_whenever, internal_flagsKept,
        Memory_triggerEffects_internal. }
    apply whenever_bind; [tc_solve| |intros b].
    { apply always_whenever, internal_flagsKept,
        Memory_applyStateChanges_internal. }
    destruct b; [apply Hloop|]. intros w0. rewrite Hook_emit_eq.
    destruct (thrown (eventListener _)); intros Ha0 Hr0;
      destruct (Hook_heard_same eventListener
                  (Hook.HostRenderingEvent v results) w0) as (-> & -> & _);
      done. }
  specialize (Hrest w1).
  match goal with |- match ?r with _ => _ end =>
    destruct r as [[] w2|e w2|]; [| |done]; by apply Hrest
  end.
Qed.

(** X15.  The older variant never leaves its two module-level variables
    set: whenever [render] ends, by returning or by throwing, the
    [rendering] flag is false and no host is active, and the same holds of
    the render procedure itself; [#renderAsynchronously] leaves them so, or
    as it found them when it finds no change and invokes nothing. *)
Theorem Hook_flags_never_left_set :
  (∀ fuel (w : World),
     match Hook.render' depsEqual this hook eventListener fuel w with
     | Done _ w' | Raise _ w' => rendering w' = false ∧ activeHost w' = None
     | Timeout => True
     end) ∧
  (∀ fuel a (w : World),
     match Hook.render depsEqual this hook eventListener fuel a w with
     | Done _ w' | Raise _ w' => rendering w' = false ∧ activeHost w' = None
     | Timeout => True
     end) ∧
  (∀ fuel (w : World),
     match Hook.renderAsynchronously depsEqual this hook eventListener fuel w
     with
     | Done _ w' | Raise _ w' =>
         (rendering w' = false ∧ activeHost w' = None) ∨
         (rendering w' = rendering w ∧ activeHost w' = activeHost w ∧
          calls w' = calls w ∧ events w' = events w)
     | Timeout => True
     end).
Proof.
  assert (Hrender' : ∀ fuel (w : World),
     match Hook.render' depsEqual this hook eventListener fuel w with
     | Done _ w' | Raise _ w' => rendering w' = false ∧ activeHost w' = None
     | Timeout => True
     end).
  { intros fuel w. unfold Hook.render', tryFinally, bind at 1, modify at 1.
    pose proof (Hook_renderLoop_settled fuel [] (setRendering true w) eq_refl)
      as Hs.
    destruct (Hook.renderLoop _ _ _ _ _ _ _) as [[] w1|e w1|]; [| |done];
      by destruct Hs. }
  assert (Hcatch : ∀ fuel (w : World),
     match tryCatch (Hook.render' depsEqual this hook eventListener fuel)
             (Hook.onError eventListener) w with
     | Done _ w' | Raise _ w' => rendering w' = false ∧ activeHost w' = None
     | Timeout => True
     end).
  { intros fuel w. unfold tryCatch. specialize (Hrender' fuel w).
    destruct (Hook.render' _ _ _ _ _ w) as [[] w1|e w1|]; [done| |done].
    unfold Hook.onError, bind at 1.
    pose proof (Memory_reset_internal Hook.notRendering true w1) as Hi.
    destruct (Memory_reset Hook.notRendering true w1) as [[] w2|e2 w2|];
      [| |done]; destruct Hi as (Ha & Hr & _); destruct Hrender';
      [|split; congruence].
    rewrite Hook_emit_eq.
    destruct (Hook_heard_same eventListener (Hook.HostErrorEvent e) w2)
      as (Ha' & Hr' & _).
    destruct (thrown (eventListener _)); simpl; split; congruence. }
  split; [exact Hrender'|]. split.
  - intros fuel a w. unfold Hook.render, bind at 1, modify at 1.
    apply Hcatch.
  - intros fuel w. unfold Hook.renderAsynchronously.
    destruct (Memory_applyStateChanges_Done w) as (b & st & Happ).
    destruct b.
    + assert (Heq : tryCatch
        (let* changed := Memory_applyStateChanges in
         if (changed : bool)
         then Hook.render' depsEqual this hook eventListener fuel
         else ret tt) (Hook.onError eventListener) w
        = tryCatch (Hook.render' depsEqual this hook eventListener fuel)
            (Hook.onError eventListener) (setStore st w)).
      { unfold tryCatch, bind at 1. by rewrite Happ. }
      pose proof (Hcatch fuel (setStore st w)) as Hc.
      rewrite Heq. clear Heq.
      destruct (tryCatch _ _ (setStore st w)); [| |done]; by left.
    + unfold tryCatch, bind at 1. rewrite Happ. simpl. by right.
Qed.

(** ** Scheduling while rendering *)

Lemma Hook_invokeHook_unscheduled :
  always (unscheduled Hook.notRendering)
    (Hook.invokeHook depsEqual this hook).
Proof.
  unfold Hook.invokeHook.
  apply always_tryFinally; [tc_solve| |].
  - apply always_bind; [tc_solve| |intros _].
    { apply always_modify. intros w Hd; split; [exact Hd|reflexivity]. }
    apply always_bind; [tc_solve|always_step|intros a].
    destruct a as [a|]; [|always_step].
    apply always_bind; [tc_solve| |intros _].
    { apply always_modify. intros w Hd; split; [exact Hd|reflexivity]. }
    apply always_bind; [tc_solve| |intros v].
    { apply runAgent_unscheduled, notRendering_stable. }
    apply always_bind; [tc_solve| |intros _; always_step].
    apply always_modify. intros w Hd; split; [exact Hd|reflexivity].
  - apply always_modify. intros w Hd; split; [exact Hd|reflexivity].
Qed.

(** X16.  In the older variant nothing is scheduled while the render
    procedure runs: no setter call made during it, by the hook's body, by
    an effect or by a clean-up, adds a microtask, in whichever pass and
    however the procedure ends; the updates are picked up by the loops of
    the procedure itself. *)
Theorem Hook_render_never_schedules fuel (w : World) :
  match Hook.render' depsEqual this hook eventListener fuel w with
  | Done _ w' | Raise _ w' => microtasks w' = microtasks w
  | Timeout => True
  end.
Proof.
  unfold Hook.render', tryFinally, bind at 1, modify at 1.
  pose proof (Hook_renderLoop_whenever (unscheduled Hook.notRendering)) as Hl.
  assert (Hheard : ∀ ev (w0 : World),
            unscheduled Hook.notRendering w0 (heard ev w0)).
  { intros ev w0.
    pose proof (runCallback_unscheduled Hook.notRendering notRendering_stable
                  (eventListener ev) (deliver ev w0)) as Hu.
    pose proof (runCallback_world Hook.notRendering (eventListener ev)
                  (deliver ev w0)) as Hw.
    destruct (runCallback _ _ _); [| |done]; by subst. }
  specialize (Hl Hheard).
  specialize (Hl Hook_invokeHook_unscheduled
    (Memory_reset_unscheduled Hook.notRendering notRendering_stable false)
    (Memory_applyStateChanges_unscheduled Hook.notRendering
       notRendering_stable)
    (Memory_triggerEffects_unscheduled Hook.notRendering notRendering_stable)
    fuel [] (setRendering true w)).
  destruct (Hook.renderLoop _ _ _ _ _ _ _) as [[] w1|e w1|]; [| |done];
    by destruct (Hl eq_refl) as [_ Hm].
Qed.

(** ** The event of a render call that returns *)

(** X17.  When the render procedure of the older variant returns during
    [render(...args)], so does [render], and exactly one event has been
    delivered: a rendering event whose result is the value of the last
    pass and whose interim results are the values of the earlier passes,
    most recent first. *)
Theorem Hook_render_rendering_event fuel a (w w1 : World) :
  Hook.render' depsEqual this hook eventListener fuel (setArgs a w)
    = Done tt w1 →
  Hook.render depsEqual this hook eventListener fuel a w = Done tt w1 ∧
  ∃ h vs v,
    calls w1 = calls w ++ h ∧ agentReturns h = vs ++ [v] ∧
    events w1 = events w ++ [Hook.HostRenderingEvent v (rev vs)].
Proof.
  intros Hr. split.
  - unfold Hook.render, bind at 1, modify at 1, tryCatch. by rewrite Hr.
  - by apply (Hook_render'_returns depsEqual this hook eventListener fuel
                (setArgs a w) w1).
Qed.

(** ** A render procedure that throws *)

Lemma Hook_invokeHook_events (w : World) :
  match Hook.invokeHook depsEqual this hook w with
  | Done _ w' | Raise _ w' => events w' = events w
  | Timeout => False
  end.
Proof.
  unfold Hook.invokeHook, tryFinally, bind, modify, gets. simpl.
  destruct (args w) as [a|]; simpl; [|done].
  pose proof (runAgent_internal depsEqual this Hook.notRendering (hook a)
    (record (CallAgent a) (setActiveHost (Some this) w))) as Hr.
  destruct (runAgent _ _ _ _ _) as [v w1|e w1|]; [| |done];
    by destruct Hr as (_ & _ & _ & He & _).
Qed.

(** What a run of the loops that throws has delivered. *)
Definition droppedResults (w : World) (r : Res V (Hook.HostEvent V) unit)
    : Prop :=
  match r with
  | Raise e w' =>
      events w' = events w ∨
      ∃ v interim x,
        events w' = events w ++ [Hook.HostRenderingEvent v interim] ∧
        thrown (eventListener (Hook.HostRenderingEvent v interim)) = Some x ∧
        e = Thrown x
  | _ => True
  end.

Lemma droppedResults_from (w w1 : World) r :
  events w1 = events w → droppedResults w1 r → droppedResults w r.
Proof. intros He. destruct r; simpl; try done. by rewrite He. Qed.

Lemma Hook_renderLoop_raises fuel results (w : World) :
  droppedResults w
    (Hook.renderLoop depsEqual this hook eventListener fuel results w).
Proof.
  revert results w. induction fuel as [|fuel IH]; intros results w; [done|].
  rewrite Hook_renderLoop_S. unfold bind at 1.
  pose proof (Hook_invokeHook_events w) as Hinv.
  destruct (Hook.invokeHook depsEqual this hook w) as [v w1|e w1|];
    [|by left|done].
  unfold bind at 1. simpl Memory_reset. unfold modify at 1. unfold bind at 1.
  destruct (Memory_applyStateChanges_Done (setPointer 0 w1)) as (b & st & ->).
  destruct b.
  { eapply droppedResults_from; [|apply IH]. by simpl. }
  unfold bind at 1.
  pose proof (Memory_triggerEffects_internal Hook.notRendering
                (setStore st (setPointer 0 w1))) as Htr.
  destruct (Memory_triggerEffects _ _) as [[] w5|e w5|]; [| |done];
    destruct Htr as (_ & _ & _ & He5 & _); simpl in He5;
    [|left; congruence].
  unfold bind at 1.
  destruct (Memory_applyStateChanges_Done w5) as (b & st' & ->).
  destruct b.
  { eapply droppedResults_from; [|apply IH]. simpl. congruence. }
  rewrite Hook_emit_eq.
  destruct (thrown (eventListener _)) as [x|] eqn:Hl; [|done].
  right. exists v, results, x. simpl.
  destruct (Hook_heard_same eventListener (Hook.HostRenderingEvent v results)
              (setStore st' w5)) as (_ & _ & _ & -> & _).
  split; [simpl; congruence|done].
Qed.

(** X18.  When the render procedure of the older variant throws, the
    results of the passes made so far are dropped: either no event at all
    has been delivered, whichever pass the hook or an effect threw in, or
    the one rendering event has been delivered and it is the listener that
    threw on it.  The [rendering] flag is cleared. *)
Theorem Hook_render_throw_drops_results fuel (w w' : World) e :
  Hook.render' depsEqual this hook eventListener fuel w = Raise e w' →
  rendering w' = false ∧
  (events w' = events w ∨
   ∃ v interim x,
     events w' = events w ++ [Hook.HostRenderingEvent v interim] ∧
     thrown (eventListener (Hook.HostRenderingEvent v interim)) = Some x ∧
     e = Thrown x).
Proof.
  unfold Hook.render', tryFinally, bind at 1, modify at 1.
  pose proof (Hook_renderLoop_raises fuel [] (setRendering true w)) as Hd.
  destruct (Hook.renderLoop _ _ _ _ _ _ _) as [[] w1|e1 w1|]; [done| |done].
  intros [= <- <-]. split; [done|]. exact Hd.
Qed.

(** ** [reset] of the older variant *)

(** X19.  [reset()] of the older variant invokes no hook and leaves the
    stored arguments and the two module-level variables alone.  When it
    returns, the memory is empty, with the cursor at the first slot, and
    exactly one event has been delivered, the reset event.  It throws only
    when the listener throws on the reset event, the memory being empty by
    then: a clean-up that throws does not stop the teardown. *)
Theorem Hook_reset_spec (w : World) :
  match Hook.reset eventListener w with
  | Done _ w' =>
      memory w' = mkMemory [] 0 ∧
      events w' = events w ++ [Hook.HostResetEvent] ∧
      args w' = args w ∧ activeHost w' = activeHost w ∧
      rendering w' = rendering w ∧
      agentCalls (calls w') = agentCalls (calls w)
  | Raise e w' =>
      args w' = args w ∧ activeHost w' = activeHost w ∧
      rendering w' = rendering w ∧
      agentCalls (calls w') = agentCalls (calls w) ∧
      memory w' = mkMemory [] 0 ∧
      events w' = events w ++ [Hook.HostResetEvent] ∧
      ∃ x, thrown (eventListener Hook.HostResetEvent) = Some x ∧
           e = Thrown x
  | Timeout => False
  end.
Proof.
  unfold Hook.reset, bind at 1.
  pose proof (Memory_reset_internal Hook.notRendering true w) as Hi.
  pose proof (Memory_reset_hard_returns Hook.notRendering w) as Hret.
  destruct (Memory_reset Hook.notRendering true w) as [[] w1|e1 w1|]
    eqn:Hreset; [| |done];
    destruct Hi as (Ha & Hr & Hg & He & h & Hc & Hq);
    assert (Hcalls : agentCalls (calls w1) = agentCalls (calls w))
      by (by rewrite Hc, agentCalls_app, (agentCalls_quiet h Hq), app_nil_r).
  - apply Memory_reset_hard_empty in Hreset. rewrite Hook_emit_eq.
    destruct (Hook_heard_same eventListener Hook.HostResetEvent w1)
      as (Ha' & Hr' & Hg' & He' & Hc' & Hm').
    destruct (thrown (eventListener Hook.HostResetEvent)) as [x|] eqn:Hl;
      simpl; rewrite Ha', Hr', Hg', He', Hc', Hm', He; [|done].
    repeat split; try done. eauto.
  - by destruct Hret as (w2 & [=] & _).
Qed.

End HookVariantProperties.

(** * Scenarios for the further properties *)

Section MoreRuns.

Local Abbreviation WorldOfHook := (World nat (Hook.HostEvent nat)).
Local Abbreviation World := (World nat (HostEvent nat)).

(** A host in the middle of its first agent invocation, nothing written
    yet. *)
Definition atFirstSlot : World := setActiveHost (Some 0) newHost.

(** A world in the middle of an agent invocation, the cursor at a state
    cell that has an update pending. *)
Definition atStateCell : World :=
  mkWorld (Some 0) false [mkState 5 [Replace 6]] (mkMemory [MState 0] 0)
    (Some []) 0 [] [].

(** An agent with a state it never sets and an effect that returns a
    clean-up. *)
Definition agentWithCleanup (a : list nat) : Agent nat :=
  UseState (InitValue 4) (λ s set,
    UseEffect (CbReturn (Some (CbReturn tt))) (Some []) (Return s)).

Definition cleanupWorld : World :=
  Eval vm_compute in
    finalWorld (render areDependenciesEqual 0 agentWithCleanup quiet 1 []
                  newHost) newHost.

Definition afterReset : World :=
  Eval vm_compute in finalWorld (reset 0 quiet cleanupWorld) newHost.

Definition hookQuiet : Hook.HostEvent nat → Callback nat unit :=
  λ _, CbReturn tt.

Definition hookHost : WorldOfHook :=
  mkWorld None false [] (mkMemory [] 0) None 0 [] [].

Definition hookCountedWorld : WorldOfHook :=
  Eval vm_compute in
    finalWorld (Hook.render' areDependenciesEqual 0 agentCount hookQuiet 5
                  (setArgs [] hookHost)) hookHost.

Lemma hooks_need_active_host_witness :
  activeHost (newHost : World) = None ∧
  useState 0 (notActive 0) (InitFunction (CbReturn 1)) (newHost : World)
  = Raise NoActiveHost newHost ∧
  useEffect areDependenciesEqual 0 (CbReturn None) None (newHost : World)
  = Raise NoActiveHost newHost ∧
  useMemo areDependenciesEqual 0 (notActive 0) (CbReturn 1) [] (newHost : World)
  = Raise NoActiveHost newHost ∧
  useCallback areDependenciesEqual 0 (notActive 0) 1 [] (newHost : World)
  = Raise NoActiveHost newHost.
Proof.
  split; [reflexivity|].
  apply (hooks_need_active_host areDependenciesEqual 0 (notActive 0)
           (InitFunction (CbReturn 1)) (CbReturn None) None (CbReturn 1) [] 1
           (newHost : World)).
  reflexivity.
Defined.

Lemma useState_keeps_cell_witness :
  activeHost atStateCell = Some 0 ∧
  memoryCells (memory atStateCell) !! pointer (memory atStateCell)
  = Some (MState 0) ∧
  store atStateCell !! 0 = Some (mkState 5 [Replace 6]) ∧
  useState 0 (notActive 0) (InitFunction (CbThrow 9)) atStateCell
  = Done (5, 0) (setPointer 1 atStateCell).
Proof.
  split; [reflexivity|]. split; [reflexivity|]. split; [reflexivity|].
  exact (useState_keeps_cell 0 (notActive 0) (InitFunction (CbThrow 9))
           atStateCell 0 (mkState 5 [Replace 6]) eq_refl eq_refl eq_refl).
Defined.

Lemma useState_first_call_witness :
  activeHost atFirstSlot = Some 0 ∧
  memoryCells (memory atFirstSlot) !! pointer (memory atFirstSlot) = None ∧
  useState 0 (notActive 0) (InitValue 3) atFirstSlot
  = Done (3, 0)
      (mkWorld (Some 0) false [mkState 3 []] (mkMemory [MState 0] 1) None 0
         [] []) ∧
  useState 0 (notActive 0) (InitFunction (CbReturn 3)) atFirstSlot
  = Done (3, 0)
      (mkWorld (Some 0) false [mkState 3 []] (mkMemory [MState 0] 1) None 0
         [] [CallInitialState 0]) ∧
  useState 0 (notActive 0) (InitFunction (CbThrow 4)) atFirstSlot
  = Raise (Thrown 4) (record (CallInitialState 0) atFirstSlot).
Proof.
  pose proof (useState_first_call 0 (notActive 0) atFirstSlot eq_refl eq_refl)
    as [Hvalue Hfunction].
  split; [reflexivity|]. split; [reflexivity|]. split; [exact (Hvalue 3)|].
  split.
  - exact (proj1 (Hfunction (CbReturn 3))).
  - exact (proj1 (Hfunction (CbThrow 4))).
Defined.

Lemma useMemo_producer_throws_witness :
  activeHost atMemoCell = Some 0 ∧
  throws (V:=nat) (CbThrow 9 : Callback nat nat) = true ∧
  areDependenciesEqual (Some [7]) (Some [8]) = false ∧
  ∃ x w', useMemo areDependenciesEqual 0 (notActive 0) (CbThrow 9) [8]
            atMemoCell = Raise (Thrown x) w' ∧
          memory w' = memory atMemoCell ∧
          calls w' = calls atMemoCell ++ [CallCreateValue 0].
Proof.
  split; [reflexivity|]. split; [reflexivity|]. split; [reflexivity|].
  exact (useMemo_producer_throws areDependenciesEqual 0 (notActive 0)
           (CbThrow 9) [8] atMemoCell eq_refl eq_refl eq_refl).
Defined.

Lemma useCallback_returns_witness :
  activeHost atMemoCell = Some 0 ∧
  (∃ w', useCallback areDependenciesEqual 0 (notActive 0) 9 [7] atMemoCell
         = Done 5 w' ∧
         store w' = store atMemoCell ∧
         microtasks w' = microtasks atMemoCell ∧
         pointer (memory w') = 1 ∧
         memoryCells (memory w') = memoryCells (memory atMemoCell)) ∧
  (∃ w', useCallback areDependenciesEqual 0 (notActive 0) 9 [8] atMemoCell
         = Done 9 w' ∧
         store w' = store atMemoCell ∧
         microtasks w' = microtasks atMemoCell ∧
         pointer (memory w') = 1 ∧
         memoryCells (memory w') = [MMemo (mkMemo 9 [8])]).
Proof.
  split; [reflexivity|]. split.
  - exact (useCallback_returns areDependenciesEqual 0 (notActive 0) 9 [7]
             atMemoCell eq_refl).
  - exact (useCallback_returns areDependenciesEqual 0 (notActive 0) 9 [8]
             atMemoCell eq_refl).
Defined.

(** A listener that, handed the value 2 in an event that is not
    intermediate, sets the state of the first cell to 3. *)
Definition setsOnTwo (ev : HostEvent nat) : Callback nat unit :=
  match ev with
  | HostValueEvent 2 _ false => CbSetState 0 (Replace 3) (CbReturn tt)
  | _ => CbReturn tt
  end.

Definition listenerSetWorld : World :=
  Eval vm_compute in
    finalWorld (render areDependenciesEqual 0 agentCount setsOnTwo 5 []
                  newHost) newHost.

Lemma render_leaves_rewound_witness :
  (render areDependenciesEqual 0 agentCount quiet 5 [] newHost
   = Done tt countedWorld ∧
   pointer (memory countedWorld) = 0 ∧ drained countedWorld) ∧
  (render areDependenciesEqual 0 agentCount setsOnTwo 5 [] newHost
   = Done tt listenerSetWorld ∧
   pointer (memory listenerSetWorld) = 0 ∧
   store listenerSetWorld = [mkState 2 [Replace 3]] ∧
   microtasks listenerSetWorld = 1 ∧
   ∃ (w0 : World) ev,
     drained w0 ∧ memory listenerSetWorld = memory w0 ∧
     last (events listenerSetWorld) = Some ev ∧
     store listenerSetWorld = queued (setsOnTwo ev) (store w0)).
Proof.
  assert (Hquiet : render areDependenciesEqual 0 agentCount quiet 5 [] newHost
                   = Done tt countedWorld) by reflexivity.
  assert (Hsets : render areDependenciesEqual 0 agentCount setsOnTwo 5 []
                    newHost = Done tt listenerSetWorld) by reflexivity.
  split.
  - split; [exact Hquiet|].
    destruct (render_leaves_rewound areDependenciesEqual 0 agentCount quiet 5
                [] newHost countedWorld Hquiet)
      as (Hp & w0 & ev & Hd & Hm & He & Hs & Hq).
    split; [exact Hp|]. apply Hq. intros l. reflexivity.
  - split; [exact Hsets|].
    destruct (render_leaves_rewound areDependenciesEqual 0 agentCount
                setsOnTwo 5 [] newHost listenerSetWorld Hsets)
      as (Hp & w0 & ev & Hd & Hm & He & Hs & Hq).
    split; [exact Hp|]. split; [reflexivity|]. split; [reflexivity|].
    exists w0, ev. repeat split; assumption.
Defined.

Lemma reset_twice_witness :
  reset 0 quiet cleanupWorld = Done tt afterReset ∧
  reset 0 quiet afterReset = Done tt (deliver HostResetEvent afterReset) ∧
  memory (deliver HostResetEvent afterReset) = mkMemory [] 0 ∧
  calls (deliver HostResetEvent afterReset) = calls afterReset.
Proof.
  assert (Hfirst : reset 0 quiet cleanupWorld = Done tt afterReset)
    by reflexivity.
  split; [exact Hfirst|].
  destruct (reset_twice 0 quiet cleanupWorld afterReset Hfirst)
    as (Hr & Hm & Hc & _).
  split; [exact Hr|]. split; [exact Hm|exact Hc].
Defined.

Lemma stale_setter_is_inert_witness :
  memoryCells (memory afterReset) = [] ∧
  ∃ w1, setState (notActive 0) 0 (Replace 9) afterReset = Done tt w1 ∧
        renderAsync areDependenciesEqual 0 agentWithCleanup quiet 3 w1
        = Done tt w1 ∧
        memory w1 = memory afterReset ∧ events w1 = events afterReset ∧
        calls w1 = calls afterReset.
Proof.
  split; [reflexivity|].
  exact (stale_setter_is_inert areDependenciesEqual 0 agentWithCleanup quiet
           3 0 (Replace 9) afterReset eq_refl).
Defined.

Lemma Hook_render_rendering_event_witness :
  Hook.render' areDependenciesEqual 0 agentCount hookQuiet 5
    (setArgs [] hookHost) = Done tt hookCountedWorld ∧
  Hook.render areDependenciesEqual 0 agentCount hookQuiet 5 [] hookHost
  = Done tt hookCountedWorld ∧
  ∃ h vs v,
    calls hookCountedWorld = calls hookHost ++ h ∧
    agentReturns h = vs ++ [v] ∧
    events hookCountedWorld
    = events hookHost ++ [Hook.HostRenderingEvent v (rev vs)].
Proof.
  split; [reflexivity|].
  exact (Hook_render_rendering_event areDependenciesEqual 0 agentCount
           hookQuiet 5 [] hookHost hookCountedWorld eq_refl).
Defined.

(** A hook that sets its state in the first pass and throws in the
    second, rendered by the older variant. *)
Definition hookThrewLaterWorld : WorldOfHook :=
  Eval vm_compute in
    finalWorld (Hook.render' areDependenciesEqual 0 agentSetsThenThrows
                  hookQuiet 3 (setArgs [] hookHost)) hookHost.

Lemma Hook_render_throw_drops_results_witness :
  Hook.render' areDependenciesEqual 0 agentSetsThenThrows hookQuiet 3
    (setArgs [] hookHost) = Raise (Thrown 1) hookThrewLaterWorld ∧
  agentReturns (calls hookThrewLaterWorld) = [0] ∧
  rendering hookThrewLaterWorld = false ∧
  (events hookThrewLaterWorld = events (setArgs [] hookHost) ∨
   ∃ v interim x,
     events hookThrewLaterWorld
     = events (setArgs [] hookHost) ++ [Hook.HostRenderingEvent v interim] ∧
     thrown (hookQuiet (Hook.HostRenderingEvent v interim)) = Some x ∧
     Thrown 1 = Thrown x).
Proof.
  split; [reflexivity|]. split; [reflexivity|].
  exact (Hook_render_throw_drops_results areDependenciesEqual 0
           agentSetsThenThrows hookQuiet 3 (setArgs [] hookHost)
           hookThrewLaterWorld (Thrown 1) eq_refl).
Defined.

End MoreRuns.
